(** * Fellegi-Sunter record linkage: a shallow embedding of record_linkage.py

    The development follows the Python module function by function:
    [tuple_probs] (frequency estimation), [rank_tuples], [sort_by_cum_pr]
    and [create_sets] (ranking and partition of the comparison patterns) and
    the classification loop of [find_matches].

    Modelling conventions.
    - A comparison category is one of the three strings the module
      enumerates (low, medium, high); a comparison tuple is a triple.
    - A Python [dict] keyed by tuples is an association list in insertion
      order: iteration order matters to [create_sets].  A Python [set] of
      tuples is a [gset].
    - A Python [float] is the rational number it denotes.  The rounding of
      a binary64 operation is the function [fl], applied to the exact
      result; it is a parameter, and every theorem says what it needs of it.
      [binary64] is the rounding to nearest of IEEE 754 and serves where a
      concrete instance is needed.
    - Exceptions are explicit: a function that can raise returns a [result].
    - [np.argsort], [jellyfish.jaro_winkler] and [util.get_jw_category] are
      not part of the module; they are parameters.  [np_argsort] is the
      stable ascending argsort (what numpy's insertion sort does on short
      arrays) and serves where a concrete instance is needed. *)

From Stdlib Require Import QArith Qabs Qround Qpower Lqa.
From stdpp Require Import gmap strings list sorting.

(** ** Categories, tuples and the full domain *)

Inductive category := low | medium | high.

#[global] Instance category_eq_dec : EqDecision category.
Proof. solve_decision. Defined.

Definition category_to_nat (c : category) : nat :=
  match c with low => 0 | medium => 1 | high => 2 end.

Definition category_of_nat (n : nat) : option category :=
  match n with 0 => Some low | 1 => Some medium | 2 => Some high | _ => None end.

#[global] Instance category_countable : Countable category.
Proof.
  apply (inj_countable category_to_nat category_of_nat). by intros [].
Defined.

Definition pattern : Type := category * category * category.

(** [categories = ["low", "medium", "high"]] *)
Definition categories : list category := [low; medium; high].

(** The 27 tuples, in the order of the three nested loops of [tuple_probs]. *)
Definition domain : list pattern :=
  cat_1 ← categories; cat_2 ← categories; cat_3 ← categories;
  [(cat_1, cat_2, cat_3)].

Definition domain_set : gset pattern := list_to_set domain.

(** ** Exceptions *)

Inductive exn := KeyError | IndexError | ZeroDivisionError | OverflowError.

(** The Python class name of an exception. *)
Definition exn_name (e : exn) : string :=
  match e with
  | KeyError => "KeyError"
  | IndexError => "IndexError"
  | ZeroDivisionError => "ZeroDivisionError"
  | OverflowError => "OverflowError"
  end.

Inductive result (A : Type) : Type :=
  | Ok (a : A)
  | Raise (e : exn).
Arguments Ok {A} a.
Arguments Raise {A} e.

Definition bind {A B : Type} (r : result A) (k : A → result B) : result B :=
  match r with
  | Ok a => k a
  | Raise e => Raise e
  end.

Notation "x <- r ;; k" := (bind r (λ x, k))
  (at level 100, r at next level, right associativity).

(** A [for] loop whose body may raise. *)
Fixpoint foldM {A B : Type} (f : A → B → result A) (l : list B) (a : A)
    : result A :=
  match l with
  | [] => Ok a
  | x :: l' => a' <- f a x ;; foldM f l' a'
  end.

(** ** Dictionaries keyed by tuples *)

Abbreviation dict V := (list (pattern * V)).

Definition keys {V : Type} (d : dict V) : list pattern := d.*1.
Definition values {V : Type} (d : dict V) : list V := d.*2.

Fixpoint dict_lookup {V : Type} (d : dict V) (k : pattern) : option V :=
  match d with
  | [] => None
  | (k', v) :: d' => if decide (k' = k) then Some v else dict_lookup d' k
  end.

(** [d[k]] *)
Definition dict_get {V : Type} (d : dict V) (k : pattern) : result V :=
  match dict_lookup d k with
  | Some v => Ok v
  | None => Raise KeyError
  end.

(** [d[k] = v]: an existing key keeps its position, a new key goes last. *)
Fixpoint dict_set {V : Type} (d : dict V) (k : pattern) (v : V) : dict V :=
  match d with
  | [] => [(k, v)]
  | (k', v') :: d' =>
      if decide (k' = k) then (k, v) :: d' else (k', v') :: dict_set d' k v
  end.

(** [l[i]] for a list and a non-negative index. *)
Definition list_get {A : Type} (l : list A) (i : nat) : result A :=
  match l !! i with
  | Some x => Ok x
  | None => Raise IndexError
  end.

(** ** Floating-point operations *)

Section Float.
Variable fl : Q → Q.

Definition fadd (a b : Q) : Q := fl (a + b).
Definition fdiv (a b : Q) : Q := fl (a / b).

(** [a / b] on Python integers. *)
Definition truediv (a b : Z) : result Q :=
  if (b =? 0)%Z then Raise ZeroDivisionError
  else Ok (fl (inject_Z a / inject_Z b)).
End Float.

Definition Qlt_bool (a b : Q) : bool := negb (Qle_bool b a).

(** Unit roundoff and smallest subnormal step of binary64. *)
Definition eps64 : Q := 1 # (2 ^ 53).
Definition eta64 : Q := 1 # (2 ^ 1075).

(** ** Frequency estimation: [tuple_probs] *)

Record pair_row := mk_pair_row {
  rest_z : string; city_z : string; address_z : string;
  rest_f : string; city_f : string; address_f : string
}.

(** The three nested loops [counts[(cat_1, cat_2, cat_3)] = 0]. *)
Definition init_counts : dict Z :=
  foldl (λ counts cat_1,
    foldl (λ counts cat_2,
      foldl (λ counts cat_3, dict_set counts (cat_1, cat_2, cat_3) 0%Z)
        counts categories)
      counts categories)
    [] categories.

(** [sum(counts.values())] *)
Definition sum_values (counts : dict Z) : Z := foldl Z.add 0%Z (values counts).

Section Estimator.
Variable jaro_winkler : string → string → Q.
Variable get_jw_category : Q → category.
Variable fl : Q → Q.

Definition row_tuple (row : pair_row) : pattern :=
  let score_r := jaro_winkler (rest_f row) (rest_z row) in
  let score_c := jaro_winkler (city_f row) (city_z row) in
  let score_a := jaro_winkler (address_f row) (address_z row) in
  let cat_r := get_jw_category score_r in
  let cat_c := get_jw_category score_c in
  let cat_a := get_jw_category score_a in
  (cat_r, cat_c, cat_a).

(** Body of the loop over the rows: [counts[tup] += 1]. *)
Definition count_row (counts : dict Z) (row : pair_row) : result (dict Z) :=
  let tup := row_tuple row in
  c <- dict_get counts tup ;;
  Ok (dict_set counts tup (c + 1)%Z).

(** Body of the last loop: [freqs[t] = count / sum(counts.values())]. *)
Definition normalise (counts : dict Z) (freqs : dict Q) (item : pattern * Z)
    : result (dict Q) :=
  let '(t, count) := item in
  q <- truediv fl count (sum_values counts) ;;
  Ok (dict_set freqs t q).

Definition tuple_probs (df : list pair_row) : result (dict Q) :=
  counts <- foldM count_row df init_counts ;;
  let freqs := prod_map id inject_Z <$> counts in
  foldM (normalise counts) counts freqs.
End Estimator.

(** ** Ranking and partition: [rank_tuples], [sort_by_cum_pr], [create_sets] *)

(** The locals that the first loop of [create_sets] fills. *)
Record triage := mk_triage {
  possible_tuples : gset pattern;
  ratios : list Q;
  tuples_to_rank : list pattern;
  front : list pattern
}.

Definition triage_init : triage :=
  {| possible_tuples := ∅; ratios := []; tuples_to_rank := []; front := [] |}.

(** The locals of [create_sets] when it returns. *)
Record create_sets_locals := mk_locals {
  cs_triage : triage;
  cs_ranked_built : list pattern;      (* [ranked] as [rank_tuples] returns it *)
  cs_ranked : list pattern;            (* [ranked] after the two cutoff calls *)
  cs_match_tuples : gset pattern;
  cs_unmatch_tuples_full : gset pattern;
  cs_unmatch_tuples : gset pattern;
  cs_ranked_set : gset pattern;
  cs_leftover : gset pattern;
  cs_possible_tuples : gset pattern
}.

Section Partitioner.
Variable argsort : list Q → list nat.
Variable fl : Q → Q.

(** The loop [for rank in order: ranked.append(tuples_to_rank[rank])]. *)
Fixpoint rank_loop (tuples_to_rank : list pattern) (order : list nat)
    (ranked : list pattern) : result (list pattern) :=
  match order with
  | [] => Ok ranked
  | rank :: order' =>
      t <- list_get tuples_to_rank rank ;;
      rank_loop tuples_to_rank order' (ranked ++ [t])
  end.

Definition rank_tuples (front tuples_to_rank : list pattern)
    (ratios : list Q) : result (list pattern) :=
  let order := argsort ratios in
  let order := reverse order in
  ranked <- rank_loop tuples_to_rank order [] ;;
  Ok (front ++ ranked).

(** The loop of [sort_by_cum_pr], with its [break]. *)
Fixpoint cum_loop (level : Q) (freqs : dict Q) (ranked : list pattern)
    (cumulative_p : Q) (tuples_set : gset pattern) : result (gset pattern) :=
  match ranked with
  | [] => Ok tuples_set
  | t :: ranked' =>
      f <- dict_get freqs t ;;
      let cumulative_p := fadd fl cumulative_p f in
      if Qle_bool cumulative_p level
      then cum_loop level freqs ranked' cumulative_p (tuples_set ∪ {[t]})
      else Ok tuples_set
  end.

(** [ranked] is the caller's list object: [ranked.reverse()] mutates it, so
    the function returns the list as it leaves it next to its result. *)
Definition sort_by_cum_pr (level : Q) (ranked : list pattern)
    (freqs : dict Q) (left_tail : bool)
    : result (gset pattern * list pattern) :=
  let tuples_set := ∅ in
  let ranked := if left_tail then ranked else reverse ranked in
  tuples_set <- cum_loop level freqs ranked 0%Q tuples_set ;;
  Ok (tuples_set, ranked).

(** Body of the loop [for t, u in freqs_u.items()]. *)
Definition triage_step (freqs_m : dict Q) (st : triage) (item : pattern * Q)
    : result triage :=
  let '(t, u) := item in
  m <- dict_get freqs_m t ;;
  if Qeq_bool u 0 then
    if Qeq_bool m 0 then
      Ok {| possible_tuples := possible_tuples st ∪ {[t]};
            ratios := ratios st;
            tuples_to_rank := tuples_to_rank st;
            front := front st |}
    else
      Ok {| possible_tuples := possible_tuples st;
            ratios := ratios st;
            tuples_to_rank := tuples_to_rank st;
            front := front st ++ [t] |}
  else
    Ok {| possible_tuples := possible_tuples st;
          ratios := ratios st ++ [fdiv fl m u];
          tuples_to_rank := tuples_to_rank st ++ [t];
          front := front st |}.

Definition create_sets_body (freqs_m freqs_u : dict Q) (mu lmbda : Q)
    : result create_sets_locals :=
  tr <- foldM (triage_step freqs_m) freqs_u triage_init ;;
  ranked0 <- rank_tuples (front tr) (tuples_to_rank tr) (ratios tr) ;;
  r1 <- sort_by_cum_pr mu ranked0 freqs_u true ;;
  let '(match_tuples, ranked) := r1 in
  r2 <- sort_by_cum_pr lmbda ranked freqs_m false ;;
  let '(unmatch_tuples_full, ranked) := r2 in
  let unmatch_tuples := unmatch_tuples_full ∖ match_tuples in
  let ranked_set := list_to_set ranked in
  let leftover := ranked_set ∖ (match_tuples ∪ unmatch_tuples) in
  let possible_tuples := possible_tuples tr ∪ leftover in
  Ok {| cs_triage := tr;
        cs_ranked_built := ranked0;
        cs_ranked := ranked;
        cs_match_tuples := match_tuples;
        cs_unmatch_tuples_full := unmatch_tuples_full;
        cs_unmatch_tuples := unmatch_tuples;
        cs_ranked_set := ranked_set;
        cs_leftover := leftover;
        cs_possible_tuples := possible_tuples |}.

(** Returns [(possible_tuples, match_tuples, unmatch_tuples)]. *)
Definition create_sets (freqs_m freqs_u : dict Q) (mu lmbda : Q)
    : result (gset pattern * gset pattern * gset pattern) :=
  e <- create_sets_body freqs_m freqs_u mu lmbda ;;
  Ok (cs_possible_tuples e, cs_match_tuples e, cs_unmatch_tuples e).

(** [create_sets] as it would be if [sort_by_cum_pr] reversed a copy:
    [ranked_set] is built from the list [rank_tuples] returned. *)
Definition create_sets_on_copy (freqs_m freqs_u : dict Q) (mu lmbda : Q)
    : result (gset pattern * gset pattern * gset pattern) :=
  tr <- foldM (triage_step freqs_m) freqs_u triage_init ;;
  ranked <- rank_tuples (front tr) (tuples_to_rank tr) (ratios tr) ;;
  r1 <- sort_by_cum_pr mu ranked freqs_u true ;;
  r2 <- sort_by_cum_pr lmbda ranked freqs_m false ;;
  let match_tuples := r1.1 in
  let unmatch_tuples := r2.1 ∖ match_tuples in
  let ranked_set := list_to_set ranked in
  let leftover := ranked_set ∖ (match_tuples ∪ unmatch_tuples) in
  Ok (possible_tuples tr ∪ leftover, match_tuples, unmatch_tuples).
End Partitioner.

(** ** A concrete [argsort]: stable, ascending *)

(** Insertion of index [vi] into the indices already sorted: it goes in
    front of the first index whose value is strictly greater. *)
Fixpoint insert_index (v : list Q) (vi : nat) (sorted : list nat) : list nat :=
  match sorted with
  | [] => [vi]
  | vj :: sorted' =>
      if Qlt_bool (nth vi v 0%Q) (nth vj v 0%Q) then vi :: vj :: sorted'
      else vj :: insert_index v vi sorted'
  end.

Definition np_argsort (v : list Q) : list nat :=
  foldl (λ sorted vi, insert_index v vi sorted) [] (seq 0 (length v)).

(** ** Pairwise classification: the loop of [find_matches] *)

Record restaurant := mk_restaurant {
  rest : string; city : string; address : string
}.

(** A data frame: its rows with their index labels, as [iterrows] yields. *)
Abbreviation dataframe := (list (Z * restaurant)).

(** The six output lists. *)
Record lists := mk_lists {
  match_z : list Z; match_f : list Z;
  unmatch_z : list Z; unmatch_f : list Z;
  poss_z : list Z; poss_f : list Z
}.

Definition lists_init : lists :=
  {| match_z := []; match_f := []; unmatch_z := []; unmatch_f := [];
     poss_z := []; poss_f := [] |}.

Definition row_city (row : Z * restaurant) : string := city row.2.

Section Classifier.
Variable jaro_winkler : string → string → Q.
Variable get_jw_category : Q → category.
Variables possible_tuples match_tuples unmatch_tuples : gset pattern.

(** The comparison tuple [t] of a pair of rows. *)
Definition pair_tuple (data_z data_f : restaurant) : pattern :=
  let score_r := jaro_winkler (rest data_z) (rest data_f) in
  let score_c := jaro_winkler (city data_z) (city data_f) in
  let score_a := jaro_winkler (address data_z) (address data_f) in
  let cat_r := get_jw_category score_r in
  let cat_c := get_jw_category score_c in
  let cat_a := get_jw_category score_a in
  (cat_r, cat_c, cat_a).

(** Body of the inner loop: the [if]/[elif]/[elif] chain, without [else]. *)
Definition classify_pair (out : lists) (row_z row_f : Z * restaurant)
    : lists :=
  let '(i_z, data_z) := row_z in
  let '(i_f, data_f) := row_f in
  let t := pair_tuple data_z data_f in
  if decide (t ∈ match_tuples) then
    {| match_z := match_z out ++ [i_z]; match_f := match_f out ++ [i_f];
       unmatch_z := unmatch_z out; unmatch_f := unmatch_f out;
       poss_z := poss_z out; poss_f := poss_f out |}
  else if decide (t ∈ unmatch_tuples) then
    {| match_z := match_z out; match_f := match_f out;
       unmatch_z := unmatch_z out ++ [i_z];
       unmatch_f := unmatch_f out ++ [i_f];
       poss_z := poss_z out; poss_f := poss_f out |}
  else if decide (t ∈ possible_tuples) then
    {| match_z := match_z out; match_f := match_f out;
       unmatch_z := unmatch_z out; unmatch_f := unmatch_f out;
       poss_z := poss_z out ++ [i_z]; poss_f := poss_f out ++ [i_f] |}
  else out.

(** [fodors[fodors["city"] == city]] when blocking, [fodors] otherwise. *)
Definition fodors_to_iterate (block_on_city : bool) (fodors : dataframe)
    (row_z : Z * restaurant) : dataframe :=
  if block_on_city then
    let city := city row_z.2 in
    filter (λ row_f, row_city row_f = city) fodors
  else fodors.

Definition find_matches_loop (block_on_city : bool)
    (zagat fodors : dataframe) : lists :=
  foldl (λ out row_z,
    foldl (λ out row_f, classify_pair out row_z row_f)
      out (fodors_to_iterate block_on_city fodors row_z))
    lists_init zagat.
End Classifier.

(** ** [find_matches]

    The two data frames the function reads ([zagat], [fodors]) and the two
    training samples it builds from them ([matches], [unmatches]) are
    arguments.  The six index lists stand for the three frames that
    [make_final_dfs] assembles from them; the [print] calls are left out. *)

Section FindMatches.
Variable argsort : list Q → list nat.
Variable fl : Q → Q.
Variable jaro_winkler : string → string → Q.
Variable get_jw_category : Q → category.

Definition find_matches (zagat fodors : dataframe)
    (matches unmatches : list pair_row) (mu lambda_ : Q)
    (block_on_city : bool) : result lists :=
  freqs_m <- tuple_probs jaro_winkler get_jw_category fl matches ;;
  freqs_u <- tuple_probs jaro_winkler get_jw_category fl unmatches ;;
  sets <- create_sets argsort fl freqs_m freqs_u mu lambda_ ;;
  let possible_tuples := sets.1.1 in
  let match_tuples := sets.1.2 in
  let unmatch_tuples := sets.2 in
  Ok (find_matches_loop jaro_winkler get_jw_category
        possible_tuples match_tuples unmatch_tuples
        block_on_city zagat fodors).
End FindMatches.

(** ** Binary64 arithmetic

    Python's [float] is IEEE 754 binary64 and its [+] and [/] round the
    exact result to the nearest binary64 number, ties to even.  [binary64]
    is that rounding on the rationals: 53 significant bits, and no finer
    than the subnormal step 2^-1074.  Overflow is not modelled (the
    exponent has no upper bound); the numbers of this module stay far
    below it. *)

(** The integer nearest to [y]; the even one when [y] lies half way
    between two integers. *)
Definition round_half_even (y : Q) : Z :=
  let f := Qfloor y in
  match (y - inject_Z f ?= 1 # 2)%Q with
  | Lt => f
  | Gt => (f + 1)%Z
  | Eq => if Z.even f then f else (f + 1)%Z
  end.

(** The exponent [e] with [2^e <= x < 2^(e+1)], for a positive [x]. *)
Definition binade (x : Q) : Z :=
  let e := (Z.log2 (Qnum x) - Z.log2 (Zpos (Qden x)))%Z in
  if Qle_bool (2 ^ e) x then e else (e - 1)%Z.

Definition binary64 (x : Q) : Q :=
  if Qeq_bool x 0 then 0%Q
  else
    let e := binade (Qabs x) in
    let q := Z.max (e - 52) (-1074) in
    (inject_Z (round_half_even (x / 2 ^ q)) * 2 ^ q)%Q.

(** ** Row selection and the frames built from it: [create_matches],
    [make_final_dfs]

    [df.iloc[idx]] selects rows by position, whatever their index labels: a
    position [i] with [0 <= i < n] is row [i], one with [-n <= i < 0] is row
    [n + i], and any other position that is a machine integer makes the
    whole selection fail with IndexError.  [reset_index(drop=True)] then
    forgets the labels.  The entries of a column are machine integers; those
    of a Python list need not be, see [iloc_list]. *)

Fixpoint mapM {A B : Type} (f : A → result B) (l : list A) : result (list B) :=
  match l with
  | [] => Ok []
  | x :: l' => y <- f x ;; ys <- mapM f l' ;; Ok (y :: ys)
  end.

Definition iloc_row (df : dataframe) (i : Z) : result restaurant :=
  let n := Z.of_nat (length df) in
  if decide (- n ≤ i < n)%Z then
    row <- list_get df (Z.to_nat (if decide (i < 0)%Z then n + i else i)%Z) ;;
    Ok row.2
  else Raise IndexError.

(** [df.iloc[idx].reset_index(drop=True)] for a column [idx] of machine
    integers, as [read_csv] yields for the links. *)
Definition iloc (df : dataframe) (idx : list Z) : result (list restaurant) :=
  mapM (iloc_row df) idx.

(** A Python integer that fits a C long, and one that fits 64 bits, signed
    or unsigned. *)
Definition fits_long (i : Z) : Prop := (- 2 ^ 63 ≤ i < 2 ^ 63)%Z.
Definition fits_64_bits (i : Z) : Prop := (- 2 ^ 63 ≤ i < 2 ^ 64)%Z.

#[global] Instance fits_long_dec (i : Z) : Decision (fits_long i).
Proof. unfold fits_long. apply _. Defined.

#[global] Instance fits_64_bits_dec (i : Z) : Decision (fits_64_bits i).
Proof. unfold fits_64_bits. apply _. Defined.

(** A row of a frame with the columns rest_z, city_z, address_z, rest_f,
    city_f, address_f. *)
Definition joined_row (data_z data_f : restaurant) : pair_row :=
  {| rest_z := rest data_z; city_z := city data_z;
     address_z := address data_z;
     rest_f := rest data_f; city_f := city data_f;
     address_f := address data_f |}.

(** [known_links] is the frame read from the links file: its rows are the
    pairs (z, f).  The two selections have one row per link, so
    [pd.concat(..., axis=1)] joins them row by row. *)
Definition create_matches (df1 df2 : dataframe) (known_links : list (Z * Z))
    : result (list pair_row) :=
  df1_o <- iloc df1 known_links.*1 ;;
  df2_o <- iloc df2 known_links.*2 ;;
  let matches := zip_with joined_row df1_o df2_o in
  Ok matches.

(** [pd.concat([df1_o, df2_o], axis=1)] on two frames indexed from 0: row
    [k] of the result has the cells of row [k] of each frame, and the cells
    of a frame that has no row [k] are missing ([None] stands for the three
    NaN cells of a side). *)
Fixpoint concat_columns (df1_o df2_o : list restaurant)
    : list (option restaurant * option restaurant) :=
  match df1_o with
  | [] => (λ y, (None, Some y)) <$> df2_o
  | x :: df1_o' =>
      match df2_o with
      | [] => (Some x, None) :: concat_columns df1_o' []
      | y :: df2_o' => (Some x, Some y) :: concat_columns df1_o' df2_o'
      end
  end.

Section Selection.
(** What [df.iloc[idx]] makes of a Python list with an entry from 2^63 up
    to 2^64 and none beyond: numpy reads such a list as unsigned or
    floating-point numbers, and the outcome depends on its casts.  It is a
    parameter. *)
Variable iloc_wide : dataframe → list Z → result (list restaurant).

(** [df.iloc[idx].reset_index(drop=True)] for a Python list [idx].  pandas
    turns the list into an array of machine integers before it selects:
    that fails with OverflowError when an entry does not fit 64 bits, and a
    list of entries that fit a C long is selected from as a column is.  A
    frame has fewer than 2^63 rows, so the positions of a selection that
    succeeds all fit a C long. *)
Definition iloc_list (df : dataframe) (idx : list Z)
    : result (list restaurant) :=
  match iloc df idx with
  | Ok rows => Ok rows
  | Raise e =>
      if decide (Forall fits_long idx) then Raise e
      else if decide (Forall fits_64_bits idx) then iloc_wide df idx
      else Raise OverflowError
  end.

Definition make_final_dfs (df1 df2 : dataframe) (match_z match_f : list Z)
    : result (list (option restaurant * option restaurant)) :=
  if bool_decide (match_z = []) && bool_decide (match_f = []) then
    Ok []
  else
    df1_o <- iloc_list df1 match_z ;;
    df2_o <- iloc_list df2 match_f ;;
    let concatenated := concat_columns df1_o df2_o in
    Ok concatenated.
End Selection.

(** ** [find_matches], from the links to the three output frames

    [known_links] and the frame [unmatches] that [create_unmatches] samples
    are arguments; the rest is the body of the function.  It returns
    [(matches_out, possible_matches_out, unmatches_out)]. *)

Section FindMatchesTables.
Variable iloc_wide : dataframe → list Z → result (list restaurant).
Variable argsort : list Q → list nat.
Variable fl : Q → Q.
Variable jaro_winkler : string → string → Q.
Variable get_jw_category : Q → category.

Definition find_matches_tables (zagat fodors : dataframe)
    (known_links : list (Z * Z)) (unmatches : list pair_row)
    (mu lambda_ : Q) (block_on_city : bool)
    : result (list (option restaurant * option restaurant)
              * list (option restaurant * option restaurant)
              * list (option restaurant * option restaurant)) :=
  matches <- create_matches zagat fodors known_links ;;
  out <- find_matches argsort fl jaro_winkler get_jw_category
           zagat fodors matches unmatches mu lambda_ block_on_city ;;
  matches_out <- make_final_dfs iloc_wide zagat fodors (match_z out) (match_f out) ;;
  unmatches_out <-
    make_final_dfs iloc_wide zagat fodors (unmatch_z out) (unmatch_f out) ;;
  possible_matches_out <-
    make_final_dfs iloc_wide zagat fodors (poss_z out) (poss_f out) ;;
  Ok (matches_out, possible_matches_out, unmatches_out).
End FindMatchesTables.

(** * Vocabulary of the statements *)

#[global] Instance category_inhabited : Inhabited category := populate low.

Definition Qsum (l : list Q) : Q := foldr Qplus 0%Q l.

(** ** Rounding *)

(** Rounding to nearest in binary64, on the range of a relative frequency:
    the result stays in the range and is off by at most the unit roundoff
    times the exact value plus the subnormal step. *)
Definition binary64_rounding (fl : Q → Q) : Prop :=
  ∀ q : Q, (0 <= q <= 1)%Q →
    (0 <= fl q <= 1)%Q ∧ (Qabs (fl q - q) <= eps64 * q + eta64)%Q.

(** Arithmetic without rounding error. *)
Definition fl_exact (fl : Q → Q) : Prop := ∀ q : Q, (fl q == q)%Q.

(** Rounding keeps zero and keeps a positive number positive. *)
Definition fl_keeps_sign (fl : Q → Q) : Prop :=
  ∀ q : Q, ((q == 0)%Q → (fl q == 0)%Q) ∧ ((0 < q)%Q → (0 < fl q)%Q).

(** The tolerance of the frequency tables, 1e-9. *)
Definition tolerance : Q := 1 # 1000000000.

(** ** Frequency tables *)

(** The entry that the last loop of [tuple_probs] writes for an item of
    [counts]. *)
Definition freq_item (fl : Q → Q) (total : Z) (item : pattern * Z)
    : pattern * Q :=
  (item.1, fl (inject_Z item.2 / inject_Z total)%Q).

(** A table with exactly one entry for every tuple of the domain. *)
Definition full_domain {V : Type} (d : dict V) : Prop := keys d ≡ₚ domain.

(** A table whose entries are not negative. *)
Definition nonneg_table (freqs : dict Q) : Prop :=
  ∀ t v, (t, v) ∈ freqs → (0 <= v)%Q.

(** The value a table holds for a tuple (0 for a missing key). *)
Definition freq_of (freqs : dict Q) (t : pattern) : Q :=
  default 0%Q (dict_lookup freqs t).

(** The sum of a table's entries over the tuples of a set. *)
Definition sum_over (freqs : dict Q) (s : gset pattern) : Q :=
  Qsum (values (filter (λ item, item.1 ∈ s) freqs)).

(** The running sum [cumulative_p] of [sort_by_cum_pr] after the tuples of
    [l], started at [c]. *)
Definition running (fl : Q → Q) (freqs : dict Q) (c : Q) (l : list pattern)
    : Q :=
  foldl (λ c t, fadd fl c (freq_of freqs t)) c l.

(** ** The contract of [np.argsort] *)

(** [v[i]] *)
Definition at_index (v : list Q) (i : nat) : Q := nth i v 0%Q.

(** The indices of [v], each once, in an order that makes the values
    ascend. *)
Definition argsort_spec (argsort : list Q → list nat) : Prop :=
  ∀ v : list Q,
    argsort v ≡ₚ seq 0 (length v)
    ∧ StronglySorted (λ i j, (at_index v i <= at_index v j)%Q) (argsort v).

(** Ascending order of the values, equal values in the order of their
    indices. *)
Definition stable_lt (v : list Q) (i j : nat) : Prop :=
  (at_index v i < at_index v j)%Q ∨ ((at_index v i == at_index v j)%Q ∧ i < j).

Definition argsort_stable (argsort : list Q → list nat) : Prop :=
  ∀ v : list Q, StronglySorted (stable_lt v) (argsort v).

(** Descending order of the values. *)
Definition ratio_ge (v : list Q) (i j : nat) : Prop :=
  (at_index v j <= at_index v i)%Q.

(** Descending order of the values, equal values in the reverse order of
    their indices. *)
Definition ties_reversed (v : list Q) (i j : nat) : Prop :=
  (at_index v j < at_index v i)%Q ∨ ((at_index v i == at_index v j)%Q ∧ j < i).

(** ** The ranking in the words of the specification *)

(** Descending ratio, equal ratios in enumeration order: [insert_desc] puts
    an item behind every item whose ratio is at least its own. *)
Fixpoint insert_desc (x : pattern * Q) (l : list (pattern * Q))
    : list (pattern * Q) :=
  match l with
  | [] => [x]
  | y :: l' =>
      if Qlt_bool y.2 x.2 then x :: y :: l' else y :: insert_desc x l'
  end.

Definition sort_desc_stable (l : list (pattern * Q)) : list (pattern * Q) :=
  foldl (λ sorted x, insert_desc x sorted) [] l.

Definition rank_tuples_stable (front tuples_to_rank : list pattern)
    (ratios : list Q) : list pattern :=
  front ++ (sort_desc_stable (zip tuples_to_rank ratios)).*1.

(** ** The first loop of [create_sets] *)

(** Its three cases, on an item of [freqs_u]. *)
Definition is_possible (freqs_m : dict Q) (item : pattern * Q) : bool :=
  Qeq_bool item.2 0 && Qeq_bool (freq_of freqs_m item.1) 0.
Definition is_front (freqs_m : dict Q) (item : pattern * Q) : bool :=
  Qeq_bool item.2 0 && negb (Qeq_bool (freq_of freqs_m item.1) 0).
Definition is_ranked (item : pattern * Q) : bool :=
  negb (Qeq_bool item.2 0).

(** The locals after the loop has run over the items [l] from the locals
    [st]. *)
Definition triage_of (fl : Q → Q) (freqs_m : dict Q) (st : triage)
    (l : dict Q) : triage :=
  {| possible_tuples :=
       possible_tuples st
       ∪ list_to_set (filter (λ it, is_possible freqs_m it = true) l).*1;
     ratios :=
       ratios st
       ++ ((λ it, fdiv fl (freq_of freqs_m it.1) it.2)
             <$> filter (λ it, is_ranked it = true) l);
     tuples_to_rank :=
       tuples_to_rank st ++ (filter (λ it, is_ranked it = true) l).*1;
     front := front st ++ (filter (λ it, is_front freqs_m it = true) l).*1 |}.

(** The locals of [create_sets] at its [return], from the four values its
    calls produce. *)
Definition locals_of (tr : triage) (ranked0 : list pattern)
    (match_tuples unmatch_tuples_full : gset pattern) : create_sets_locals :=
  let ranked := reverse ranked0 in
  let unmatch_tuples := unmatch_tuples_full ∖ match_tuples in
  let ranked_set := list_to_set ranked in
  let leftover := ranked_set ∖ (match_tuples ∪ unmatch_tuples) in
  {| cs_triage := tr;
     cs_ranked_built := ranked0;
     cs_ranked := ranked;
     cs_match_tuples := match_tuples;
     cs_unmatch_tuples_full := unmatch_tuples_full;
     cs_unmatch_tuples := unmatch_tuples;
     cs_ranked_set := ranked_set;
     cs_leftover := leftover;
     cs_possible_tuples := possible_tuples tr ∪ leftover |}.

(** ** Classification *)

(** The three classifications. *)
Inductive label := Match | Unmatch | Possible.

#[global] Instance label_eq_dec : EqDecision label.
Proof. solve_decision. Defined.

(** The two index lists of a classification, and their index pairs. *)
Definition zs_of (c : label) (out : lists) : list Z :=
  match c with
  | Match => match_z out | Unmatch => unmatch_z out | Possible => poss_z out
  end.

Definition fs_of (c : label) (out : lists) : list Z :=
  match c with
  | Match => match_f out | Unmatch => unmatch_f out | Possible => poss_f out
  end.

Definition index_pairs (c : label) (out : lists) : list (Z * Z) :=
  zip (zs_of c out) (fs_of c out).

(** [df.loc[i]]: the row with index label [i]. *)
Fixpoint loc (df : dataframe) (i : Z) : option restaurant :=
  match df with
  | [] => None
  | (j, data) :: df' => if decide (j = i) then Some data else loc df' i
  end.

(** The rows that an index pair names have equal city fields. *)
Definition same_city (zagat fodors : dataframe) (p : Z * Z) : Prop :=
  ∃ data_z data_f, loc zagat p.1 = Some data_z ∧ loc fodors p.2 = Some data_f
    ∧ city data_f = city data_z.

#[global] Instance same_city_dec zagat fodors p :
  Decision (same_city zagat fodors p).
Proof.
  unfold same_city.
  destruct (loc zagat p.1) as [data_z|] eqn:Hz;
    [|right; by intros (? & ? & ? & _)].
  destruct (loc fodors p.2) as [data_f|] eqn:Hf;
    [|right; by intros (? & ? & _ & ? & _)].
  destruct (decide (city data_f = city data_z)) as [Heq|Hne].
  - left. by exists data_z, data_f.
  - right. intros (? & ? & [= <-] & [= <-] & ?). done.
Defined.

Section ClassifierVocabulary.
Variable jaro_winkler : string → string → Q.
Variable get_jw_category : Q → category.
Variables possible_tuples match_tuples unmatch_tuples : gset pattern.

(** The branch of the [if]/[elif] chain a pair of rows takes, if any. *)
Definition pair_label (rp : (Z * restaurant) * (Z * restaurant))
    : option label :=
  let t := pair_tuple jaro_winkler get_jw_category rp.1.2 rp.2.2 in
  if decide (t ∈ match_tuples) then Some Match
  else if decide (t ∈ unmatch_tuples) then Some Unmatch
  else if decide (t ∈ possible_tuples) then Some Possible
  else None.

(** The body of the inner loop, on a pair of rows. *)
Definition classify_step (out : lists)
    (rp : (Z * restaurant) * (Z * restaurant)) : lists :=
  classify_pair jaro_winkler get_jw_category
    possible_tuples match_tuples unmatch_tuples out rp.1 rp.2.
End ClassifierVocabulary.

(** The pairs of rows the two loops visit, in order. *)
Definition candidates (block_on_city : bool) (zagat fodors : dataframe)
    : list ((Z * restaurant) * (Z * restaurant)) :=
  row_z ← zagat; pair row_z <$> fodors_to_iterate block_on_city fodors row_z.

(** ** Sample inputs *)

(** The table with frequency 1 at [p] and 0 elsewhere, in the order of
    [tuple_probs]. *)
Definition point_table (p : pattern) : dict Q :=
  (λ t, (t, if decide (t = p) then 1%Q else 0%Q)) <$> domain.

(** A training sample of one row; similarity and category functions that
    send every pair of strings to [high]. *)
Definition sample_row : pair_row :=
  mk_pair_row "Spago" "LA" "1 Main St" "Spago" "LA" "1 Main St".
Definition jw_one (a b : string) : Q := 1%Q.
Definition cat_high (score : Q) : category := high.

(** Two tuples, and two small data frames. *)
Definition t_lll : pattern := (low, low, low).
Definition t_llm : pattern := (low, low, medium).
Definition t_hhh : pattern := (high, high, high).

Definition zagat_sample : dataframe :=
  [(0%Z, mk_restaurant "Spago" "LA" "1 Main St");
   (1%Z, mk_restaurant "Nobu" "NYC" "2 Oak Ave")].
Definition fodors_sample : dataframe :=
  [(0%Z, mk_restaurant "Spago" "LA" "1 Main Street");
   (1%Z, mk_restaurant "Nobu" "New York" "2 Oak Avenue")].

(** ** Samples, positions and output frames *)

(** The number of rows of a sample whose comparison tuple is [t]. *)
Definition tuple_count (jaro_winkler : string → string → Q)
    (get_jw_category : Q → category) (df : list pair_row) (t : pattern) : Z :=
  Z.of_nat
    (length (filter (λ row, row_tuple jaro_winkler get_jw_category row = t) df)).

(** A position that [iloc] accepts on a frame. *)
Definition in_bounds (df : dataframe) (i : Z) : Prop :=
  (- Z.of_nat (length df) ≤ i < Z.of_nat (length df))%Z.

(** The row of a frame at a position, counted from the end when the
    position is negative. *)
Definition row_at (df : dataframe) (i : Z) : option restaurant :=
  snd <$> df !! Z.to_nat
    (if decide (i < 0)%Z then Z.of_nat (length df) + i else i)%Z.

(** The index labels of a frame are its positions 0, 1, 2, ... *)
Definition positional (df : dataframe) : Prop :=
  df.*1 = Z.of_nat <$> seq 0 (length df).

(** The rows of an output frame for a list of pairs of rows. *)
Definition frame_rows (rps : list ((Z * restaurant) * (Z * restaurant)))
    : list (option restaurant * option restaurant) :=
  (λ rp, (Some rp.1.2, Some rp.2.2)) <$> rps.

(** A second training row and a list of links into the sample frames. *)
Definition sample_row_2 : pair_row :=
  mk_pair_row "Nobu" "NYC" "2 Oak Ave" "Nobu" "New York" "2 Oak Avenue".
Definition links_sample : list (Z * Z) := [(0, 0); (1, 1)]%Z.

(** ** Rounding of the running sums *)

(** Rounding to nearest in binary64, on the range of the running sums that
    [sort_by_cum_pr] forms from two numbers of [0, 1]: the result is not
    negative and is off by at most the unit roundoff times the exact value
    plus the subnormal step. *)
Definition binary64_sum_rounding (fl : Q → Q) : Prop :=
  ∀ q : Q, (0 <= q <= 2)%Q →
    (0 <= fl q)%Q ∧ (Qabs (fl q - q) <= eps64 * q + eta64)%Q.

(** A table whose entries are in [0, 1]. *)
Definition unit_table (freqs : dict Q) : Prop :=
  ∀ t v, (t, v) ∈ freqs → (0 <= v <= 1)%Q.

(** The rounding error of one addition with a result in [0, 2], and the
    error that the 27 additions of a walk over the domain can add up to
    (less than 1e-14). *)
Definition step_slack : Q := 2 * eps64 + eta64.
Definition rounding_slack : Q := 27 * step_slack.

(** ** Two samples of ten rows

    Stand-ins for the similarity and the category function that tell equal
    strings from different ones, and rows for four tuples. *)
Definition jw_equal (a b : string) : Q := if decide (a = b) then 1%Q else 0%Q.
Definition cat_equal (score : Q) : category :=
  if Qle_bool 1 score then high else low.

Definition t_hhl : pattern := (high, high, low).
Definition t_hlh : pattern := (high, low, high).

Definition row_hhh : pair_row := mk_pair_row "r" "c" "a" "r" "c" "a".
Definition row_hhl : pair_row := mk_pair_row "r" "c" "a" "r" "c" "b".
Definition row_hlh : pair_row := mk_pair_row "r" "c" "a" "r" "d" "a".
Definition row_lll : pair_row := mk_pair_row "r" "c" "a" "s" "d" "b".

(** Matches: 5, 3, 1 and 1 rows; unmatches: 3, 2, 1 and 4 rows. *)
Definition matches_ten : list pair_row :=
  replicate 5 row_hhh ++ replicate 3 row_hhl ++ [row_hlh] ++ [row_lll].
Definition unmatches_ten : list pair_row :=
  replicate 3 row_hhh ++ replicate 2 row_hhl ++ [row_hlh]
  ++ replicate 4 row_lll.

(** The binary64 table of a sample of ten rows with [count t] rows of
    tuple [t]. *)
Definition tenths (count : pattern → Z) : dict Q :=
  (λ t, (t, binary64 (inject_Z (count t) / 10))) <$> domain.

Definition freqs_m_ten : dict Q :=
  tenths (λ t, if decide (t = t_hhh) then 5%Z
               else if decide (t = t_hhl) then 3%Z
               else if decide (t = t_hlh) then 1%Z
               else if decide (t = t_lll) then 1%Z else 0%Z).
Definition freqs_u_ten : dict Q :=
  tenths (λ t, if decide (t = t_hhh) then 3%Z
               else if decide (t = t_hhl) then 2%Z
               else if decide (t = t_hlh) then 1%Z
               else if decide (t = t_lll) then 4%Z else 0%Z).

(** * Properties *)

(** ** The domain *)

Lemma domain_complete (t : pattern) : t ∈ domain.
Proof.
  destruct t as [[[] []] []]; apply list_elem_of_In; vm_compute; tauto.
Qed.

Lemma domain_NoDup : NoDup domain.
Proof. apply (bool_decide_unpack _). by vm_compute. Qed.

Lemma domain_length : length domain = 27.
Proof. reflexivity. Qed.

Lemma elem_of_domain_set (t : pattern) : t ∈ domain_set.
Proof. apply elem_of_list_to_set, domain_complete. Qed.

(** ** Dictionaries *)

Section DictFacts.
Context {V : Type}.
Implicit Types (d : dict V) (k : pattern) (v : V).

Lemma dict_lookup_Some_elem d k v :
  dict_lookup d k = Some v → (k, v) ∈ d.
Proof.
  induction d as [|[k' v'] d IH]; simpl; [done|].
  case_decide; intros Hl.
  - simplify_eq. left.
  - right. auto.
Qed.

Lemma dict_lookup_None d k : dict_lookup d k = None ↔ k ∉ keys d.
Proof.
  unfold keys. induction d as [|[k' v'] d IH]; simpl.
  - split; [intros _; apply not_elem_of_nil | done].
  - rewrite not_elem_of_cons. case_decide.
  + split; [done|]. intros [? _]. congruence.
  + rewrite IH. split; [intros ?; split; [by intros ->|done] | tauto].
Qed.

Lemma dict_lookup_is_Some d k : is_Some (dict_lookup d k) ↔ k ∈ keys d.
Proof.
  rewrite <- not_eq_None_Some, dict_lookup_None.
  destruct (decide (k ∈ keys d)); naive_solver.
Qed.

Lemma dict_lookup_NoDup d k v :
  NoDup (keys d) → (k, v) ∈ d → dict_lookup d k = Some v.
Proof.
  unfold keys. induction d as [|[k' v'] d IH]; simpl.
  - intros _ H. by apply elem_of_nil in H.
  - rewrite NoDup_cons, elem_of_cons. intros [Hk Hd] [Heq|Hin].
    + simplify_eq. by rewrite decide_True.
    + rewrite decide_False; [auto|].
      intros ->. apply Hk. apply list_elem_of_fmap. by exists (k, v).
Qed.

Lemma dict_get_Ok d k : k ∈ keys d → ∃ v, dict_get d k = Ok v ∧ (k, v) ∈ d.
Proof.
  intros [v Hv]%dict_lookup_is_Some. exists v. unfold dict_get.
  rewrite Hv. split; [done|]. by apply dict_lookup_Some_elem.
Qed.

Lemma dict_set_app_fresh d1 d2 k v v' :
  k ∉ keys d1 →
  dict_set (d1 ++ (k, v) :: d2) k v' = d1 ++ (k, v') :: d2.
Proof.
  unfold keys. induction d1 as [|[k1 v1] d1 IH]; simpl.
  - intros _. by rewrite decide_True.
  - rewrite not_elem_of_cons. intros [Hne Hk].
    rewrite decide_False by done. by rewrite IH.
Qed.

Lemma dict_lookup_split d k v :
  dict_lookup d k = Some v →
  ∃ d1 d2, d = d1 ++ (k, v) :: d2 ∧ k ∉ keys d1.
Proof.
  unfold keys. induction d as [|[k' v'] d IH]; simpl; [done|].
  case_decide; intros Hl.
  - simplify_eq. exists [], d. split; [done|]. apply not_elem_of_nil.
  - destruct (IH Hl) as (d1 & d2 & -> & Hk).
    exists ((k', v') :: d1), d2. split; [done|].
    simpl. rewrite not_elem_of_cons. auto.
Qed.
End DictFacts.

(** ** Sums *)

Lemma sum_values_foldr (counts : dict Z) :
  sum_values counts = foldr Z.add 0%Z (values counts).
Proof.
  unfold sum_values. generalize (values counts). intros l.
  assert (∀ a, foldl Z.add a l = (a + foldr Z.add 0 l)%Z) as H.
  { induction l as [|x l IH]; intros a; simpl; [lia|]. rewrite IH. lia. }
  rewrite H. lia.
Qed.

Lemma sum_values_app (d1 d2 : dict Z) :
  sum_values (d1 ++ d2) = (sum_values d1 + sum_values d2)%Z.
Proof.
  rewrite !sum_values_foldr. unfold values. rewrite fmap_app, foldr_app.
  induction (d1.*2) as [|x l IH]; simpl; lia.
Qed.

Lemma sum_values_cons (k : pattern) (c : Z) (d : dict Z) :
  sum_values ((k, c) :: d) = (c + sum_values d)%Z.
Proof. by rewrite !sum_values_foldr. Qed.

(** ** Frequency estimation *)

Lemma Qdiv_Z_bounds (c n : Z) :
  (0 ≤ c ≤ n)%Z → (0 < n)%Z → (0 <= inject_Z c / inject_Z n <= 1)%Q.
Proof.
  intros [Hc Hn] Hpos.
  assert (0 < inject_Z n)%Q as Hq.
  { change 0%Q with (inject_Z 0). by rewrite <- Zlt_Qlt. }
  split.
  - apply Qle_shift_div_l; [done|]. rewrite Qmult_0_l.
    change 0%Q with (inject_Z 0). by rewrite <- Zle_Qle.
  - apply Qle_shift_div_r; [done|]. rewrite Qmult_1_l. by rewrite <- Zle_Qle.
Qed.

Lemma Qdiv_Z_plus (a b n : Z) :
  (0 < n)%Z →
  (inject_Z (a + b) / inject_Z n == inject_Z a / inject_Z n + inject_Z b / inject_Z n)%Q.
Proof.
  intros Hpos. rewrite inject_Z_plus. field.
  intros H. rewrite Zlt_Qlt, H in Hpos. by apply Qlt_irrefl in Hpos.
Qed.

Lemma eps64_nonneg : (0 <= eps64)%Q.
Proof. done. Qed.
Lemma eta64_nonneg : (0 <= eta64)%Q.
Proof. done. Qed.

Lemma Zsum_nonneg (cs : list Z) :
  Forall (λ c, (0 ≤ c)%Z) cs → (0 ≤ foldr Z.add 0%Z cs)%Z.
Proof. induction 1; simpl; lia. Qed.

Lemma rounded_sum_error (fl : Q → Q) (n : Z) (cs : list Z) :
  binary64_rounding fl → (0 < n)%Z →
  Forall (λ c, (0 ≤ c)%Z) cs → (foldr Z.add 0%Z cs ≤ n)%Z →
  (Qabs (Qsum ((λ c, fl (inject_Z c / inject_Z n)) <$> cs)
         - inject_Z (foldr Z.add 0%Z cs) / inject_Z n)
   <= eps64 * (inject_Z (foldr Z.add 0%Z cs) / inject_Z n)
      + inject_Z (Z.of_nat (length cs)) * eta64)%Q.
Proof.
  intros Hfl Hn Hcs. induction Hcs as [|c cs Hc Hcs IH]; intros Hle.
  - simpl. unfold Qdiv. rewrite !Qmult_0_l, Qmult_0_r. done.
  - simpl in Hle. pose proof (Zsum_nonneg cs Hcs) as Hs.
    specialize (IH ltac:(lia)).
    destruct (Hfl (inject_Z c / inject_Z n)%Q) as [_ Herr].
    { apply Qdiv_Z_bounds; lia. }
    destruct (Qdiv_Z_bounds c n ltac:(lia) Hn) as [Hq0 _].
    simpl foldr. simpl length. rewrite Nat2Z.inj_succ, <- Z.add_1_r.
    rewrite fmap_cons. simpl Qsum.
    rewrite (Qdiv_Z_plus c _ n Hn), (inject_Z_plus _ 1).
    apply Qabs_Qle_condition in IH as [IH1 IH2].
    apply Qabs_Qle_condition in Herr as [He1 He2].
    apply Qabs_Qle_condition.
    pose proof eta64_nonneg.
    set (x := fl _) in *. set (qc := (inject_Z c / inject_Z n)%Q) in *.
    set (S := Qsum _) in *. set (qs := (inject_Z (foldr Z.add 0%Z cs) / inject_Z n)%Q) in *.
    set (len := inject_Z (Z.of_nat (length cs))) in *.
    change (inject_Z 1) with 1%Q.
    split; lra.
Qed.

Lemma Zsum_member_le (cs : list Z) (c : Z) :
  Forall (λ c, (0 ≤ c)%Z) cs → c ∈ cs → (0 ≤ c ≤ foldr Z.add 0 cs)%Z.
Proof.
  induction 1 as [|x cs Hx Hcs IH]; rewrite ?elem_of_cons; simpl.
  - intros H. by apply elem_of_nil in H.
  - pose proof (Zsum_nonneg cs Hcs). intros [->|Hin]; [lia|].
    specialize (IH Hin). lia.
Qed.

Lemma binary64_tolerance : (eps64 * 1 + inject_Z 27 * eta64 <= tolerance)%Q.
Proof. apply Qle_bool_imp_le. by vm_compute. Qed.

Lemma keys_init_counts : keys init_counts = domain.
Proof. reflexivity. Qed.

Lemma sum_values_init_counts : sum_values init_counts = 0%Z.
Proof. reflexivity. Qed.

Lemma init_counts_nonneg : Forall (λ c, (0 ≤ c)%Z) (values init_counts).
Proof. apply (bool_decide_unpack _). by vm_compute. Qed.

Section EstimatorFacts.
Variable jaro_winkler : string → string → Q.
Variable get_jw_category : Q → category.
Variable fl : Q → Q.

Lemma count_row_spec (counts : dict Z) (row : pair_row) :
  keys counts = domain →
  ∃ counts',
    count_row jaro_winkler get_jw_category counts row = Ok counts'
    ∧ keys counts' = domain
    ∧ sum_values counts' = (sum_values counts + 1)%Z
    ∧ (Forall (λ c, (0 ≤ c)%Z) (values counts) →
       Forall (λ c, (0 ≤ c)%Z) (values counts')).
Proof.
  intros Hk. unfold count_row.
  set (tup := row_tuple _ _ row).
  assert (tup ∈ keys counts) as Hin by (rewrite Hk; apply domain_complete).
  apply dict_lookup_is_Some in Hin as [c Hc].
  unfold dict_get. rewrite Hc. simpl.
  destruct (dict_lookup_split _ _ _ Hc) as (d1 & d2 & -> & Hfresh).
  rewrite dict_set_app_fresh by done.
  eexists. split; [done|]. split; [|split].
  - rewrite <- Hk. unfold keys. by rewrite !fmap_app.
  - rewrite !sum_values_app, !sum_values_cons. lia.
  - unfold values. rewrite !fmap_app, !fmap_cons, !Forall_app, !Forall_cons.
    simpl. intros (? & ? & ?). repeat split; [done|lia|done].
Qed.

Lemma count_rows_spec (df : list pair_row) : ∀ counts : dict Z,
  keys counts = domain →
  ∃ counts',
    foldM (count_row jaro_winkler get_jw_category) df counts = Ok counts'
    ∧ keys counts' = domain
    ∧ sum_values counts' = (sum_values counts + Z.of_nat (length df))%Z
    ∧ (Forall (λ c, (0 ≤ c)%Z) (values counts) →
       Forall (λ c, (0 ≤ c)%Z) (values counts')).
Proof.
  induction df as [|row df IH]; intros counts Hk; simpl.
  - exists counts. repeat split; [done|lia|done].
  - destruct (count_row_spec counts row Hk) as (c1 & -> & Hk1 & Hs1 & Hn1).
    simpl. destruct (IH c1 Hk1) as (c2 & -> & Hk2 & Hs2 & Hn2).
    exists c2. repeat split; [done|lia|auto].
Qed.

Lemma normalise_loop (counts : dict Z) (l2 : dict Z) : ∀ l1 : dict Z,
  sum_values counts ≠ 0%Z →
  NoDup (keys (l1 ++ l2)) →
  foldM (normalise fl counts) l2
    ((freq_item fl (sum_values counts) <$> l1) ++ (prod_map id inject_Z <$> l2))
  = Ok (freq_item fl (sum_values counts) <$> (l1 ++ l2)).
Proof.
  induction l2 as [|[t c] l2 IH]; intros l1 Hz Hnd; simpl.
  - by rewrite !app_nil_r.
  - unfold truediv. destruct (Z.eqb_spec (sum_values counts) 0); [done|].
    simpl. rewrite dict_set_app_fresh.
    + specialize (IH (l1 ++ [(t, c)]) Hz).
      rewrite <- !app_assoc in IH. simpl in IH.
      rewrite fmap_app, <- app_assoc in IH. simpl in IH. apply IH. done.
    + unfold keys in *. rewrite fmap_app in Hnd.
      apply NoDup_app in Hnd as (_ & Hd & _).
      intros Hin. apply (Hd t).
      * rewrite <- list_fmap_compose in Hin.
        by erewrite list_fmap_ext in Hin.
      * simpl. left.
Qed.

Lemma tuple_probs_Ok (df : list pair_row) :
  df ≠ [] →
  ∃ counts : dict Z,
    tuple_probs jaro_winkler get_jw_category fl df
    = Ok (freq_item fl (sum_values counts) <$> counts)
    ∧ keys counts = domain
    ∧ sum_values counts = Z.of_nat (length df)
    ∧ Forall (λ c, (0 ≤ c)%Z) (values counts).
Proof.
  intros Hne. unfold tuple_probs.
  destruct (count_rows_spec df init_counts
    keys_init_counts) as (counts & -> & Hk & Hs & Hn).
  rewrite sum_values_init_counts, Z.add_0_l in Hs.
  specialize (Hn init_counts_nonneg).
  exists counts. split; [|done]. simpl.
  apply (normalise_loop counts counts []).
  - rewrite Hs. destruct df; [done|]. simpl. lia.
  - simpl. rewrite Hk. apply domain_NoDup.
Qed.

(** C4.  On a non-empty sample [tuple_probs] returns a table with one entry
    for each of the 27 tuples of the domain, in enumeration order; every
    entry lies in [0, 1]; and the entries sum to 1 within the tolerance
    1e-9, whatever binary64 rounding the division performs. *)
Theorem tuple_probs_frequency_table (df : list pair_row) :
  binary64_rounding fl → df ≠ [] →
  ∃ freqs : dict Q,
    tuple_probs jaro_winkler get_jw_category fl df = Ok freqs
    ∧ keys freqs = domain
    ∧ (∀ t v, (t, v) ∈ freqs → (0 <= v <= 1)%Q)
    ∧ (Qabs (Qsum (values freqs) - 1) <= tolerance)%Q.
Proof.
  intros Hfl Hne.
  destruct (tuple_probs_Ok df Hne) as (counts & Hrun & Hk & Hs & Hn).
  assert (0 < sum_values counts)%Z as Hpos.
  { rewrite Hs. destruct df; [done|]. simpl. lia. }
  eexists. split; [exact Hrun|]. split; [|split].
  - rewrite <- Hk. unfold keys. rewrite <- list_fmap_compose.
    by apply list_fmap_ext.
  - intros t v [[t' c] [Heq Hin]]%list_elem_of_fmap.
    unfold freq_item in Heq. simpl in Heq. simplify_eq.
    apply Hfl, Qdiv_Z_bounds; [|done].
    rewrite sum_values_foldr. apply Zsum_member_le; [done|].
    apply list_elem_of_fmap. by exists (t', c).
  - assert (values (freq_item fl (sum_values counts) <$> counts)
      = (λ c, fl (inject_Z c / inject_Z (sum_values counts))) <$> values counts)
      as ->.
    { unfold values. rewrite <- !list_fmap_compose. by apply list_fmap_ext. }
    pose proof (rounded_sum_error fl (sum_values counts) (values counts)
      Hfl Hpos Hn) as Herr.
    rewrite <- sum_values_foldr in Herr. specialize (Herr ltac:(lia)).
    assert (length (values counts) = 27) as Hlen.
    { unfold values. rewrite length_fmap.
      rewrite <- (length_fmap fst), <- domain_length. by f_equal. }
    rewrite Hlen in Herr.
    assert (inject_Z (sum_values counts) / inject_Z (sum_values counts) == 1)%Q
      as Hone.
    { field. intros H. rewrite Zlt_Qlt, H in Hpos. by apply Qlt_irrefl in Hpos. }
    rewrite Hone in Herr.
    eapply Qle_trans; [exact Herr|]. apply binary64_tolerance.
Qed.

(** C5, amended.  On an empty sample [tuple_probs] fails with the
    ZeroDivisionError of the normalising division. *)
Theorem tuple_probs_empty_sample :
  tuple_probs jaro_winkler get_jw_category fl [] = Raise ZeroDivisionError.
Proof. reflexivity. Qed.
End EstimatorFacts.

Lemma id_binary64_rounding : binary64_rounding id.
Proof.
  intros q Hq. split; [done|]. unfold id.
  apply Qabs_Qle_condition.
  pose proof eps64_nonneg. pose proof eta64_nonneg.
  assert (0 <= eps64 * q)%Q by (apply Qmult_le_0_compat; tauto).
  split; lra.
Qed.

Lemma tuple_probs_frequency_table_witness :
  binary64_rounding id ∧ [sample_row] ≠ [] ∧
  ∃ freqs : dict Q,
    tuple_probs jw_one cat_high id [sample_row] = Ok freqs
    ∧ keys freqs = domain
    ∧ (∀ t v, (t, v) ∈ freqs → (0 <= v <= 1)%Q)
    ∧ (Qabs (Qsum (values freqs) - 1) <= tolerance)%Q.
Proof.
  split; [exact id_binary64_rounding|]. split; [done|].
  apply (tuple_probs_frequency_table jw_one cat_high id [sample_row]
    id_binary64_rounding). done.
Defined.

(** C5, as claimed, fails: the exception raised on the empty sample is a
    ZeroDivisionError, not a ConfigurationError. *)
Lemma tuple_probs_empty_not_configuration_error :
  ∃ e : exn,
    tuple_probs jw_one cat_high id [] = Raise e
    ∧ exn_name e ≠ "ConfigurationError".
Proof. exists ZeroDivisionError. split; [reflexivity|done]. Qed.

(** ** Ranking *)

Lemma StronglySorted_impl {A : Type} (R1 R2 : A → A → Prop) (l : list A) :
  (∀ x y, R1 x y → R2 x y) → StronglySorted R1 l → StronglySorted R2 l.
Proof.
  intros HR. induction 1 as [|x l Hl IH Hx]; constructor; [done|].
  eapply Forall_impl; [exact Hx|]. auto.
Qed.

Lemma StronglySorted_reverse {A : Type} (R : A → A → Prop) (l : list A) :
  StronglySorted R l → StronglySorted (flip R) (reverse l).
Proof.
  induction 1 as [|x l Hl IH Hx]; [constructor|]. rewrite reverse_cons.
  apply StronglySorted_app. split; [|split; [done|repeat constructor]].
  intros y z Hy Hz. rewrite elem_of_reverse in Hy.
  apply list_elem_of_singleton in Hz as ->.
  rewrite Forall_forall in Hx. unfold flip. by apply Hx.
Qed.

Lemma Qlt_bool_spec (a b : Q) : Qlt_bool a b = true ↔ (a < b)%Q.
Proof.
  unfold Qlt_bool. rewrite negb_true_iff.
  destruct (Qle_bool b a) eqn:H.
  - apply Qle_bool_iff in H. split; [done|]. intros ?. exfalso. lra.
  - split; [intros _|done]. apply Qnot_le_lt. intros Hle.
    apply Qle_bool_iff in Hle. congruence.
Qed.

Lemma insert_index_Permutation (v : list Q) (i : nat) (l : list nat) :
  insert_index v i l ≡ₚ i :: l.
Proof.
  induction l as [|j l IH]; simpl; [done|].
  destruct (Qlt_bool _ _); [done|]. rewrite IH. apply Permutation_swap.
Qed.

Lemma insert_index_sorted (v : list Q) (i : nat) (l : list nat) :
  StronglySorted (stable_lt v) l → Forall (λ j, j < i) l →
  StronglySorted (stable_lt v) (insert_index v i l).
Proof.
  induction 1 as [|j l Hl IH Hj]; simpl; intros Hlt.
  - repeat constructor.
  - apply Forall_cons in Hlt as [Hji Hlt].
    fold (at_index v i). fold (at_index v j).
    destruct (Qlt_bool (at_index v i) (at_index v j)) eqn:Hc.
    + apply Qlt_bool_spec in Hc. constructor; [by constructor|].
      constructor; [by left|].
      eapply Forall_impl; [exact Hj|]. intros k [Hk|[Hk _]]; left; lra.
    + constructor; [auto|]. rewrite insert_index_Permutation.
      constructor; [|done].
      assert (¬ (at_index v i < at_index v j)%Q) as Hn
        by (rewrite <- Qlt_bool_spec; congruence).
      apply Qnot_lt_le in Hn. apply Qle_lt_or_eq in Hn as [?|?].
      * by left.
      * right. done.
Qed.

Lemma np_argsort_loop (v : list Q) (k : nat) : ∀ (a : nat) (acc : list nat),
  StronglySorted (stable_lt v) acc → Forall (λ j, j < a) acc →
  let r := foldl (λ sorted vi, insert_index v vi sorted) acc (seq a k) in
  r ≡ₚ acc ++ seq a k ∧ StronglySorted (stable_lt v) r.
Proof.
  induction k as [|k IH]; intros a acc Hs Hlt; simpl.
  - by rewrite app_nil_r.
  - destruct (IH (S a) (insert_index v a acc)) as [Hp Hs'].
    + by apply insert_index_sorted.
    + rewrite insert_index_Permutation. constructor; [lia|].
      eapply Forall_impl; [exact Hlt|]. simpl. lia.
    + split; [|done]. rewrite Hp, insert_index_Permutation.
      by rewrite <- Permutation_middle.
Qed.

Lemma np_argsort_stable : argsort_stable np_argsort.
Proof.
  intros v. unfold np_argsort.
  apply (np_argsort_loop v (length v) 0 []); constructor.
Qed.

Lemma np_argsort_spec : argsort_spec np_argsort.
Proof.
  intros v. split.
  - unfold np_argsort.
    by destruct (np_argsort_loop v (length v) 0 []) as [Hp _]; [constructor..|].
  - eapply StronglySorted_impl; [|apply np_argsort_stable].
    intros i j [?|[? _]]; simpl in *; lra.
Qed.

Section RankFacts.
Variable argsort : list Q → list nat.

Lemma rank_loop_spec (ttr : list pattern) (order : list nat) :
  ∀ acc : list pattern,
  Forall (λ i, i < length ttr) order →
  ∃ ranked, rank_loop ttr order acc = Ok (acc ++ ranked)
    ∧ Forall2 (λ i t, ttr !! i = Some t) order ranked.
Proof.
  induction order as [|i order IH]; intros acc Hlt; simpl.
  - exists []. by rewrite app_nil_r.
  - apply Forall_cons in Hlt as [Hi Hlt].
    destruct (lookup_lt_is_Some_2 ttr i Hi) as [t Ht].
    unfold list_get. rewrite Ht. simpl.
    destruct (IH (acc ++ [t]) Hlt) as (ranked & -> & HF).
    exists (t :: ranked). rewrite <- app_assoc. split; [done|].
    by constructor.
Qed.

Lemma lookups_Permutation (ttr : list pattern) (order : list nat)
    (ranked : list pattern) :
  Forall2 (λ i t, ttr !! i = Some t) order ranked →
  order ≡ₚ seq 0 (length ttr) → ranked ≡ₚ ttr.
Proof.
  intros HF.
  assert (ranked = (λ i, ttr !!! i) <$> order) as ->.
  { induction HF as [|i t order ranked Hi _ IH]; [done|]. simpl.
    rewrite IH. f_equal. symmetry. by apply list_lookup_total_correct. }
  intros Hp. rewrite Hp.
  assert ((λ i, ttr !!! i) <$> seq 0 (length ttr) = ttr) as ->; [|done].
  apply list_eq. intros i.
  rewrite list_lookup_fmap.
  destruct (decide (i < length ttr)) as [Hi|Hi].
  - rewrite lookup_seq_lt by done. simpl.
    symmetry. by apply list_lookup_lookup_total_lt.
  - rewrite lookup_seq_ge by lia. simpl. symmetry.
    apply lookup_ge_None. lia.
Qed.

Lemma argsort_indices (ratios : list Q) (n : nat) :
  argsort_spec argsort → n = length ratios →
  reverse (argsort ratios) ≡ₚ seq 0 n
  ∧ Forall (λ i, i < n) (reverse (argsort ratios)).
Proof.
  intros Hspec ->. destruct (Hspec ratios) as [Hp _].
  assert (reverse (argsort ratios) ≡ₚ seq 0 (length ratios)) as Hp'
    by (by rewrite reverse_Permutation).
  split; [done|]. rewrite Hp'. apply Forall_forall.
  intros i Hi%elem_of_seq. lia.
Qed.

Lemma rank_tuples_spec (front ttr : list pattern) (ratios : list Q) :
  argsort_spec argsort → length ttr = length ratios →
  ∃ (order : list nat) (ranked : list pattern),
    order = reverse (argsort ratios)
    ∧ rank_tuples argsort front ttr ratios = Ok (front ++ ranked)
    ∧ order ≡ₚ seq 0 (length ttr)
    ∧ Forall2 (λ i t, ttr !! i = Some t) order ranked
    ∧ StronglySorted (ratio_ge ratios) order
    ∧ (argsort_stable argsort → StronglySorted (ties_reversed ratios) order).
Proof.
  intros Hspec Hlen.
  destruct (argsort_indices ratios (length ttr) Hspec Hlen) as [Hp Hlt].
  destruct (rank_loop_spec ttr _ [] Hlt) as (ranked & Hrun & HF).
  exists (reverse (argsort ratios)), ranked. split; [done|].
  split; [|split; [done|split; [done|split]]].
  - unfold rank_tuples. by rewrite Hrun.
  - destruct (Hspec ratios) as [_ Hs].
    apply StronglySorted_reverse in Hs.
    eapply StronglySorted_impl; [|exact Hs]. by unfold flip, ratio_ge.
  - intros Hst. specialize (Hst ratios).
    apply StronglySorted_reverse in Hst.
    eapply StronglySorted_impl; [|exact Hst].
    unfold flip, stable_lt, ties_reversed.
    intros i j [?|[Heq ?]]; [by left|right]. split; [|done]. by symmetry.
Qed.

Lemma rank_tuples_Permutation (front ttr : list pattern) (ratios : list Q) :
  argsort_spec argsort → length ttr = length ratios →
  ∃ ranked, rank_tuples argsort front ttr ratios = Ok (front ++ ranked)
    ∧ ranked ≡ₚ ttr.
Proof.
  intros Hspec Hlen.
  destruct (rank_tuples_spec front ttr ratios Hspec Hlen)
    as (order & ranked & _ & Hrun & Hp & HF & _).
  exists ranked. split; [done|]. by eapply lookups_Permutation.
Qed.
(** C3, amended.  [rank_tuples] returns the front list followed by the
    to-rank tuples in descending order of ratio: the tuples at the indices
    [np.argsort] returns, taken in reverse.  Tuples of equal ratio therefore
    appear in the reverse of the order [np.argsort] gives them; under a
    stable [np.argsort] that is the reverse of their enumeration order. *)
Theorem rank_tuples_order (front ttr : list pattern) (ratios : list Q) :
  argsort_spec argsort → length ttr = length ratios →
  ∃ (order : list nat) (ranked : list pattern),
    order = reverse (argsort ratios)
    ∧ rank_tuples argsort front ttr ratios = Ok (front ++ ranked)
    ∧ order ≡ₚ seq 0 (length ttr)
    ∧ Forall2 (λ i t, ttr !! i = Some t) order ranked
    ∧ StronglySorted (ratio_ge ratios) order
    ∧ (argsort_stable argsort → StronglySorted (ties_reversed ratios) order).
Proof. apply rank_tuples_spec. Qed.
End RankFacts.

Lemma rank_tuples_order_witness :
  argsort_spec np_argsort
  ∧ length [t_lll; t_llm] = length [1%Q; 1%Q]
  ∧ ∃ order ranked,
      order = reverse (np_argsort [1%Q; 1%Q])
      ∧ rank_tuples np_argsort [] [t_lll; t_llm] [1%Q; 1%Q]
        = Ok ([] ++ ranked)
      ∧ order ≡ₚ seq 0 (length [t_lll; t_llm])
      ∧ Forall2 (λ i t, [t_lll; t_llm] !! i = Some t) order ranked
      ∧ StronglySorted (ratio_ge [1%Q; 1%Q]) order
      ∧ (argsort_stable np_argsort →
         StronglySorted (ties_reversed [1%Q; 1%Q]) order).
Proof.
  split; [exact np_argsort_spec|]. split; [reflexivity|].
  exact (rank_tuples_order np_argsort [] [t_lll; t_llm] [1%Q; 1%Q]
    np_argsort_spec eq_refl).
Defined.

(** C3, as claimed, fails: two tuples of equal ratio come out in the
    reverse of their enumeration order, where the stable descending sort
    keeps it. *)
Lemma rank_tuples_ties_not_stable :
  rank_tuples np_argsort [] [t_lll; t_llm] [1%Q; 1%Q] = Ok [t_llm; t_lll]
  ∧ rank_tuples_stable [] [t_lll; t_llm] [1%Q; 1%Q] = [t_lll; t_llm]
  ∧ rank_tuples np_argsort [] [t_lll; t_llm] [1%Q; 1%Q]
    ≠ Ok (rank_tuples_stable [] [t_lll; t_llm] [1%Q; 1%Q]).
Proof. split; [|split]; [reflexivity..|]. by vm_compute. Qed.

(** Ratios 1, 2, 1: the stable descending sort keeps the first tuple ahead
    of the third, [rank_tuples] puts the third ahead of the first. *)
Example rank_tuples_three :
  rank_tuples_stable [] [t_lll; t_llm; t_hhh] [1%Q; 2%Q; 1%Q]
    = [t_llm; t_lll; t_hhh]
  ∧ rank_tuples np_argsort [] [t_lll; t_llm; t_hhh] [1%Q; 2%Q; 1%Q]
    = Ok [t_llm; t_hhh; t_lll].
Proof. split; reflexivity. Qed.

(** ** The first loop of [create_sets] *)

Section TriageFacts.
Variable fl : Q → Q.
Variable freqs_m : dict Q.

Lemma triage_loop_spec (l : dict Q) : ∀ st : triage,
  Forall (λ t, t ∈ keys freqs_m) (keys l) →
  foldM (triage_step fl freqs_m) l st = Ok (triage_of fl freqs_m st l).
Proof.
  induction l as [|[t u] l IH]; intros st Hk.
  - simpl. destruct st. unfold triage_of. simpl.
    by rewrite !app_nil_r, union_empty_r_L.
  - unfold keys in Hk. rewrite fmap_cons in Hk.
    apply Forall_cons in Hk as [Ht Hk]. simpl in Ht.
    apply dict_lookup_is_Some in Ht as [m Hm].
    cbn [foldM]. unfold triage_step at 1, dict_get. rewrite Hm. cbn [bind].
    assert (freq_of freqs_m t = m) as Hf by (unfold freq_of; by rewrite Hm).
    assert (is_possible freqs_m (t, u) = Qeq_bool u 0 && Qeq_bool m 0) as Hp
      by (unfold is_possible; simpl; by rewrite Hf).
    assert (is_front freqs_m (t, u) = Qeq_bool u 0 && negb (Qeq_bool m 0))
      as Hfr by (unfold is_front; simpl; by rewrite Hf).
    assert (is_ranked (t, u) = negb (Qeq_bool u 0)) as Hr by done.
    unfold triage_of. rewrite !filter_cons, Hp, Hfr, Hr.
    destruct (Qeq_bool u 0); destruct (Qeq_bool m 0);
      cbn [bind andb negb]; rewrite IH by done; unfold triage_of;
      cbn [possible_tuples ratios tuples_to_rank front];
      repeat case_decide; try done;
      rewrite ?fmap_cons; cbn [fst snd]; rewrite ?Hf, <- ?app_assoc;
      f_equal; f_equal; try done.
    rewrite list_to_set_cons. by rewrite (assoc_L (∪)).
Qed.
End TriageFacts.

(** ** The cutoff loop *)

Lemma Qsum_cons (x : Q) (l : list Q) : Qsum (x :: l) = (x + Qsum l)%Q.
Proof. reflexivity. Qed.

Section CutoffFacts.
Variable fl : Q → Q.

Lemma dict_get_freq_of (freqs : dict Q) (t : pattern) :
  t ∈ keys freqs → dict_get freqs t = Ok (freq_of freqs t).
Proof.
  intros [v Hv]%dict_lookup_is_Some. unfold dict_get, freq_of. by rewrite Hv.
Qed.

Lemma cum_loop_spec (level : Q) (freqs : dict Q) (ranked : list pattern) :
  ∀ (c : Q) (S : gset pattern),
  Forall (λ t, t ∈ keys freqs) ranked →
  ∃ pre post, ranked = pre ++ post
    ∧ cum_loop fl level freqs ranked c S = Ok (S ∪ list_to_set pre)
    ∧ (pre = [] ∨ (running fl freqs c pre <= level)%Q).
Proof.
  induction ranked as [|t ranked IH]; intros c S Hk.
  - exists [], []. simpl. rewrite union_empty_r_L. auto.
  - apply Forall_cons in Hk as [Ht Hk]. cbn [cum_loop].
    rewrite (dict_get_freq_of _ _ Ht). cbn [bind].
    destruct (Qle_bool (fadd fl c (freq_of freqs t)) level) eqn:Hle.
    + destruct (IH (fadd fl c (freq_of freqs t)) (S ∪ {[t]}) Hk)
        as (pre & post & -> & -> & Hrun).
      exists (t :: pre), post. split; [done|]. split.
      * rewrite list_to_set_cons. by rewrite (assoc_L (∪)).
      * right. destruct Hrun as [->|Hrun]; [|done].
        simpl. by apply Qle_bool_iff.
    + exists [], (t :: ranked). simpl. rewrite union_empty_r_L. auto.
Qed.

Lemma running_exact (freqs : dict Q) (l : list pattern) : ∀ c : Q,
  fl_exact fl → (running fl freqs c l == c + Qsum (freq_of freqs <$> l))%Q.
Proof.
  induction l as [|t l IH]; intros c Hfl.
  - unfold running, Qsum. simpl. lra.
  - cbn [running foldl]. pose proof (IH (fadd fl c (freq_of freqs t)) Hfl) as H.
    unfold running in H. rewrite H. unfold fadd.
    rewrite (Hfl (c + freq_of freqs t)%Q), fmap_cons, Qsum_cons. lra.
Qed.

Lemma cum_loop_zero (freqs : dict Q) (fr rest : list pattern) :
  fl_keeps_sign fl →
  ∀ (c : Q) (S : gset pattern),
  (c == 0)%Q →
  Forall (λ t, t ∈ keys freqs ∧ (freq_of freqs t == 0)%Q) fr →
  Forall (λ t, t ∈ keys freqs ∧ (0 < freq_of freqs t)%Q) rest →
  cum_loop fl 0 freqs (fr ++ rest) c S = Ok (S ∪ list_to_set fr).
Proof.
  intros Hfl. induction fr as [|t fr IH]; intros c S Hc Hfr Hrest.
  - simpl. rewrite union_empty_r_L.
    destruct Hrest as [|t rest [Ht Hpos] _]; [done|].
    cbn [cum_loop]. rewrite (dict_get_freq_of _ _ Ht). cbn [bind].
    destruct (Qle_bool _ _) eqn:Hle; [|done].
    apply Qle_bool_iff in Hle. unfold fadd in Hle.
    destruct (Hfl (c + freq_of freqs t)%Q) as [_ Hp].
    specialize (Hp ltac:(lra)). lra.
  - apply Forall_cons in Hfr as [[Ht Hz] Hfr].
    cbn [app cum_loop]. rewrite (dict_get_freq_of _ _ Ht). cbn [bind].
    destruct (Hfl (c + freq_of freqs t)%Q) as [Hp _].
    specialize (Hp ltac:(lra)).
    destruct (Qle_bool _ _) eqn:Hle.
    + rewrite IH by done. rewrite list_to_set_cons. by rewrite (assoc_L (∪)).
    + exfalso. assert (Qle_bool (fadd fl c (freq_of freqs t)) 0 = true) as H.
      { apply Qle_bool_iff. unfold fadd. lra. }
      congruence.
Qed.
End CutoffFacts.

Lemma Qsum_Permutation (l1 l2 : list Q) : l1 ≡ₚ l2 → (Qsum l1 == Qsum l2)%Q.
Proof. induction 1; rewrite ?Qsum_cons; lra. Qed.

Lemma freq_of_item (freqs : dict Q) (t : pattern) (v : Q) :
  NoDup (keys freqs) → (t, v) ∈ freqs → freq_of freqs t = v.
Proof.
  intros Hnd Hin. unfold freq_of. by rewrite (dict_lookup_NoDup _ _ _ Hnd Hin).
Qed.

Lemma sum_over_list (freqs : dict Q) (l : list pattern) :
  NoDup (keys freqs) → NoDup l → Forall (λ t, t ∈ keys freqs) l →
  (sum_over freqs (list_to_set l) == Qsum (freq_of freqs <$> l))%Q.
Proof.
  intros Hnd Hl Hk. unfold sum_over.
  set (L := filter (λ item, item.1 ∈ (list_to_set l : gset pattern)) freqs).
  assert (values L = freq_of freqs <$> keys L) as ->.
  { unfold values, keys. rewrite <- list_fmap_compose.
    apply list_fmap_ext. intros i [t v] Hi. simpl. symmetry.
    apply freq_of_item; [done|]. apply list_elem_of_lookup_2 in Hi.
    by apply list_elem_of_filter in Hi as [_ ?]. }
  apply Qsum_Permutation, fmap_Permutation, NoDup_Permutation; [|done|].
  - unfold keys in *. subst L. clear Hk Hl.
    induction freqs as [|[t v] freqs IH]; [constructor|].
    rewrite fmap_cons in Hnd. apply NoDup_cons in Hnd as [Hn Hnd].
    rewrite filter_cons. case_decide; [|by apply IH].
    rewrite fmap_cons. apply NoDup_cons. split; [|by apply IH].
    intros [[t' v'] [Heq Hin]]%list_elem_of_fmap. simpl in Heq. subst t'.
    apply list_elem_of_filter in Hin as [_ Hin]. apply Hn.
    apply list_elem_of_fmap. by exists (t, v').
  - intros t. unfold keys. rewrite list_elem_of_fmap. split.
    + intros [[t' v] [-> Hin]]. apply list_elem_of_filter in Hin as [Hin _].
      by apply elem_of_list_to_set in Hin.
    + intros Hin. rewrite Forall_forall in Hk. pose proof (Hk t Hin) as Ht.
      apply dict_get_Ok in Ht as (v & _ & Hv). exists (t, v). split; [done|].
      apply list_elem_of_filter. split; [|done]. by apply elem_of_list_to_set.
Qed.

(** ** The classes of the first loop *)

Lemma NoDup_keys_filter {V : Type} (P : pattern * V → Prop)
    `{∀ x, Decision (P x)} (d : dict V) :
  NoDup (keys d) → NoDup (keys (filter P d)).
Proof.
  unfold keys. induction d as [|[t v] d IH]; [constructor|].
  rewrite fmap_cons. intros [Hn Hnd]%NoDup_cons.
  rewrite filter_cons. case_decide; [|by apply IH].
  rewrite fmap_cons. apply NoDup_cons. split; [|by apply IH].
  intros [[t' v'] [Heq Hin]]%list_elem_of_fmap. simpl in Heq. subst t'.
  apply list_elem_of_filter in Hin as [_ Hin]. apply Hn.
  apply list_elem_of_fmap. by exists (t, v').
Qed.

Lemma full_domain_NoDup {V : Type} (d : dict V) :
  full_domain d → NoDup (keys d).
Proof. intros Hd. rewrite Hd. apply domain_NoDup. Qed.

Lemma full_domain_keys {V : Type} (d : dict V) (t : pattern) :
  full_domain d → t ∈ keys d.
Proof. intros Hd. rewrite Hd. apply domain_complete. Qed.

Lemma full_domain_set {V : Type} (d : dict V) :
  full_domain d → list_to_set (keys d) = domain_set.
Proof.
  intros Hd. apply set_eq. intros t. rewrite elem_of_list_to_set.
  split; intros _; [apply elem_of_domain_set | by apply full_domain_keys].
Qed.

Section TriageClasses.
Variable fl : Q → Q.
Variables freqs_m freqs_u : dict Q.

Abbreviation tr := (triage_of fl freqs_m triage_init freqs_u).

Lemma triage_lengths : length (tuples_to_rank tr) = length (ratios tr).
Proof. simpl. unfold keys. by rewrite !length_fmap. Qed.

Lemma elem_of_triage_possible (t : pattern) :
  t ∈ possible_tuples tr ↔
  ∃ u, (t, u) ∈ freqs_u ∧ is_possible freqs_m (t, u) = true.
Proof.
  simpl. rewrite union_empty_l_L, elem_of_list_to_set, list_elem_of_fmap.
  split.
  - intros [[t' u] [-> [? ?]%list_elem_of_filter]]. by exists u.
  - intros [u [? ?]]. exists (t, u). split; [done|].
    by apply list_elem_of_filter.
Qed.

Lemma elem_of_triage_front (t : pattern) :
  t ∈ front tr ↔ ∃ u, (t, u) ∈ freqs_u ∧ is_front freqs_m (t, u) = true.
Proof.
  simpl. rewrite list_elem_of_fmap. split.
  - intros [[t' u] [-> [? ?]%list_elem_of_filter]]. by exists u.
  - intros [u [? ?]]. exists (t, u). split; [done|].
    by apply list_elem_of_filter.
Qed.

Lemma elem_of_triage_ranked (t : pattern) :
  t ∈ tuples_to_rank tr ↔ ∃ u, (t, u) ∈ freqs_u ∧ is_ranked (t, u) = true.
Proof.
  simpl. rewrite list_elem_of_fmap. split.
  - intros [[t' u] [-> [? ?]%list_elem_of_filter]]. by exists u.
  - intros [u [? ?]]. exists (t, u). split; [done|].
    by apply list_elem_of_filter.
Qed.

Lemma triage_cases (item : pattern * Q) :
  is_possible freqs_m item = true ∨ is_front freqs_m item = true
  ∨ is_ranked item = true.
Proof.
  unfold is_possible, is_front, is_ranked.
  destruct (Qeq_bool item.2 0), (Qeq_bool (freq_of freqs_m item.1) 0); auto.
Qed.

Lemma triage_cover :
  possible_tuples tr ∪ list_to_set (front tr ++ tuples_to_rank tr)
  = list_to_set (keys freqs_u).
Proof.
  apply set_eq. intros t.
  rewrite elem_of_union, !elem_of_list_to_set, elem_of_app.
  rewrite elem_of_triage_possible, elem_of_triage_front,
    elem_of_triage_ranked.
  unfold keys. rewrite list_elem_of_fmap. split.
  - intros [[u [? _]]|[[u [? _]]|[u [? _]]]]; by exists (t, u).
  - intros [[t' u] [-> Hin]]. simpl.
    destruct (triage_cases (t', u)) as [?|[?|?]]; eauto 6.
Qed.

Lemma triage_NoDup :
  NoDup (keys freqs_u) → NoDup (front tr ++ tuples_to_rank tr).
Proof.
  intros Hnd. apply NoDup_app. split; [|split].
  - simpl. by apply (NoDup_keys_filter _ freqs_u).
  - intros t [u [Hu Hf]]%elem_of_triage_front
      [u' [Hu' Hr]]%elem_of_triage_ranked.
    rewrite <- (freq_of_item _ _ _ Hnd Hu) in Hf.
    rewrite <- (freq_of_item _ _ _ Hnd Hu') in Hr.
    unfold is_front, is_ranked in *. simpl in *.
    destruct (Qeq_bool (freq_of freqs_u t) 0); done.
  - simpl. by apply (NoDup_keys_filter _ freqs_u).
Qed.

Lemma triage_disjoint :
  NoDup (keys freqs_u) →
  possible_tuples tr ## list_to_set (front tr ++ tuples_to_rank tr).
Proof.
  intros Hnd. apply elem_of_disjoint. intros t.
  rewrite elem_of_list_to_set, elem_of_app.
  intros [u [Hu Hp]]%elem_of_triage_possible Hin.
  rewrite <- (freq_of_item _ _ _ Hnd Hu) in Hp.
  destruct Hin as [[u' [Hu' Hf]]%elem_of_triage_front
                  |[u' [Hu' Hr]]%elem_of_triage_ranked].
  - rewrite <- (freq_of_item _ _ _ Hnd Hu') in Hf.
    unfold is_possible, is_front in *. simpl in *.
    destruct (Qeq_bool (freq_of freqs_u t) 0),
      (Qeq_bool (freq_of freqs_m t) 0); done.
  - rewrite <- (freq_of_item _ _ _ Hnd Hu') in Hr.
    unfold is_possible, is_ranked in *. simpl in *.
    destruct (Qeq_bool (freq_of freqs_u t) 0); done.
Qed.

Lemma triage_keys (t : pattern) :
  t ∈ front tr ++ tuples_to_rank tr → t ∈ keys freqs_u.
Proof.
  intros Hin. rewrite <- (elem_of_list_to_set (C := gset pattern)).
  rewrite <- triage_cover. apply elem_of_union_r.
  by apply elem_of_list_to_set.
Qed.
End TriageClasses.

(** ** [create_sets] *)

Lemma list_to_set_reverse (l : list pattern) :
  list_to_set (reverse l) = (list_to_set l : gset pattern).
Proof.
  apply set_eq. intros t. by rewrite !elem_of_list_to_set, elem_of_reverse.
Qed.

Section CreateSetsFacts.
Variable argsort : list Q → list nat.
Variable fl : Q → Q.
Variables freqs_m freqs_u : dict Q.
Variables mu lmbda : Q.

Abbreviation tr := (triage_of fl freqs_m triage_init freqs_u).

Hypothesis argsort_ok : argsort_spec argsort.
Hypothesis keys_m : ∀ t, t ∈ keys freqs_u → t ∈ keys freqs_m.

Lemma create_sets_body_spec :
  ∃ sorted pre1 post1 pre2 post2,
    sorted ≡ₚ tuples_to_rank tr
    ∧ front tr ++ sorted = pre1 ++ post1
    ∧ reverse (front tr ++ sorted) = pre2 ++ post2
    ∧ (pre1 = [] ∨ (running fl freqs_u 0 pre1 <= mu)%Q)
    ∧ (pre2 = [] ∨ (running fl freqs_m 0 pre2 <= lmbda)%Q)
    ∧ rank_tuples argsort (front tr) (tuples_to_rank tr) (ratios tr)
      = Ok (front tr ++ sorted)
    ∧ cum_loop fl mu freqs_u (front tr ++ sorted) 0 ∅
      = Ok (list_to_set pre1)
    ∧ cum_loop fl lmbda freqs_m (reverse (front tr ++ sorted)) 0 ∅
      = Ok (list_to_set pre2)
    ∧ create_sets_body argsort fl freqs_m freqs_u mu lmbda
      = Ok (locals_of tr (front tr ++ sorted)
              (list_to_set pre1) (list_to_set pre2)).
Proof.
  unfold create_sets_body.
  rewrite (triage_loop_spec fl freqs_m freqs_u triage_init)
    by (apply Forall_forall; exact keys_m).
  cbn [bind].
  destruct (rank_tuples_Permutation argsort (front tr) (tuples_to_rank tr)
    (ratios tr) argsort_ok (triage_lengths fl freqs_m freqs_u))
    as (sorted & Hrank & Hperm).
  rewrite Hrank. cbn [bind].
  assert (Forall (λ t, t ∈ keys freqs_u) (front tr ++ sorted)) as Hku.
  { apply Forall_forall. intros t Ht.
    apply (triage_keys fl freqs_m freqs_u). rewrite <- Hperm. done. }
  assert (Forall (λ t, t ∈ keys freqs_m) (reverse (front tr ++ sorted)))
    as Hkm.
  { apply Forall_forall. intros t Ht. rewrite elem_of_reverse in Ht.
    rewrite Forall_forall in Hku. auto. }
  destruct (cum_loop_spec fl mu freqs_u _ 0%Q ∅ Hku)
    as (pre1 & post1 & Hsplit1 & Hrun1 & Hle1).
  destruct (cum_loop_spec fl lmbda freqs_m _ 0%Q ∅ Hkm)
    as (pre2 & post2 & Hsplit2 & Hrun2 & Hle2).
  rewrite union_empty_l_L in Hrun1, Hrun2.
  exists sorted, pre1, post1, pre2, post2.
  repeat (split; [done|]).
  unfold sort_by_cum_pr. rewrite Hrun1. cbn [bind]. by rewrite Hrun2.
Qed.

Lemma create_sets_body_partition :
  NoDup (keys freqs_u) →
  ∃ e, create_sets_body argsort fl freqs_m freqs_u mu lmbda = Ok e
    ∧ cs_match_tuples e ## cs_unmatch_tuples e
    ∧ cs_match_tuples e ## cs_possible_tuples e
    ∧ cs_unmatch_tuples e ## cs_possible_tuples e
    ∧ cs_possible_tuples e ∪ cs_match_tuples e ∪ cs_unmatch_tuples e
      = list_to_set (keys freqs_u).
Proof.
  intros Hnd.
  destruct create_sets_body_spec
    as (sorted & pre1 & post1 & pre2 & post2 & Hperm & Hs1 & Hs2 & _ & _ & _
        & _ & _ & Hrun).
  eexists. split; [exact Hrun|]. unfold locals_of.
  cbn [cs_match_tuples cs_unmatch_tuples cs_possible_tuples].
  pose proof (triage_cover fl freqs_m freqs_u) as Hcover.
  pose proof (triage_disjoint fl freqs_m freqs_u Hnd) as Hdisj.
  rewrite <- Hcover. clear Hcover Hrun.
  assert (list_to_set (front tr ++ tuples_to_rank tr)
          = (list_to_set (front tr ++ sorted) : gset pattern)) as HR.
  { apply set_eq. intros t. rewrite !elem_of_list_to_set, !elem_of_app.
    by rewrite Hperm. }
  rewrite HR in *.
  pose proof (list_to_set_reverse (front tr ++ sorted)) as Hrev.
  rewrite Hrev.
  assert ((list_to_set pre1 : gset pattern)
          ⊆ list_to_set (front tr ++ sorted)) as Hsub1.
  { rewrite Hs1, list_to_set_app_L. set_solver. }
  assert ((list_to_set pre2 : gset pattern)
          ⊆ list_to_set (front tr ++ sorted)) as Hsub2.
  { rewrite <- Hrev, Hs2, list_to_set_app_L. set_solver. }
  set (R := list_to_set _) in *. set (M := list_to_set pre1) in *.
  set (U := list_to_set pre2) in *. set (P := possible_tuples tr) in *.
  clearbody R M U P.
  repeat split; [set_solver..|].
  apply set_eq. intros t. destruct (decide (t ∈ M)), (decide (t ∈ U));
    set_solver.
Qed.

Lemma create_sets_of_body :
  ∀ e, create_sets_body argsort fl freqs_m freqs_u mu lmbda = Ok e →
  create_sets argsort fl freqs_m freqs_u mu lmbda
  = Ok (cs_possible_tuples e, cs_match_tuples e, cs_unmatch_tuples e).
Proof. intros e He. unfold create_sets. by rewrite He. Qed.

Lemma create_sets_on_copy_of_body :
  ∀ e, create_sets_body argsort fl freqs_m freqs_u mu lmbda = Ok e →
  create_sets_on_copy argsort fl freqs_m freqs_u mu lmbda
  = Ok (cs_possible_tuples e, cs_match_tuples e, cs_unmatch_tuples e)
  ∧ cs_ranked e = reverse (cs_ranked_built e).
Proof.
  intros e.
  destruct create_sets_body_spec
    as (sorted & pre1 & post1 & pre2 & post2 & _ & _ & _ & _ & _ & Hrank
        & Hrun1 & Hrun2 & ->).
  intros [= <-]. split; [|done].
  unfold create_sets_on_copy.
  rewrite (triage_loop_spec fl freqs_m freqs_u triage_init)
    by (apply Forall_forall; exact keys_m).
  cbn [bind]. rewrite Hrank. cbn [bind].
  unfold sort_by_cum_pr. rewrite Hrun1. cbn [bind]. rewrite Hrun2.
  cbn [bind fst]. unfold locals_of.
  cbn [cs_match_tuples cs_unmatch_tuples cs_possible_tuples].
  by rewrite list_to_set_reverse.
Qed.

Lemma ranked_NoDup (sorted : list pattern) :
  NoDup (keys freqs_u) → sorted ≡ₚ tuples_to_rank tr →
  NoDup (front tr ++ sorted).
Proof.
  intros Hnd Hperm. rewrite Hperm. by apply triage_NoDup.
Qed.
End CreateSetsFacts.

(** ** The claims on [create_sets] *)

Lemma point_table_full_domain (p : pattern) : full_domain (point_table p).
Proof.
  unfold full_domain, keys, point_table.
  rewrite <- list_fmap_compose. by rewrite list_fmap_id.
Qed.

Lemma point_table_nonneg (p : pattern) : nonneg_table (point_table p).
Proof.
  intros t v [t' [[= -> ->] _]]%list_elem_of_fmap. by case_decide.
Qed.

Lemma exact_keeps_sign (fl : Q → Q) : fl_exact fl → fl_keeps_sign fl.
Proof. intros Hfl q. split; intros Hq; by rewrite (Hfl q). Qed.

Lemma id_exact : fl_exact id.
Proof. by intros q. Qed.

Section CreateSetsClaims.
Variable argsort : list Q → list nat.
Variable fl : Q → Q.
Variables freqs_m freqs_u : dict Q.
Variables mu lmbda : Q.

Lemma create_sets_returns_partition :
  argsort_spec argsort → full_domain freqs_m → full_domain freqs_u →
  ∃ possible_tuples match_tuples unmatch_tuples : gset pattern,
    create_sets argsort fl freqs_m freqs_u mu lmbda
      = Ok (possible_tuples, match_tuples, unmatch_tuples)
    ∧ match_tuples ## unmatch_tuples
    ∧ match_tuples ## possible_tuples
    ∧ unmatch_tuples ## possible_tuples
    ∧ possible_tuples ∪ match_tuples ∪ unmatch_tuples = domain_set.
Proof.
  intros Hsort Hm Hu.
  destruct (create_sets_body_partition argsort fl freqs_m freqs_u mu lmbda
    Hsort) as (e & He & H1 & H2 & H3 & H4).
  { intros t _. by apply full_domain_keys. }
  { by apply full_domain_NoDup. }
  exists (cs_possible_tuples e), (cs_match_tuples e), (cs_unmatch_tuples e).
  split; [by apply create_sets_of_body|].
  rewrite (full_domain_set _ Hu) in H4. done.
Qed.

(** C1.  On tables over the full domain, for every [mu] and [lmbda],
    [create_sets] returns three sets that are pairwise disjoint and whose
    union is the full domain of 27 tuples. *)
Theorem create_sets_partition :
  argsort_spec argsort → full_domain freqs_m → full_domain freqs_u →
  ∃ possible_tuples match_tuples unmatch_tuples : gset pattern,
    create_sets argsort fl freqs_m freqs_u mu lmbda
      = Ok (possible_tuples, match_tuples, unmatch_tuples)
    ∧ match_tuples ## unmatch_tuples
    ∧ match_tuples ## possible_tuples
    ∧ unmatch_tuples ## possible_tuples
    ∧ possible_tuples ∪ match_tuples ∪ unmatch_tuples = domain_set.
Proof. apply create_sets_returns_partition. Qed.

(** C6, amended.  [create_sets] does not check the range of [mu] or
    [lmbda]: with a bound outside [0, 1] it raises nothing and still returns
    a partition of the domain. *)
Theorem create_sets_no_range_check :
  argsort_spec argsort → full_domain freqs_m → full_domain freqs_u →
  ¬ (0 <= mu <= 1)%Q ∨ ¬ (0 <= lmbda <= 1)%Q →
  ∃ possible_tuples match_tuples unmatch_tuples : gset pattern,
    create_sets argsort fl freqs_m freqs_u mu lmbda
      = Ok (possible_tuples, match_tuples, unmatch_tuples)
    ∧ match_tuples ## unmatch_tuples
    ∧ match_tuples ## possible_tuples
    ∧ unmatch_tuples ## possible_tuples
    ∧ possible_tuples ∪ match_tuples ∪ unmatch_tuples = domain_set.
Proof. intros Hsort Hm Hu _. by apply create_sets_returns_partition. Qed.

End CreateSetsClaims.

Lemma freq_of_elem (freqs : dict Q) (t : pattern) :
  t ∈ keys freqs → (t, freq_of freqs t) ∈ freqs.
Proof.
  intros [v Hv]%dict_lookup_is_Some. unfold freq_of. rewrite Hv. simpl.
  by apply dict_lookup_Some_elem.
Qed.

Lemma Qeq_bool_false (a b : Q) : Qeq_bool a b = false ↔ ¬ (a == b)%Q.
Proof.
  rewrite <- Qeq_bool_iff. destruct (Qeq_bool a b); split; try done.
Qed.

Section MuZero.
Variable argsort : list Q → list nat.
Variable fl : Q → Q.
Variables freqs_m freqs_u : dict Q.
Variable lmbda : Q.

Abbreviation tr := (triage_of fl freqs_m triage_init freqs_u).

Lemma front_iff (t : pattern) :
  full_domain freqs_m → full_domain freqs_u → nonneg_table freqs_m →
  t ∈ front tr ↔ (freq_of freqs_u t == 0)%Q ∧ (0 < freq_of freqs_m t)%Q.
Proof.
  intros Hm Hu Hnn. rewrite elem_of_triage_front.
  pose proof (full_domain_NoDup _ Hu) as Hnd.
  assert (0 <= freq_of freqs_m t)%Q as Hge.
  { apply (Hnn t), freq_of_elem. by apply full_domain_keys. }
  unfold is_front. simpl. split.
  - intros (u & Hin & [Hz Hn%negb_true_iff]%andb_true_iff).
    rewrite (freq_of_item _ _ _ Hnd Hin).
    apply Qeq_bool_iff in Hz. apply Qeq_bool_false in Hn.
    split; [done|]. apply Qle_lt_or_eq in Hge as [?|Heq]; [done|].
    destruct Hn. by symmetry.
  - intros [Hz Hpos]. exists (freq_of freqs_u t). split.
    + apply freq_of_elem. by apply full_domain_keys.
    + apply andb_true_iff. split; [by apply Qeq_bool_iff|].
      apply negb_true_iff, Qeq_bool_false. intros Heq. rewrite Heq in Hpos.
      by apply Qlt_irrefl in Hpos.
Qed.

Lemma ranked_positive (t : pattern) :
  full_domain freqs_u → nonneg_table freqs_u →
  t ∈ tuples_to_rank tr → t ∈ keys freqs_u ∧ (0 < freq_of freqs_u t)%Q.
Proof.
  intros Hu Hnn (u & Hin & Hr)%elem_of_triage_ranked.
  pose proof (full_domain_NoDup _ Hu) as Hnd.
  split; [by apply full_domain_keys|].
  rewrite (freq_of_item _ _ _ Hnd Hin).
  unfold is_ranked in Hr. simpl in Hr.
  apply negb_true_iff, Qeq_bool_false in Hr.
  pose proof (Hnn t u Hin) as Hge.
  apply Qle_lt_or_eq in Hge as [?|Heq]; [done|]. destruct Hr. by symmetry.
Qed.

(** C8.  With [mu = 0], on tables without negative entries,
    [match_tuples] is the set of the front list: a tuple belongs to it
    exactly when its u-frequency is 0 and its m-frequency is positive. *)
Theorem create_sets_mu_zero :
  argsort_spec argsort → fl_keeps_sign fl →
  full_domain freqs_m → full_domain freqs_u →
  nonneg_table freqs_m → nonneg_table freqs_u →
  ∃ e : create_sets_locals,
    create_sets_body argsort fl freqs_m freqs_u 0 lmbda = Ok e
    ∧ create_sets argsort fl freqs_m freqs_u 0 lmbda
      = Ok (cs_possible_tuples e, cs_match_tuples e, cs_unmatch_tuples e)
    ∧ cs_match_tuples e = list_to_set (front (cs_triage e))
    ∧ ∀ t, t ∈ cs_match_tuples e ↔
           (freq_of freqs_u t == 0)%Q ∧ (0 < freq_of freqs_m t)%Q.
Proof.
  intros Hsort Hfl Hm Hu Hnm Hnu.
  destruct (create_sets_body_spec argsort fl freqs_m freqs_u 0 lmbda Hsort)
    as (sorted & pre1 & post1 & pre2 & post2 & Hperm & _ & _ & _ & _ & _
        & Hrun1 & _ & Hrun).
  { intros t _. by apply full_domain_keys. }
  rewrite (cum_loop_zero fl freqs_u (front tr) sorted Hfl) in Hrun1.
  - rewrite union_empty_l_L in Hrun1. injection Hrun1 as Hrun1.
    eexists. split; [exact Hrun|].
    split; [by apply create_sets_of_body|].
    unfold locals_of. cbn [cs_match_tuples cs_triage].
    split; [done|]. intros t. rewrite <- Hrun1, elem_of_list_to_set.
    by apply front_iff.
  - done.
  - apply Forall_forall. intros t Ht.
    split; [by apply full_domain_keys|]. by apply front_iff in Ht as [? _].
  - apply Forall_forall. intros t Ht. rewrite Hperm in Ht.
    by apply ranked_positive.
Qed.
End MuZero.

Section Mutation.
Variable argsort : list Q → list nat.
Variable fl : Q → Q.

(** C10.  [sort_by_cum_pr] with [left_tail = False] leaves the caller's
    list reversed, with [left_tail = True] it leaves it unchanged; and
    [create_sets] returns what it would return had the reversal been done
    on a copy, the list it holds at the end being the reverse of the
    ranking. *)
Theorem sort_by_cum_pr_reverses_in_place
    (level : Q) (ranked : list pattern) (freqs freqs_m freqs_u : dict Q)
    (mu lmbda : Q) :
  Forall (λ t, t ∈ keys freqs) ranked →
  argsort_spec argsort → full_domain freqs_m → full_domain freqs_u →
  (∃ tuples_set,
     sort_by_cum_pr fl level ranked freqs false
     = Ok (tuples_set, reverse ranked))
  ∧ (∃ tuples_set,
       sort_by_cum_pr fl level ranked freqs true = Ok (tuples_set, ranked))
  ∧ (∃ e : create_sets_locals,
       create_sets_body argsort fl freqs_m freqs_u mu lmbda = Ok e
       ∧ cs_ranked e = reverse (cs_ranked_built e)
       ∧ create_sets argsort fl freqs_m freqs_u mu lmbda
         = Ok (cs_possible_tuples e, cs_match_tuples e, cs_unmatch_tuples e)
       ∧ create_sets_on_copy argsort fl freqs_m freqs_u mu lmbda
         = Ok (cs_possible_tuples e, cs_match_tuples e, cs_unmatch_tuples e)).
Proof.
  intros Hk Hsort Hm Hu. split; [|split].
  - assert (Forall (λ t, t ∈ keys freqs) (reverse ranked)) as Hk'.
    { apply Forall_forall. intros t Ht. rewrite elem_of_reverse in Ht.
      rewrite Forall_forall in Hk. auto. }
    destruct (cum_loop_spec fl level freqs _ 0%Q ∅ Hk')
      as (pre & post & _ & Hrun & _).
    eexists. unfold sort_by_cum_pr. by rewrite Hrun.
  - destruct (cum_loop_spec fl level freqs _ 0%Q ∅ Hk)
      as (pre & post & _ & Hrun & _).
    eexists. unfold sort_by_cum_pr. by rewrite Hrun.
  - assert (∀ t, t ∈ keys freqs_u → t ∈ keys freqs_m) as Hkm.
    { intros t _. by apply full_domain_keys. }
    destruct (create_sets_body_spec argsort fl freqs_m freqs_u mu lmbda
      Hsort Hkm) as (? & ? & ? & ? & ? & _ & _ & _ & _ & _ & _ & _ & _ & Hrun).
    eexists. split; [exact Hrun|].
    destruct (create_sets_on_copy_of_body argsort fl freqs_m freqs_u mu lmbda
      Hsort Hkm _ Hrun) as [Hcopy Hrev].
    split; [exact Hrev|]. split; [|exact Hcopy].
    by apply create_sets_of_body.
Qed.
End Mutation.

(** ** The claims at the scenario of the specification

    m-table: 1 at (high, high, high); u-table: 1 at (low, low, low);
    both bounds 0.1. *)

Example create_sets_scenario :
  create_sets np_argsort id (point_table t_hhh) (point_table t_lll)
    (1 # 10) (1 # 10)
  = Ok (domain_set ∖ {[t_hhh; t_lll]}, {[t_hhh]}, {[t_lll]}).
Proof. by vm_compute. Qed.

(** With [mu = 0] and no tuple of u-frequency 0 and positive m-frequency,
    [match_tuples] is empty. *)
Example create_sets_mu_zero_empty :
  create_sets np_argsort id (point_table t_lll) (point_table t_lll)
    0 (1 # 10)
  = Ok (domain_set, ∅, ∅).
Proof. by vm_compute. Qed.

Lemma create_sets_partition_witness :
  argsort_spec np_argsort
  ∧ full_domain (point_table t_hhh) ∧ full_domain (point_table t_lll)
  ∧ ∃ possible_tuples match_tuples unmatch_tuples : gset pattern,
      create_sets np_argsort id (point_table t_hhh) (point_table t_lll)
        (1 # 10) (1 # 10)
      = Ok (possible_tuples, match_tuples, unmatch_tuples)
      ∧ match_tuples ## unmatch_tuples
      ∧ match_tuples ## possible_tuples
      ∧ unmatch_tuples ## possible_tuples
      ∧ possible_tuples ∪ match_tuples ∪ unmatch_tuples = domain_set.
Proof.
  split; [exact np_argsort_spec|].
  split; [exact (point_table_full_domain t_hhh)|].
  split; [exact (point_table_full_domain t_lll)|].
  exact (create_sets_partition np_argsort id
    (point_table t_hhh) (point_table t_lll) (1 # 10) (1 # 10)
    np_argsort_spec (point_table_full_domain t_hhh)
    (point_table_full_domain t_lll)).
Defined.

Lemma create_sets_no_range_check_witness :
  argsort_spec np_argsort
  ∧ full_domain (point_table t_hhh) ∧ full_domain (point_table t_lll)
  ∧ (¬ (0 <= 2 <= 1)%Q ∨ ¬ (0 <= -1 <= 1)%Q)
  ∧ ∃ possible_tuples match_tuples unmatch_tuples : gset pattern,
      create_sets np_argsort id (point_table t_hhh) (point_table t_lll)
        2 (-1)
      = Ok (possible_tuples, match_tuples, unmatch_tuples)
      ∧ match_tuples ## unmatch_tuples
      ∧ match_tuples ## possible_tuples
      ∧ unmatch_tuples ## possible_tuples
      ∧ possible_tuples ∪ match_tuples ∪ unmatch_tuples = domain_set.
Proof.
  assert (¬ (0 <= 2 <= 1)%Q) as Hout by (intros [_ H]; by vm_compute in H).
  split; [exact np_argsort_spec|].
  split; [exact (point_table_full_domain t_hhh)|].
  split; [exact (point_table_full_domain t_lll)|].
  split; [by left|].
  exact (create_sets_no_range_check np_argsort id
    (point_table t_hhh) (point_table t_lll) 2 (-1)
    np_argsort_spec (point_table_full_domain t_hhh)
    (point_table_full_domain t_lll) (or_introl Hout)).
Defined.

(** C6, as claimed, fails: with [mu = 2] and [lmbda = -1], both outside
    [0, 1], [create_sets] raises nothing and returns three sets. *)
Lemma create_sets_accepts_out_of_range :
  ¬ (0 <= 2 <= 1)%Q ∧ ¬ (0 <= -1 <= 1)%Q
  ∧ create_sets np_argsort id (point_table t_hhh) (point_table t_lll) 2 (-1)
    = Ok (domain_set ∖ {[t_hhh; t_lll]}, {[t_hhh; t_lll]}, ∅).
Proof.
  split; [intros [_ H]; by vm_compute in H|].
  split; [intros [H _]; by vm_compute in H|].
  by vm_compute.
Qed.

Lemma create_sets_mu_zero_witness :
  argsort_spec np_argsort ∧ fl_keeps_sign id
  ∧ full_domain (point_table t_hhh) ∧ full_domain (point_table t_lll)
  ∧ nonneg_table (point_table t_hhh) ∧ nonneg_table (point_table t_lll)
  ∧ ∃ e : create_sets_locals,
      create_sets_body np_argsort id (point_table t_hhh) (point_table t_lll)
        0 (1 # 10) = Ok e
      ∧ create_sets np_argsort id (point_table t_hhh) (point_table t_lll)
          0 (1 # 10)
        = Ok (cs_possible_tuples e, cs_match_tuples e, cs_unmatch_tuples e)
      ∧ cs_match_tuples e = list_to_set (front (cs_triage e))
      ∧ ∀ t, t ∈ cs_match_tuples e ↔
             (freq_of (point_table t_lll) t == 0)%Q
             ∧ (0 < freq_of (point_table t_hhh) t)%Q.
Proof.
  split; [exact np_argsort_spec|].
  split; [exact (exact_keeps_sign id id_exact)|].
  split; [exact (point_table_full_domain t_hhh)|].
  split; [exact (point_table_full_domain t_lll)|].
  split; [exact (point_table_nonneg t_hhh)|].
  split; [exact (point_table_nonneg t_lll)|].
  exact (create_sets_mu_zero np_argsort id
    (point_table t_hhh) (point_table t_lll) (1 # 10)
    np_argsort_spec (exact_keeps_sign id id_exact)
    (point_table_full_domain t_hhh) (point_table_full_domain t_lll)
    (point_table_nonneg t_hhh) (point_table_nonneg t_lll)).
Defined.

Lemma sort_by_cum_pr_reverses_in_place_witness :
  Forall (λ t, t ∈ keys (point_table t_hhh)) [t_hhh; t_lll]
  ∧ argsort_spec np_argsort
  ∧ full_domain (point_table t_hhh) ∧ full_domain (point_table t_lll)
  ∧ (∃ tuples_set,
       sort_by_cum_pr id (1 # 10) [t_hhh; t_lll] (point_table t_hhh) false
       = Ok (tuples_set, reverse [t_hhh; t_lll]))
  ∧ (∃ tuples_set,
       sort_by_cum_pr id (1 # 10) [t_hhh; t_lll] (point_table t_hhh) true
       = Ok (tuples_set, [t_hhh; t_lll]))
  ∧ (∃ e : create_sets_locals,
       create_sets_body np_argsort id (point_table t_hhh)
         (point_table t_lll) (1 # 10) (1 # 10) = Ok e
       ∧ cs_ranked e = reverse (cs_ranked_built e)
       ∧ create_sets np_argsort id (point_table t_hhh) (point_table t_lll)
           (1 # 10) (1 # 10)
         = Ok (cs_possible_tuples e, cs_match_tuples e, cs_unmatch_tuples e)
       ∧ create_sets_on_copy np_argsort id (point_table t_hhh)
           (point_table t_lll) (1 # 10) (1 # 10)
         = Ok (cs_possible_tuples e, cs_match_tuples e,
               cs_unmatch_tuples e)).
Proof.
  assert (Forall (λ t, t ∈ keys (point_table t_hhh)) [t_hhh; t_lll]) as Hk.
  { repeat constructor; apply full_domain_keys, point_table_full_domain. }
  split; [exact Hk|].
  split; [exact np_argsort_spec|].
  split; [exact (point_table_full_domain t_hhh)|].
  split; [exact (point_table_full_domain t_lll)|].
  exact (sort_by_cum_pr_reverses_in_place np_argsort id (1 # 10)
    [t_hhh; t_lll] (point_table t_hhh) (point_table t_hhh)
    (point_table t_lll) (1 # 10) (1 # 10) Hk np_argsort_spec
    (point_table_full_domain t_hhh) (point_table_full_domain t_lll)).
Defined.

(** ** Pairwise classification *)

Lemma loc_NoDup (df : dataframe) (i : Z) (data : restaurant) :
  NoDup df.*1 → (i, data) ∈ df → loc df i = Some data.
Proof.
  induction df as [|[j d] df IH]; simpl.
  - intros _ H. by apply elem_of_nil in H.
  - rewrite NoDup_cons, elem_of_cons. intros [Hj Hnd] [Heq|Hin].
    + simplify_eq. by rewrite decide_True.
    + rewrite decide_False; [auto|].
      intros ->. apply Hj. apply list_elem_of_fmap. by exists (i, data).
Qed.

Lemma filter_fmap_comm {A B : Type} (f : A → B) (P : B → Prop)
    `{∀ y, Decision (P y)} (l : list A) :
  filter P (f <$> l) = f <$> filter (λ x, P (f x)) l.
Proof.
  induction l as [|x l IH]; [done|].
  rewrite fmap_cons, !filter_cons. case_decide; by rewrite IH.
Qed.

Lemma filter_ext_elem {A : Type} (P Q : A → Prop)
    `{∀ x, Decision (P x)} `{∀ x, Decision (Q x)} (l : list A) :
  (∀ x, x ∈ l → P x ↔ Q x) → filter P l = filter Q l.
Proof.
  induction l as [|x l IH]; intros Hext; [done|].
  rewrite !filter_cons.
  pose proof (Hext x ltac:(left)) as Hx.
  rewrite IH by (intros y Hy; apply Hext; by right).
  repeat case_decide; tauto.
Qed.

Lemma zip_fmap_same {A B C : Type} (f : A → B) (g : A → C) (l : list A) :
  zip (f <$> l) (g <$> l) = (λ x, (f x, g x)) <$> l.
Proof.
  induction l as [|x l IH]; [done|]. rewrite !fmap_cons. simpl.
  f_equal. exact IH.
Qed.

Section ClassifierFacts.
Variable jaro_winkler : string → string → Q.
Variable get_jw_category : Q → category.
Variables possible_tuples match_tuples unmatch_tuples : gset pattern.

Abbreviation tuple_of := (pair_tuple jaro_winkler get_jw_category).
Abbreviation classify :=
  (classify_pair jaro_winkler get_jw_category
     possible_tuples match_tuples unmatch_tuples).
Abbreviation step :=
  (classify_step jaro_winkler get_jw_category
     possible_tuples match_tuples unmatch_tuples).
Abbreviation label_of :=
  (pair_label jaro_winkler get_jw_category
     possible_tuples match_tuples unmatch_tuples).
Abbreviation loop :=
  (find_matches_loop jaro_winkler get_jw_category
     possible_tuples match_tuples unmatch_tuples).

Lemma find_matches_loop_candidates (block : bool) (zagat fodors : dataframe) :
  loop block zagat fodors
  = foldl step lists_init (candidates block zagat fodors).
Proof.
  unfold find_matches_loop, candidates.
  generalize lists_init. induction zagat as [|row_z zagat IH]; intros out.
  - done.
  - cbn [foldl]. rewrite IH. rewrite bind_cons, foldl_app. f_equal.
    generalize (fodors_to_iterate block fodors row_z). intros l.
    revert out. induction l as [|row_f l IHl]; intros out; [done|].
    cbn [foldl fmap list_fmap]. by rewrite IHl.
Qed.

Lemma classify_pair_lists (c : label) (out : lists)
    (row_z row_f : Z * restaurant) :
  zs_of c (classify out row_z row_f)
  = zs_of c out ++
    (if decide (label_of (row_z, row_f) = Some c) then [row_z.1] else [])
  ∧ fs_of c (classify out row_z row_f)
  = fs_of c out ++
    (if decide (label_of (row_z, row_f) = Some c) then [row_f.1] else []).
Proof.
  destruct row_z as [i_z data_z], row_f as [i_f data_f].
  unfold classify_pair, pair_label. cbn [fst snd].
  destruct c; repeat case_decide; simplify_eq; cbn; by rewrite ?app_nil_r.
Qed.

Lemma classify_fold_lists (c : label)
    (cands : list ((Z * restaurant) * (Z * restaurant))) : ∀ out : lists,
  zs_of c (foldl step out cands)
  = zs_of c out ++ ((λ rp, rp.1.1) <$> filter (λ rp, label_of rp = Some c) cands)
  ∧ fs_of c (foldl step out cands)
  = fs_of c out ++ ((λ rp, rp.2.1) <$> filter (λ rp, label_of rp = Some c) cands).
Proof.
  induction cands as [|[row_z row_f] cands IH]; intros out.
  - by rewrite !app_nil_r.
  - cbn [foldl]. destruct (IH (step out (row_z, row_f))) as [-> ->].
    unfold classify_step. cbn [fst snd].
    destruct (classify_pair_lists c out row_z row_f) as [-> ->].
    rewrite filter_cons. case_decide; by rewrite <- !app_assoc.
Qed.

Lemma index_pairs_loop (c : label) (block : bool) (zagat fodors : dataframe) :
  index_pairs c (loop block zagat fodors)
  = (λ rp, (rp.1.1, rp.2.1))
      <$> filter (λ rp, label_of rp = Some c) (candidates block zagat fodors).
Proof.
  unfold index_pairs. rewrite find_matches_loop_candidates.
  destruct (classify_fold_lists c (candidates block zagat fodors) lists_init)
    as [-> ->].
  assert (zs_of c lists_init = []) as -> by (by destruct c).
  assert (fs_of c lists_init = []) as -> by (by destruct c).
  apply zip_fmap_same.
Qed.

Lemma candidates_blocking (zagat fodors : dataframe) :
  candidates true zagat fodors
  = filter (λ rp, row_city rp.2 = row_city rp.1) (candidates false zagat fodors).
Proof.
  unfold candidates. induction zagat as [|row_z zagat IH]; [done|].
  rewrite !bind_cons, filter_app, IH. f_equal.
  unfold fodors_to_iterate. by rewrite filter_fmap_comm.
Qed.

Lemma elem_of_candidates (block : bool) (zagat fodors : dataframe)
    (rp : (Z * restaurant) * (Z * restaurant)) :
  rp ∈ candidates block zagat fodors → rp.1 ∈ zagat ∧ rp.2 ∈ fodors.
Proof.
  unfold candidates. rewrite list_elem_of_bind.
  intros (row_z & [row_f [-> Hf]]%list_elem_of_fmap & Hz). split; [done|].
  simpl. unfold fodors_to_iterate in Hf. destruct block; [|done].
  by apply list_elem_of_filter in Hf as [_ ?].
Qed.

(** C9.  On data frames whose index labels are unique, each of the three
    lists of index pairs that the loop builds with blocking on the city is
    the list it builds without blocking, restricted to the pairs whose rows
    have equal city fields.  Blocking only prunes: the pairs visited under
    blocking are the pairs visited without it whose city fields are equal,
    and with or without blocking a visited pair goes to the list that its
    own comparison tuple selects. *)
Theorem blocking_restricts_classification (zagat fodors : dataframe) :
  NoDup zagat.*1 → NoDup fodors.*1 →
  (∀ c : label,
     index_pairs c
       (find_matches_loop jaro_winkler get_jw_category
          possible_tuples match_tuples unmatch_tuples true zagat fodors)
     = filter (same_city zagat fodors)
         (index_pairs c
            (find_matches_loop jaro_winkler get_jw_category
               possible_tuples match_tuples unmatch_tuples
               false zagat fodors)))
  ∧ candidates true zagat fodors
    = filter (λ rp, row_city rp.2 = row_city rp.1)
        (candidates false zagat fodors)
  ∧ (∀ (block_on_city : bool) (c : label),
       index_pairs c
         (find_matches_loop jaro_winkler get_jw_category
            possible_tuples match_tuples unmatch_tuples
            block_on_city zagat fodors)
       = (λ rp, (rp.1.1, rp.2.1))
           <$> filter
                 (λ rp, pair_label jaro_winkler get_jw_category
                          possible_tuples match_tuples unmatch_tuples rp
                        = Some c)
                 (candidates block_on_city zagat fodors)).
Proof.
  intros Hz Hf.
  split; [|split; [apply candidates_blocking|intros b c; apply index_pairs_loop]].
  intros c.
  rewrite !index_pairs_loop, candidates_blocking.
  rewrite filter_fmap_comm. f_equal.
  rewrite !list_filter_filter.
  apply filter_ext_elem. intros [[i_z data_z] [i_f data_f]] Hin.
  apply elem_of_candidates in Hin as [Hinz Hinf]. cbn [fst snd] in *.
  unfold same_city, row_city. cbn [fst snd].
  rewrite (loc_NoDup _ _ _ Hz Hinz), (loc_NoDup _ _ _ Hf Hinf).
  split.
  - intros [? ?]. split; [|done]. by exists data_z, data_f.
  - intros [(? & ? & [= <-] & [= <-] & ?) ?]. done.
Qed.

Lemma pair_label_on_partition (rp : (Z * restaurant) * (Z * restaurant)) :
  possible_tuples ∪ match_tuples ∪ unmatch_tuples = domain_set →
  is_Some (label_of rp).
Proof.
  intros Hcover. unfold pair_label.
  pose proof (elem_of_domain_set (tuple_of rp.1.2 rp.2.2)) as Hin.
  rewrite <- Hcover in Hin. repeat case_decide; try done.
  exfalso. set_solver.
Qed.
End ClassifierFacts.

(** With the sets that [create_sets] builds from two non-empty samples,
    [find_matches] returns, and every pair of rows its loop visits takes one
    of the three branches. *)
Lemma find_matches_classifies_every_pair
    (argsort : list Q → list nat) (fl : Q → Q)
    (jaro_winkler : string → string → Q) (get_jw_category : Q → category)
    (zagat fodors : dataframe) (matches unmatches : list pair_row)
    (mu lambda_ : Q) (block_on_city : bool) :
  argsort_spec argsort → matches ≠ [] → unmatches ≠ [] →
  ∃ possible_tuples match_tuples unmatch_tuples : gset pattern,
    find_matches argsort fl jaro_winkler get_jw_category
      zagat fodors matches unmatches mu lambda_ block_on_city
    = Ok (find_matches_loop jaro_winkler get_jw_category
            possible_tuples match_tuples unmatch_tuples
            block_on_city zagat fodors)
    ∧ ∀ rp, is_Some (pair_label jaro_winkler get_jw_category
                       possible_tuples match_tuples unmatch_tuples rp).
Proof.
  intros Hsort Hm Hu. unfold find_matches.
  destruct (tuple_probs_Ok jaro_winkler get_jw_category fl matches Hm)
    as (cm & -> & Hkm & _).
  destruct (tuple_probs_Ok jaro_winkler get_jw_category fl unmatches Hu)
    as (cu & -> & Hku & _).
  cbn [bind].
  set (freqs_m := freq_item fl (sum_values cm) <$> cm).
  set (freqs_u := freq_item fl (sum_values cu) <$> cu).
  assert (∀ total counts, keys counts = domain →
          full_domain (freq_item fl total <$> counts)) as Hfull.
  { intros total counts Hk. unfold full_domain, keys in *.
    assert ((freq_item fl total <$> counts).*1 = counts.*1) as ->;
      [|by rewrite Hk].
    rewrite <- list_fmap_compose. by apply list_fmap_ext. }
  destruct (create_sets_returns_partition argsort fl freqs_m freqs_u
    mu lambda_ Hsort (Hfull _ _ Hkm) (Hfull _ _ Hku))
    as (p & m & u & -> & _ & _ & _ & Hcover).
  cbn [bind fst snd]. exists p, m, u. split; [done|].
  intros rp. by apply pair_label_on_partition.
Qed.

Lemma blocking_restricts_classification_witness :
  NoDup zagat_sample.*1 ∧ NoDup fodors_sample.*1
  ∧ (∀ c : label,
       index_pairs c
         (find_matches_loop jw_one cat_high ∅ {[t_hhh]} ∅
            true zagat_sample fodors_sample)
       = filter (same_city zagat_sample fodors_sample)
           (index_pairs c
              (find_matches_loop jw_one cat_high ∅ {[t_hhh]} ∅
                 false zagat_sample fodors_sample)))
  ∧ candidates true zagat_sample fodors_sample
    = filter (λ rp, row_city rp.2 = row_city rp.1)
        (candidates false zagat_sample fodors_sample)
  ∧ (∀ (block_on_city : bool) (c : label),
       index_pairs c
         (find_matches_loop jw_one cat_high ∅ {[t_hhh]} ∅
            block_on_city zagat_sample fodors_sample)
       = (λ rp, (rp.1.1, rp.2.1))
           <$> filter
                 (λ rp, pair_label jw_one cat_high ∅ {[t_hhh]} ∅ rp = Some c)
                 (candidates block_on_city zagat_sample fodors_sample)).
Proof.
  assert (NoDup zagat_sample.*1) as Hz
    by (apply (bool_decide_unpack _); by vm_compute).
  assert (NoDup fodors_sample.*1) as Hf
    by (apply (bool_decide_unpack _); by vm_compute).
  split; [exact Hz|]. split; [exact Hf|].
  exact (blocking_restricts_classification jw_one cat_high ∅ {[t_hhh]} ∅
    zagat_sample fodors_sample Hz Hf).
Defined.

(** With every pair a match, blocking keeps the one pair of equal city. *)
Example blocking_sample :
  index_pairs Match
    (find_matches_loop jw_one cat_high ∅ {[t_hhh]} ∅
       false zagat_sample fodors_sample)
  = [(0, 0); (0, 1); (1, 0); (1, 1)]%Z
  ∧ index_pairs Match
      (find_matches_loop jw_one cat_high ∅ {[t_hhh]} ∅
         true zagat_sample fodors_sample)
    = [(0, 0)]%Z.
Proof. split; by vm_compute. Qed.

(** * Further properties of the module *)

(** ** [tuple_probs]: the entries are relative frequencies *)

Section DictSetFacts.
Context {V : Type}.
Implicit Types (d : dict V) (k : pattern) (v : V).

Lemma dict_lookup_set d k v t :
  dict_lookup (dict_set d k v) t
  = if decide (k = t) then Some v else dict_lookup d t.
Proof.
  induction d as [|[k' v'] d IH]; simpl.
  - by destruct (decide (k = t)).
  - destruct (decide (k' = k)) as [->|Hne]; simpl.
    + by destruct (decide (k = t)).
    + rewrite IH. destruct (decide (k' = t)) as [->|?]; [|done].
      by rewrite decide_False by congruence.
Qed.

Lemma dict_of_lookups d (f : pattern → V) :
  NoDup (keys d) → (∀ t, t ∈ keys d → dict_lookup d t = Some (f t)) →
  d = (λ t, (t, f t)) <$> keys d.
Proof.
  unfold keys. induction d as [|[k v] d IH]; [done|].
  rewrite fmap_cons. cbn [fst]. intros [Hk Hnd]%NoDup_cons Hl.
  rewrite fmap_cons. f_equal.
  - pose proof (Hl k ltac:(left)) as H. simpl in H.
    rewrite decide_True in H by done. congruence.
  - apply IH; [done|]. intros t Ht. specialize (Hl t ltac:(by right)).
    simpl in Hl. rewrite decide_False in Hl; [done|]. by intros ->.
Qed.
End DictSetFacts.

Section CountFacts.
Variable jaro_winkler : string → string → Q.
Variable get_jw_category : Q → category.
Variable fl : Q → Q.

Lemma count_rows_lookup (df : list pair_row) : ∀ counts counts' : dict Z,
  foldM (count_row jaro_winkler get_jw_category) df counts = Ok counts' →
  ∀ t, dict_lookup counts' t
       = (λ c, (c + tuple_count jaro_winkler get_jw_category df t)%Z)
           <$> dict_lookup counts t.
Proof.
  unfold tuple_count.
  induction df as [|row df IH]; intros counts counts' Hrun t.
  - simpl in Hrun. injection Hrun as <-. simpl.
    destruct (dict_lookup counts t); simpl; f_equal; lia.
  - cbn [foldM] in Hrun. unfold count_row at 1 in Hrun.
    unfold dict_get in Hrun.
    destruct (dict_lookup counts (row_tuple _ _ row)) as [c|] eqn:Hc;
      [|done].
    cbn [bind] in Hrun. rewrite (IH _ _ Hrun t), dict_lookup_set.
    rewrite filter_cons.
    destruct (decide (row_tuple jaro_winkler get_jw_category row = t))
      as [Heq|Hne].
    + rewrite <- Heq, Hc. simpl. f_equal. rewrite Heq. lia.
    + by destruct (dict_lookup counts t).
Qed.

Lemma init_counts_lookup (t : pattern) : dict_lookup init_counts t = Some 0%Z.
Proof. by destruct t as [[[] []] []]. Qed.

Lemma tuple_probs_counts (df : list pair_row) :
  df ≠ [] →
  tuple_probs jaro_winkler get_jw_category fl df
  = Ok ((λ t, (t, fl (inject_Z (tuple_count jaro_winkler get_jw_category df t)
                      / inject_Z (Z.of_nat (length df)))%Q))
          <$> domain).
Proof.
  intros Hne.
  destruct (count_rows_spec jaro_winkler get_jw_category df init_counts
    keys_init_counts) as (counts & Hrun & Hk & Hs & _).
  rewrite sum_values_init_counts, Z.add_0_l in Hs.
  assert (counts = (λ t, (t, tuple_count jaro_winkler get_jw_category df t))
                     <$> domain) as Hcounts.
  { rewrite <- Hk. apply dict_of_lookups.
    - rewrite Hk. apply domain_NoDup.
    - intros t _. rewrite (count_rows_lookup df _ _ Hrun t).
      by rewrite init_counts_lookup. }
  unfold tuple_probs. rewrite Hrun. cbn [bind].
  pose proof (normalise_loop fl counts counts []) as Hnorm.
  cbn [fmap list_fmap app] in Hnorm. rewrite Hnorm.
  - rewrite Hs. f_equal. rewrite Hcounts.
    rewrite <- list_fmap_compose. by apply list_fmap_ext.
  - rewrite Hs. destruct df; [done|]. simpl. lia.
  - simpl. rewrite Hk. apply domain_NoDup.
Qed.

(** X1.  On a non-empty sample the table [tuple_probs] returns holds, for
    every tuple of the domain in enumeration order, the rounded quotient of
    the number of rows that produce the tuple by the number of rows. *)
Theorem tuple_probs_relative_frequency (df : list pair_row) :
  df ≠ [] →
  tuple_probs jaro_winkler get_jw_category fl df
  = Ok ((λ t, (t, fl (inject_Z (tuple_count jaro_winkler get_jw_category df t)
                      / inject_Z (Z.of_nat (length df)))%Q))
          <$> domain).
Proof. apply tuple_probs_counts. Qed.

(** X2.  [tuple_probs] does not depend on the order of the rows of the
    sample: two samples with the same rows in any order give the same
    result. *)
Theorem tuple_probs_row_order (df df' : list pair_row) :
  df ≡ₚ df' →
  tuple_probs jaro_winkler get_jw_category fl df
  = tuple_probs jaro_winkler get_jw_category fl df'.
Proof.
  intros Hp. destruct df as [|row df].
  - apply Permutation_nil_l in Hp. by subst.
  - assert (df' ≠ []) as Hne'.
    { intros ->. by apply Permutation_nil_r in Hp. }
    rewrite !tuple_probs_counts by done.
    f_equal. apply list_fmap_ext. intros _ t _. unfold tuple_count.
    by rewrite Hp.
Qed.
End CountFacts.

Lemma tuple_probs_relative_frequency_witness :
  [sample_row; sample_row_2] ≠ []
  ∧ tuple_probs jw_one cat_high id [sample_row; sample_row_2]
    = Ok ((λ t, (t, id (inject_Z (tuple_count jw_one cat_high
                                    [sample_row; sample_row_2] t)
                        / inject_Z (Z.of_nat
                                      (length [sample_row; sample_row_2])))%Q))
            <$> domain).
Proof.
  split; [done|].
  exact (tuple_probs_relative_frequency jw_one cat_high id
    [sample_row; sample_row_2] ltac:(done)).
Defined.

Lemma tuple_probs_row_order_witness :
  [sample_row; sample_row_2] ≡ₚ [sample_row_2; sample_row]
  ∧ tuple_probs jw_one cat_high id [sample_row; sample_row_2]
    = tuple_probs jw_one cat_high id [sample_row_2; sample_row].
Proof.
  split; [apply Permutation_swap|].
  exact (tuple_probs_row_order jw_one cat_high id _ _
    (Permutation_swap sample_row_2 sample_row [])).
Defined.

(** ** [rank_tuples] with lists of different lengths *)

Section RankExtras.
Variable argsort : list Q → list nat.

Lemma rank_loop_IndexError (ttr : list pattern) (order : list nat) :
  ∀ acc : list pattern,
  Exists (λ i, length ttr ≤ i) order →
  rank_loop ttr order acc = Raise IndexError.
Proof.
  induction order as [|i order IH]; intros acc Hex.
  - by apply Exists_nil in Hex.
  - cbn [rank_loop]. unfold list_get.
    destruct (ttr !! i) as [t|] eqn:Ht; [|done]. cbn [bind].
    apply IH. apply Exists_cons in Hex as [Hi|?]; [|done].
    apply lookup_lt_Some in Ht. lia.
Qed.

Lemma lookups_take (ttr : list pattern) (order : list nat)
    (ranked : list pattern) (n : nat) :
  Forall2 (λ i t, ttr !! i = Some t) order ranked →
  n ≤ length ttr → order ≡ₚ seq 0 n → ranked ≡ₚ take n ttr.
Proof.
  intros HF Hn.
  assert (ranked = (λ i, ttr !!! i) <$> order) as ->.
  { induction HF as [|i t order ranked Hi _ IH]; [done|]. simpl.
    rewrite IH. f_equal. symmetry. by apply list_lookup_total_correct. }
  intros Hp. rewrite Hp.
  assert ((λ i, ttr !!! i) <$> seq 0 n = take n ttr) as ->; [|done].
  apply list_eq. intros i. rewrite list_lookup_fmap.
  destruct (decide (i < n)) as [Hi|Hi].
  - rewrite lookup_seq_lt by done. simpl. rewrite lookup_take_lt by done.
    symmetry. apply list_lookup_lookup_total_lt. lia.
  - rewrite lookup_seq_ge by lia. simpl. symmetry.
    apply lookup_ge_None. rewrite length_take. lia.
Qed.

(** X3.  With no more ratios than tuples, [rank_tuples] returns the
    front list followed by a permutation of the first [len(ratios)] tuples of
    [tuples_to_rank]: a tuple without a ratio is dropped, nothing is raised,
    and with as many ratios as tuples no tuple is lost or repeated. *)
Theorem rank_tuples_first_ratios (front ttr : list pattern) (ratios : list Q) :
  argsort_spec argsort → length ratios ≤ length ttr →
  ∃ ranked : list pattern,
    rank_tuples argsort front ttr ratios = Ok (front ++ ranked)
    ∧ ranked ≡ₚ take (length ratios) ttr
    ∧ (length ratios = length ttr → front ++ ranked ≡ₚ front ++ ttr).
Proof.
  intros Hspec Hlen.
  destruct (argsort_indices argsort ratios (length ratios) Hspec eq_refl)
    as [Hp Hlt].
  assert (Forall (λ i, i < length ttr) (reverse (argsort ratios))) as Hlt'.
  { eapply Forall_impl; [exact Hlt|]. simpl. lia. }
  destruct (rank_loop_spec ttr _ [] Hlt') as (ranked & Hrun & HF).
  exists ranked. unfold rank_tuples. rewrite Hrun. cbn [bind app].
  split; [done|].
  pose proof (lookups_take ttr _ ranked (length ratios) HF Hlen Hp) as Hperm.
  split; [done|]. intros Heq. rewrite Hperm, Heq. by rewrite firstn_all.
Qed.

(** X4.  With more ratios than tuples, [rank_tuples] fails with
    IndexError. *)
Theorem rank_tuples_too_many_ratios (front ttr : list pattern)
    (ratios : list Q) :
  argsort_spec argsort → length ttr < length ratios →
  rank_tuples argsort front ttr ratios = Raise IndexError.
Proof.
  intros Hspec Hlen.
  destruct (argsort_indices argsort ratios (length ratios) Hspec eq_refl)
    as [Hp _].
  unfold rank_tuples. rewrite rank_loop_IndexError; [done|].
  apply Exists_exists. exists (length ttr). split; [|done].
  rewrite Hp. apply elem_of_seq. lia.
Qed.
End RankExtras.

Lemma rank_tuples_first_ratios_witness :
  argsort_spec np_argsort ∧ length [1%Q] ≤ length [t_lll; t_llm]
  ∧ ∃ ranked : list pattern,
      rank_tuples np_argsort [t_hhh] [t_lll; t_llm] [1%Q]
      = Ok ([t_hhh] ++ ranked)
      ∧ ranked ≡ₚ take (length [1%Q]) [t_lll; t_llm]
      ∧ (length [1%Q] = length [t_lll; t_llm] →
         [t_hhh] ++ ranked ≡ₚ [t_hhh] ++ [t_lll; t_llm]).
Proof.
  split; [exact np_argsort_spec|]. split; [simpl; lia|].
  exact (rank_tuples_first_ratios np_argsort [t_hhh] [t_lll; t_llm] [1%Q]
    np_argsort_spec ltac:(simpl; lia)).
Defined.

Lemma rank_tuples_too_many_ratios_witness :
  argsort_spec np_argsort ∧ length [t_lll] < length [1%Q; 2%Q]
  ∧ rank_tuples np_argsort [] [t_lll] [1%Q; 2%Q] = Raise IndexError.
Proof.
  split; [exact np_argsort_spec|]. split; [simpl; lia|].
  exact (rank_tuples_too_many_ratios np_argsort [] [t_lll] [1%Q; 2%Q]
    np_argsort_spec ltac:(simpl; lia)).
Defined.

(** ** The cutoff of [sort_by_cum_pr] and the sets of [create_sets] *)

Section CutoffExtras.
Variable fl : Q → Q.

Lemma running_cons (freqs : dict Q) (c : Q) (t : pattern) (l : list pattern) :
  running fl freqs c (t :: l)
  = running fl freqs (fadd fl c (freq_of freqs t)) l.
Proof. reflexivity. Qed.

Lemma cum_loop_greedy (level : Q) (freqs : dict Q) (ranked : list pattern) :
  ∀ (c : Q) (S : gset pattern),
  Forall (λ t, t ∈ keys freqs) ranked →
  ∃ pre post, ranked = pre ++ post
    ∧ cum_loop fl level freqs ranked c S = Ok (S ∪ list_to_set pre)
    ∧ (∀ k, 0 < k ≤ length pre →
         (running fl freqs c (take k pre) <= level)%Q)
    ∧ (∀ t, head post = Some t →
         (level < running fl freqs c (pre ++ [t]))%Q).
Proof.
  induction ranked as [|t ranked IH]; intros c S Hk.
  - exists [], []. simpl. rewrite union_empty_r_L.
    repeat split; [|done]. intros k Hk0. simpl in Hk0. lia.
  - apply Forall_cons in Hk as [Ht Hk]. cbn [cum_loop].
    rewrite (dict_get_freq_of _ _ Ht). cbn [bind].
    destruct (Qle_bool (fadd fl c (freq_of freqs t)) level) eqn:Hle.
    + destruct (IH (fadd fl c (freq_of freqs t)) (S ∪ {[t]}) Hk)
        as (pre & post & -> & -> & Hpre & Hpost).
      exists (t :: pre), post. split; [done|]. split.
      { rewrite list_to_set_cons. by rewrite (assoc_L (∪)). }
      split.
      * intros k Hk0. destruct k as [|k]; [lia|]. cbn [take].
        rewrite running_cons. destruct k as [|k].
        -- simpl. by apply Qle_bool_iff.
        -- apply Hpre. simpl in Hk0. lia.
      * intros t' Ht'. cbn [app]. rewrite running_cons. by apply Hpost.
    + exists [], (t :: ranked). simpl. rewrite union_empty_r_L.
      repeat split.
      * intros k Hk0. simpl in Hk0. lia.
      * intros t' [= <-]. apply Qnot_le_lt. intros H.
        apply Qle_bool_iff in H. congruence.
Qed.

Lemma cum_loop_superset (level : Q) (freqs : dict Q) (ranked : list pattern) :
  ∀ (c : Q) (S S1 : gset pattern),
  cum_loop fl level freqs ranked c S = Ok S1 → S ⊆ S1.
Proof.
  induction ranked as [|t ranked IH]; intros c S S1.
  - simpl. by intros [= <-].
  - cbn [cum_loop]. destruct (dict_get freqs t) as [f|e]; [|done].
    cbn [bind]. destruct (Qle_bool _ _).
    + intros R. apply IH in R. set_solver.
    + by intros [= <-].
Qed.

Lemma cum_loop_mono (level level' : Q) (freqs : dict Q)
    (ranked : list pattern) :
  (level <= level')%Q →
  ∀ (c : Q) (S S' S1 S2 : gset pattern),
  S ⊆ S' →
  cum_loop fl level freqs ranked c S = Ok S1 →
  cum_loop fl level' freqs ranked c S' = Ok S2 →
  S1 ⊆ S2.
Proof.
  intros Hle. induction ranked as [|t ranked IH]; intros c S S' S1 S2 Hsub.
  - simpl. by intros [= <-] [= <-].
  - cbn [cum_loop]. destruct (dict_get freqs t) as [f|e]; [|done].
    cbn [bind].
    destruct (Qle_bool (fadd fl c f) level) eqn:H1.
    + assert (Qle_bool (fadd fl c f) level' = true) as ->.
      { apply Qle_bool_iff. apply Qle_bool_iff in H1. lra. }
      apply IH. set_solver.
    + intros [= <-] R2.
      destruct (Qle_bool (fadd fl c f) level').
      * apply cum_loop_superset in R2. set_solver.
      * by injection R2 as <-.
Qed.
End CutoffExtras.

Lemma Qsum_filter_le (P : pattern * Q → Prop) `{∀ x, Decision (P x)}
    (d : dict Q) :
  nonneg_table d → (Qsum (values (filter P d)) <= Qsum (values d))%Q.
Proof.
  unfold values. induction d as [|[t v] d IH]; intros Hnn; [done|].
  assert (nonneg_table d) as Hnn' by (intros t' v' ?; apply (Hnn t'); by right).
  specialize (IH Hnn'). pose proof (Hnn t v ltac:(left)) as Hv.
  rewrite filter_cons. case_decide; rewrite ?fmap_cons; cbn [snd];
    rewrite ?Qsum_cons; lra.
Qed.

Section CreateSetsExtras.
Variable argsort : list Q → list nat.
Variable fl : Q → Q.

(** X5.  [sort_by_cum_pr] returns the set of the longest initial run of
    the list it walks (the ranked list, or its reverse) on which the running
    sum stays at most [level]: every running sum inside the run is at most
    [level], and the first tuple after the run, if there is one, takes the
    running sum above [level].  The walk stops there, whatever follows. *)
Theorem sort_by_cum_pr_greedy_cutoff (level : Q) (ranked : list pattern)
    (freqs : dict Q) (left_tail : bool) :
  Forall (λ t, t ∈ keys freqs) ranked →
  ∃ pre post : list pattern,
    (if left_tail then ranked else reverse ranked) = pre ++ post
    ∧ sort_by_cum_pr fl level ranked freqs left_tail
      = Ok (list_to_set pre, pre ++ post)
    ∧ (∀ k, 0 < k ≤ length pre →
         (running fl freqs 0 (take k pre) <= level)%Q)
    ∧ (∀ t, head post = Some t →
         (level < running fl freqs 0 (pre ++ [t]))%Q).
Proof.
  intros Hk.
  assert (Forall (λ t, t ∈ keys freqs)
            (if left_tail then ranked else reverse ranked)) as Hk'.
  { destruct left_tail; [done|]. apply Forall_forall. intros t Ht.
    rewrite elem_of_reverse in Ht. rewrite Forall_forall in Hk. auto. }
  destruct (cum_loop_greedy fl level freqs _ 0%Q ∅ Hk')
    as (pre & post & Heq & Hrun & Hpre & Hpost).
  exists pre, post. split; [done|]. split; [|done].
  unfold sort_by_cum_pr. rewrite Hrun. cbn [bind].
  by rewrite union_empty_l_L, Heq.
Qed.

Lemma triage_loop_KeyError (freqs_m : dict Q) (l : dict Q) : ∀ st : triage,
  Exists (λ t, t ∉ keys freqs_m) (keys l) →
  foldM (triage_step fl freqs_m) l st = Raise KeyError.
Proof.
  induction l as [|[t u] l IH]; intros st Hex.
  - by apply Exists_nil in Hex.
  - cbn [foldM]. unfold triage_step at 1, dict_get.
    destruct (dict_lookup freqs_m t) as [m|] eqn:Hm; [|done].
    cbn [bind]. unfold keys in Hex. rewrite fmap_cons in Hex.
    apply Exists_cons in Hex as [Hnot|Hex].
    { exfalso. apply Hnot. apply dict_lookup_is_Some. by exists m. }
    destruct (Qeq_bool u 0); [destruct (Qeq_bool m 0)|]; cbn [bind];
      by apply IH.
Qed.

(** X6.  When [freqs_u] has a key that [freqs_m] lacks, [create_sets]
    fails with KeyError. *)
Theorem create_sets_missing_key (freqs_m freqs_u : dict Q) (mu lmbda : Q)
    (t : pattern) :
  t ∈ keys freqs_u → t ∉ keys freqs_m →
  create_sets argsort fl freqs_m freqs_u mu lmbda = Raise KeyError.
Proof.
  intros Hu Hm. unfold create_sets, create_sets_body.
  rewrite triage_loop_KeyError; [done|].
  apply Exists_exists. by exists t.
Qed.

(** X7.  [create_sets] partitions the keys of [freqs_u]: when these are
    all keys of [freqs_m], the three sets are pairwise disjoint and their
    union is the key set of [freqs_u]; keys that only [freqs_m] has play no
    part. *)
Theorem create_sets_partitions_keys (freqs_m freqs_u : dict Q) (mu lmbda : Q) :
  argsort_spec argsort → NoDup (keys freqs_u) →
  (∀ t, t ∈ keys freqs_u → t ∈ keys freqs_m) →
  ∃ possible_tuples match_tuples unmatch_tuples : gset pattern,
    create_sets argsort fl freqs_m freqs_u mu lmbda
      = Ok (possible_tuples, match_tuples, unmatch_tuples)
    ∧ match_tuples ## unmatch_tuples
    ∧ match_tuples ## possible_tuples
    ∧ unmatch_tuples ## possible_tuples
    ∧ possible_tuples ∪ match_tuples ∪ unmatch_tuples
      = list_to_set (keys freqs_u).
Proof.
  intros Hsort Hnd Hkeys.
  destruct (create_sets_body_partition argsort fl freqs_m freqs_u mu lmbda
    Hsort Hkeys Hnd) as (e & He & H1 & H2 & H3 & H4).
  exists (cs_possible_tuples e), (cs_match_tuples e), (cs_unmatch_tuples e).
  split; [|done]. by apply create_sets_of_body.
Qed.

(** X8.  A tuple whose frequency is 0 in both tables is in
    [possible_tuples] and in neither of the other sets, for every [mu] and
    [lmbda]. *)
Theorem create_sets_zero_evidence_possible (freqs_m freqs_u : dict Q)
    (mu lmbda : Q) :
  argsort_spec argsort → NoDup (keys freqs_u) →
  (∀ t, t ∈ keys freqs_u → t ∈ keys freqs_m) →
  ∃ possible_tuples match_tuples unmatch_tuples : gset pattern,
    create_sets argsort fl freqs_m freqs_u mu lmbda
      = Ok (possible_tuples, match_tuples, unmatch_tuples)
    ∧ ∀ t u, (t, u) ∈ freqs_u →
        (u == 0)%Q → (freq_of freqs_m t == 0)%Q →
        t ∈ possible_tuples ∧ (t ∉ match_tuples) ∧ (t ∉ unmatch_tuples).
Proof.
  intros Hsort Hnd Hkeys.
  destruct (create_sets_body_partition argsort fl freqs_m freqs_u mu lmbda
    Hsort Hkeys Hnd) as (e & He & H1 & H2 & H3 & H4).
  exists (cs_possible_tuples e), (cs_match_tuples e), (cs_unmatch_tuples e).
  split; [by apply create_sets_of_body|].
  intros t u Hin Hu Hm.
  assert (t ∈ cs_possible_tuples e) as Hp.
  { destruct (create_sets_body_spec argsort fl freqs_m freqs_u mu lmbda
      Hsort Hkeys) as (? & ? & ? & ? & ? & _ & _ & _ & _ & _ & _ & _ & _ & Hrun).
    rewrite Hrun in He. injection He as <-. unfold locals_of.
    cbn [cs_possible_tuples]. apply elem_of_union_l.
    apply elem_of_triage_possible. exists u. split; [done|].
    unfold is_possible. cbn [fst snd].
    apply andb_true_iff. split; by apply Qeq_bool_iff. }
  split; [done|]. set_solver.
Qed.

(** X9.  Raising a bound never removes a tuple: for [mu <= mu'] and
    [lmbda <= lmbda'], [match_tuples] under [mu] is included in
    [match_tuples] under [mu'], and the bottom cutoff under [lmbda] in the
    bottom cutoff under [lmbda']. *)
Theorem create_sets_monotone_in_bounds (freqs_m freqs_u : dict Q)
    (mu mu' lmbda lmbda' : Q) :
  argsort_spec argsort →
  (∀ t, t ∈ keys freqs_u → t ∈ keys freqs_m) →
  (mu <= mu')%Q → (lmbda <= lmbda')%Q →
  ∃ e e' : create_sets_locals,
    create_sets_body argsort fl freqs_m freqs_u mu lmbda = Ok e
    ∧ create_sets_body argsort fl freqs_m freqs_u mu' lmbda' = Ok e'
    ∧ cs_match_tuples e ⊆ cs_match_tuples e'
    ∧ cs_unmatch_tuples_full e ⊆ cs_unmatch_tuples_full e'.
Proof.
  intros Hsort Hkeys Hmu Hlm.
  destruct (create_sets_body_spec argsort fl freqs_m freqs_u mu lmbda
    Hsort Hkeys)
    as (s1 & p1 & q1 & p2 & q2 & _ & _ & _ & _ & _ & Hr & Hm & Hu & Hrun).
  destruct (create_sets_body_spec argsort fl freqs_m freqs_u mu' lmbda'
    Hsort Hkeys)
    as (s1' & p1' & q1' & p2' & q2' & _ & _ & _ & _ & _ & Hr' & Hm' & Hu'
        & Hrun').
  rewrite Hr in Hr'. injection Hr' as Hs. apply app_inv_head in Hs.
  subst s1'.
  eexists _, _. split; [exact Hrun|]. split; [exact Hrun'|].
  unfold locals_of. cbn [cs_match_tuples cs_unmatch_tuples_full]. split.
  - by eapply (cum_loop_mono fl mu mu' freqs_u _ Hmu 0%Q ∅ ∅).
  - by eapply (cum_loop_mono fl lmbda lmbda' freqs_m _ Hlm 0%Q ∅ ∅).
Qed.

Lemma cum_loop_all (level : Q) (freqs : dict Q) (ranked : list pattern)
    (acc : gset pattern) :
  Forall (λ t, t ∈ keys freqs) ranked →
  (∀ k, k ≤ length ranked →
     (running fl freqs 0 (take k ranked) <= level)%Q) →
  cum_loop fl level freqs ranked 0 acc = Ok (acc ∪ list_to_set ranked).
Proof.
  intros Hk Hsum.
  destruct (cum_loop_greedy fl level freqs ranked 0%Q acc Hk)
    as (pre & post & Heq & Hrun & _ & Hpost).
  destruct post as [|t post].
  - rewrite app_nil_r in Heq. by subst.
  - exfalso. specialize (Hpost t eq_refl).
    specialize (Hsum (length (pre ++ [t]))).
    rewrite Heq, (cons_middle t pre post), app_assoc in Hsum.
    rewrite take_app_length in Hsum.
    rewrite !length_app in Hsum. simpl in Hsum.
    specialize (Hsum ltac:(lia)). lra.
Qed.
End CreateSetsExtras.

Lemma point_table_NoDup (p : pattern) : NoDup (keys (point_table p)).
Proof. apply full_domain_NoDup, point_table_full_domain. Qed.

Lemma point_table_keys (p q t : pattern) :
  t ∈ keys (point_table p) → t ∈ keys (point_table q).
Proof. intros _. apply full_domain_keys, point_table_full_domain. Qed.

Lemma sort_by_cum_pr_greedy_cutoff_witness :
  Forall (λ t, t ∈ keys (point_table t_lll)) [t_hhh; t_lll]
  ∧ ∃ pre post : list pattern,
      [t_hhh; t_lll] = pre ++ post
      ∧ sort_by_cum_pr id (1 # 10) [t_hhh; t_lll] (point_table t_lll) true
        = Ok (list_to_set pre, pre ++ post)
      ∧ (∀ k, 0 < k ≤ length pre →
           (running id (point_table t_lll) 0 (take k pre) <= 1 # 10)%Q)
      ∧ (∀ t, head post = Some t →
           (1 # 10 < running id (point_table t_lll) 0 (pre ++ [t]))%Q).
Proof.
  assert (Forall (λ t, t ∈ keys (point_table t_lll)) [t_hhh; t_lll]) as Hk.
  { repeat constructor; apply full_domain_keys, point_table_full_domain. }
  split; [exact Hk|].
  exact (sort_by_cum_pr_greedy_cutoff id (1 # 10) [t_hhh; t_lll]
    (point_table t_lll) true Hk).
Defined.

Lemma create_sets_missing_key_witness :
  t_lll ∈ keys (point_table t_lll) ∧ (t_lll ∉ keys ([] : dict Q))
  ∧ create_sets np_argsort id [] (point_table t_lll) (1 # 10) (1 # 10)
    = Raise KeyError.
Proof.
  assert (t_lll ∈ keys (point_table t_lll)) as Hu
    by apply full_domain_keys, point_table_full_domain.
  assert (t_lll ∉ keys ([] : dict Q)) as Hm by apply not_elem_of_nil.
  split; [exact Hu|]. split; [exact Hm|].
  exact (create_sets_missing_key np_argsort id [] (point_table t_lll)
    (1 # 10) (1 # 10) t_lll Hu Hm).
Defined.

Lemma create_sets_partitions_keys_witness :
  argsort_spec np_argsort ∧ NoDup (keys (point_table t_lll))
  ∧ ∃ possible_tuples match_tuples unmatch_tuples : gset pattern,
      create_sets np_argsort id (point_table t_hhh) (point_table t_lll)
        (1 # 10) (1 # 10)
      = Ok (possible_tuples, match_tuples, unmatch_tuples)
      ∧ match_tuples ## unmatch_tuples
      ∧ match_tuples ## possible_tuples
      ∧ unmatch_tuples ## possible_tuples
      ∧ possible_tuples ∪ match_tuples ∪ unmatch_tuples
        = list_to_set (keys (point_table t_lll)).
Proof.
  split; [exact np_argsort_spec|]. split; [exact (point_table_NoDup t_lll)|].
  exact (create_sets_partitions_keys np_argsort id (point_table t_hhh)
    (point_table t_lll) (1 # 10) (1 # 10) np_argsort_spec
    (point_table_NoDup t_lll) (point_table_keys t_lll t_hhh)).
Defined.

Lemma create_sets_zero_evidence_possible_witness :
  argsort_spec np_argsort ∧ NoDup (keys (point_table t_lll))
  ∧ ∃ possible_tuples match_tuples unmatch_tuples : gset pattern,
      create_sets np_argsort id (point_table t_hhh) (point_table t_lll)
        (1 # 10) (1 # 10)
      = Ok (possible_tuples, match_tuples, unmatch_tuples)
      ∧ ∀ t u, (t, u) ∈ point_table t_lll →
          (u == 0)%Q → (freq_of (point_table t_hhh) t == 0)%Q →
          t ∈ possible_tuples ∧ (t ∉ match_tuples) ∧ (t ∉ unmatch_tuples).
Proof.
  split; [exact np_argsort_spec|]. split; [exact (point_table_NoDup t_lll)|].
  exact (create_sets_zero_evidence_possible np_argsort id (point_table t_hhh)
    (point_table t_lll) (1 # 10) (1 # 10) np_argsort_spec
    (point_table_NoDup t_lll) (point_table_keys t_lll t_hhh)).
Defined.

Lemma create_sets_monotone_in_bounds_witness :
  argsort_spec np_argsort ∧ (0 <= 1 # 10)%Q
  ∧ ∃ e e' : create_sets_locals,
      create_sets_body np_argsort id (point_table t_hhh) (point_table t_lll)
        0 0 = Ok e
      ∧ create_sets_body np_argsort id (point_table t_hhh)
          (point_table t_lll) (1 # 10) (1 # 10) = Ok e'
      ∧ cs_match_tuples e ⊆ cs_match_tuples e'
      ∧ cs_unmatch_tuples_full e ⊆ cs_unmatch_tuples_full e'.
Proof.
  assert (0 <= 1 # 10)%Q as Hle by (by vm_compute).
  split; [exact np_argsort_spec|]. split; [exact Hle|].
  exact (create_sets_monotone_in_bounds np_argsort id (point_table t_hhh)
    (point_table t_lll) 0 (1 # 10) 0 (1 # 10) np_argsort_spec
    (point_table_keys t_lll t_hhh) Hle Hle).
Defined.

(** ** Row selection: [create_matches] and [make_final_dfs] *)

Lemma iloc_row_in_bounds (df : dataframe) (i : Z) :
  in_bounds df i →
  ∃ data, iloc_row df i = Ok data ∧ row_at df i = Some data.
Proof.
  intros Hb. unfold iloc_row, row_at. rewrite decide_True by exact Hb.
  unfold list_get.
  set (p := Z.to_nat _).
  assert (p < length df) as Hp.
  { subst p. unfold in_bounds in Hb. case_decide; lia. }
  destruct (lookup_lt_is_Some_2 df p Hp) as [[l d] Hl].
  rewrite Hl. by exists d.
Qed.

Lemma iloc_row_out_of_bounds (df : dataframe) (i : Z) :
  ¬ in_bounds df i → iloc_row df i = Raise IndexError.
Proof. intros Hb. unfold iloc_row. by rewrite decide_False. Qed.

Lemma iloc_row_cases (df : dataframe) (i : Z) :
  iloc_row df i = Raise IndexError ∨ ∃ data, iloc_row df i = Ok data.
Proof.
  destruct (decide (in_bounds df i)) as [Hb|Hb].
  - right. destruct (iloc_row_in_bounds df i Hb) as (d & ? & _). by exists d.
  - left. by apply iloc_row_out_of_bounds.
Qed.

Lemma iloc_in_bounds (df : dataframe) (idx : list Z) :
  Forall (in_bounds df) idx →
  ∃ rows, iloc df idx = Ok rows
    ∧ Forall2 (λ i data, row_at df i = Some data) idx rows.
Proof.
  unfold iloc. induction 1 as [|i idx Hi _ (rows & IH & HF)].
  - by exists [].
  - destruct (iloc_row_in_bounds df i Hi) as (d & Hd & Hr).
    exists (d :: rows). cbn [mapM]. rewrite Hd, IH. cbn [bind].
    split; [done|]. by constructor.
Qed.

Lemma iloc_out_of_bounds (df : dataframe) (idx : list Z) :
  Exists (λ i, ¬ in_bounds df i) idx → iloc df idx = Raise IndexError.
Proof.
  unfold iloc. induction idx as [|i idx IH]; intros Hex.
  - by apply Exists_nil in Hex.
  - cbn [mapM]. destruct (decide (in_bounds df i)) as [Hb|Hb].
    + destruct (iloc_row_in_bounds df i Hb) as (d & -> & _). cbn [bind].
      apply Exists_cons in Hex as [?|Hex]; [done|]. by rewrite IH.
    + by rewrite iloc_row_out_of_bounds.
Qed.

Lemma iloc_cases (df : dataframe) (idx : list Z) :
  iloc df idx = Raise IndexError
  ∨ ∃ rows, iloc df idx = Ok rows ∧ length rows = length idx.
Proof.
  destruct (decide (Forall (in_bounds df) idx)) as [Hall|Hex].
  - right. destruct (iloc_in_bounds df idx Hall) as (rows & ? & HF).
    exists rows. split; [done|]. symmetry. by eapply Forall2_length.
  - left. apply iloc_out_of_bounds.
    apply not_Forall_Exists in Hex; [exact Hex|apply _].
Qed.

Lemma in_bounds_fits_long (df : dataframe) (i : Z) :
  (Z.of_nat (length df) ≤ 2 ^ 63)%Z → in_bounds df i → fits_long i.
Proof. unfold in_bounds, fits_long. lia. Qed.

Lemma fits_long_64_bits (i : Z) : fits_long i → fits_64_bits i.
Proof. unfold fits_long, fits_64_bits. lia. Qed.

Lemma row_at_positional (df : dataframe) (i : Z) (data : restaurant) :
  positional df → (i, data) ∈ df → in_bounds df i ∧ row_at df i = Some data.
Proof.
  intros Hpos [k Hk]%list_elem_of_lookup_1.
  assert (df.*1 !! k = Some i) as Hi by (by rewrite list_lookup_fmap, Hk).
  rewrite Hpos, list_lookup_fmap in Hi.
  pose proof (lookup_lt_Some _ _ _ Hk) as Hlt.
  rewrite lookup_seq_lt in Hi by done. simpl in Hi. injection Hi as <-.
  unfold in_bounds, row_at. split; [lia|].
  rewrite decide_False by lia. by rewrite Nat2Z.id, Hk.
Qed.

Lemma iloc_fmap_positional {A : Type} (df : dataframe) (l : list A)
    (f : A → Z * restaurant) :
  positional df → (∀ x, x ∈ l → f x ∈ df) →
  iloc df ((λ x, (f x).1) <$> l) = Ok ((λ x, (f x).2) <$> l).
Proof.
  intros Hpos. unfold iloc. induction l as [|x l IH]; intros Hin; [done|].
  rewrite !fmap_cons. cbn [mapM].
  destruct (row_at_positional df (f x).1 (f x).2 Hpos) as [Hb Hr].
  { rewrite <- surjective_pairing. apply Hin. left. }
  destruct (iloc_row_in_bounds df _ Hb) as (d & -> & Hr').
  rewrite Hr in Hr'. injection Hr' as <-.
  rewrite IH by (intros y Hy; apply Hin; by right). done.
Qed.

Lemma concat_columns_lookup (a b : list restaurant) (k : nat) :
  concat_columns a b !! k
  = if decide (k < length a `max` length b) then Some (a !! k, b !! k)
    else None.
Proof.
  revert b k. induction a as [|x a IH]; intros b k.
  - simpl. rewrite list_lookup_fmap. case_decide.
    + destruct (lookup_lt_is_Some_2 b k ltac:(done)) as [y Hy].
      by rewrite Hy.
    + rewrite lookup_ge_None_2 by lia. done.
  - destruct b as [|y b]; destruct k as [|k]; cbn [concat_columns lookup list_lookup length]; try done.
    + rewrite IH, lookup_nil. cbn [length].
      repeat case_decide; try (exfalso; lia); reflexivity.
    + rewrite IH. repeat case_decide; try (exfalso; lia); reflexivity.
Qed.

Lemma concat_columns_length (a b : list restaurant) :
  length (concat_columns a b) = length a `max` length b.
Proof.
  revert b. induction a as [|x a IH]; intros b.
  - simpl. by rewrite length_fmap.
  - destruct b as [|y b]; cbn [concat_columns length]; rewrite IH;
      cbn [length]; lia.
Qed.

Lemma concat_columns_fmap {A : Type} (f g : A → restaurant) (l : list A) :
  concat_columns (f <$> l) (g <$> l) = (λ x, (Some (f x), Some (g x))) <$> l.
Proof.
  induction l as [|x l IH]; [done|].
  rewrite !fmap_cons. cbn [concat_columns]. by rewrite IH.
Qed.

Lemma create_matches_spec (df1 df2 : dataframe) (known_links : list (Z * Z)) :
  Forall (λ link, in_bounds df1 link.1 ∧ in_bounds df2 link.2) known_links →
  ∃ matches : list pair_row,
    create_matches df1 df2 known_links = Ok matches
    ∧ Forall2 (λ link row,
         ∃ data_z data_f,
           row_at df1 link.1 = Some data_z ∧ row_at df2 link.2 = Some data_f
           ∧ row = joined_row data_z data_f)
        known_links matches.
Proof.
  intros Hall.
  assert (Forall (in_bounds df1) known_links.*1) as H1.
  { apply Forall_fmap. eapply Forall_impl; [exact Hall|]. by intros ? [? _]. }
  assert (Forall (in_bounds df2) known_links.*2) as H2.
  { apply Forall_fmap. eapply Forall_impl; [exact Hall|]. by intros ? [_ ?]. }
  destruct (iloc_in_bounds df1 _ H1) as (r1 & Hr1 & F1).
  destruct (iloc_in_bounds df2 _ H2) as (r2 & Hr2 & F2).
  unfold create_matches. rewrite Hr1, Hr2. cbn [bind].
  eexists. split; [done|]. clear Hr1 Hr2 Hall H1 H2.
  revert r1 r2 F1 F2.
  induction known_links as [|[z f] links IH]; intros r1 r2 F1 F2.
  - apply Forall2_nil_inv_l in F1 as ->. constructor.
  - rewrite fmap_cons in F1, F2.
    apply Forall2_cons_inv_l in F1 as (d1 & r1' & Hd1 & F1 & ->).
    apply Forall2_cons_inv_l in F2 as (d2 & r2' & Hd2 & F2 & ->).
    cbn [zip_with]. constructor; [|by apply IH].
    by exists d1, d2.
Qed.

Lemma create_matches_length (df1 df2 : dataframe)
    (known_links : list (Z * Z)) (matches : list pair_row) :
  create_matches df1 df2 known_links = Ok matches →
  length matches = length known_links.
Proof.
  unfold create_matches.
  destruct (iloc_cases df1 known_links.*1) as [->|(r1 & -> & L1)]; [done|].
  destruct (iloc_cases df2 known_links.*2) as [->|(r2 & -> & L2)]; [done|].
  cbn [bind]. intros [= <-]. rewrite length_zip_with, L1, L2, !length_fmap.
  lia.
Qed.

(** X11.  When every link names a position inside its frame,
    [create_matches] returns one row per link, in the order of the links,
    and the row of a link (z, f) joins the row of the first frame at
    position z with the row of the second at position f. *)
Theorem create_matches_rows (df1 df2 : dataframe)
    (known_links : list (Z * Z)) :
  Forall (λ link, in_bounds df1 link.1 ∧ in_bounds df2 link.2) known_links →
  ∃ matches : list pair_row,
    create_matches df1 df2 known_links = Ok matches
    ∧ Forall2 (λ link row,
         ∃ data_z data_f,
           row_at df1 link.1 = Some data_z ∧ row_at df2 link.2 = Some data_f
           ∧ row = joined_row data_z data_f)
        known_links matches.
Proof. apply create_matches_spec. Qed.

(** X12.  When a link names a position outside its frame, [create_matches]
    fails with IndexError. *)
Theorem create_matches_out_of_bounds (df1 df2 : dataframe)
    (known_links : list (Z * Z)) :
  Exists (λ link, ¬ in_bounds df1 link.1 ∨ ¬ in_bounds df2 link.2)
    known_links →
  create_matches df1 df2 known_links = Raise IndexError.
Proof.
  intros Hex. unfold create_matches.
  destruct (iloc_cases df1 known_links.*1) as [->|(r1 & Hr1 & _)]; [done|].
  rewrite Hr1. cbn [bind]. rewrite iloc_out_of_bounds; [done|].
  apply Exists_fmap. apply Exists_exists in Hex as ([z f] & Hin & [Hz|Hf]).
  - exfalso. rewrite (iloc_out_of_bounds df1) in Hr1; [done|].
    apply Exists_fmap, Exists_exists. by exists (z, f).
  - apply Exists_exists. by exists (z, f).
Qed.

Section SelectionFacts.
Variable iloc_wide : dataframe → list Z → result (list restaurant).

Lemma iloc_list_Ok (df : dataframe) (idx : list Z) (rows : list restaurant) :
  iloc df idx = Ok rows → iloc_list iloc_wide df idx = Ok rows.
Proof. intros Hrows. unfold iloc_list. by rewrite Hrows. Qed.

Lemma iloc_list_IndexError (df : dataframe) (idx : list Z) :
  Forall fits_long idx → Exists (λ i, ¬ in_bounds df i) idx →
  iloc_list iloc_wide df idx = Raise IndexError.
Proof.
  intros Hfit Hex. unfold iloc_list.
  rewrite (iloc_out_of_bounds df idx Hex). by rewrite decide_True.
Qed.

Lemma iloc_list_OverflowError (df : dataframe) (idx : list Z) :
  (Z.of_nat (length df) ≤ 2 ^ 63)%Z → Exists (λ i, ¬ fits_64_bits i) idx →
  iloc_list iloc_wide df idx = Raise OverflowError.
Proof.
  intros Hlen Hex. unfold iloc_list.
  assert (¬ Forall fits_64_bits idx) as Hwide.
  { intros Hall. apply Exists_exists in Hex as (i & Hi & Hno).
    rewrite Forall_forall in Hall. auto. }
  assert (¬ Forall fits_long idx) as Hlong.
  { intros Hall. apply Hwide. eapply Forall_impl; [exact Hall|].
    apply fits_long_64_bits. }
  rewrite (iloc_out_of_bounds df idx).
  - by rewrite decide_False, decide_False.
  - eapply Exists_impl; [exact Hex|]. intros i Hno Hb.
    by apply Hno, fits_long_64_bits, (in_bounds_fits_long df).
Qed.

Lemma make_final_dfs_not_empty (df1 df2 : dataframe)
    (match_z match_f : list Z) :
  match_z ≠ [] ∨ match_f ≠ [] →
  make_final_dfs iloc_wide df1 df2 match_z match_f
  = (df1_o <- iloc_list iloc_wide df1 match_z ;;
     df2_o <- iloc_list iloc_wide df2 match_f ;;
     Ok (concat_columns df1_o df2_o)).
Proof.
  intros Hne. unfold make_final_dfs.
  destruct match_z, match_f; try done; by destruct Hne.
Qed.

(** X13.  When every entry of the two index lists fits a C long and one
    of the lists holds a position outside its frame, [make_final_dfs] fails
    with IndexError. *)
Theorem make_final_dfs_out_of_bounds (df1 df2 : dataframe)
    (match_z match_f : list Z) :
  Forall fits_long match_z → Forall fits_long match_f →
  Exists (λ i, ¬ in_bounds df1 i) match_z
  ∨ Exists (λ i, ¬ in_bounds df2 i) match_f →
  make_final_dfs iloc_wide df1 df2 match_z match_f = Raise IndexError.
Proof.
  intros Fz Ff Hex. rewrite make_final_dfs_not_empty.
  - destruct (decide (Forall (in_bounds df1) match_z)) as [Hall|Hz].
    + destruct (iloc_in_bounds df1 _ Hall) as (r1 & Hr1 & _).
      rewrite (iloc_list_Ok _ _ _ Hr1). cbn [bind].
      destruct Hex as [Hz|Hf].
      * exfalso. apply Exists_exists in Hz as (i & Hi & Hno).
        rewrite Forall_forall in Hall. auto.
      * by rewrite iloc_list_IndexError.
    + apply not_Forall_Exists in Hz; [|apply _].
      by rewrite iloc_list_IndexError.
  - destruct Hex as [Hz|Hf]; [left|right]; intros ->;
      by apply Exists_nil in Hz || by apply Exists_nil in Hf.
Qed.

(** X21.  When an entry of [match_z] does not fit 64 bits, or every entry
    of [match_z] is a position inside the first frame and an entry of
    [match_f] does not fit 64 bits, [make_final_dfs] fails with
    OverflowError (frames of at most 2^63 rows). *)
Theorem make_final_dfs_overflow (df1 df2 : dataframe)
    (match_z match_f : list Z) :
  (Z.of_nat (length df1) ≤ 2 ^ 63)%Z → (Z.of_nat (length df2) ≤ 2 ^ 63)%Z →
  Exists (λ i, ¬ fits_64_bits i) match_z
  ∨ (Forall (in_bounds df1) match_z
     ∧ Exists (λ i, ¬ fits_64_bits i) match_f) →
  make_final_dfs iloc_wide df1 df2 match_z match_f = Raise OverflowError.
Proof.
  intros L1 L2 Hex. rewrite make_final_dfs_not_empty.
  - destruct Hex as [Hz|[Hall Hf]].
    + by rewrite iloc_list_OverflowError.
    + destruct (iloc_in_bounds df1 _ Hall) as (r1 & Hr1 & _).
      rewrite (iloc_list_Ok _ _ _ Hr1). cbn [bind].
      by rewrite iloc_list_OverflowError.
  - destruct Hex as [Hz|[_ Hf]]; [left|right]; intros ->;
      by apply Exists_nil in Hz || by apply Exists_nil in Hf.
Qed.

(** X14.  On positions inside the frames [make_final_dfs] returns as many
    rows as the longer of its two index lists has entries; row [k] holds the
    rows at the [k]-th position of each list, and the cells of a list that
    has no [k]-th entry are missing. *)
Theorem make_final_dfs_pads (df1 df2 : dataframe) (match_z match_f : list Z) :
  Forall (in_bounds df1) match_z → Forall (in_bounds df2) match_f →
  ∃ rows : list (option restaurant * option restaurant),
    make_final_dfs iloc_wide df1 df2 match_z match_f = Ok rows
    ∧ length rows = length match_z `max` length match_f
    ∧ ∀ k, k < length rows →
        rows !! k
        = Some (match_z !! k ≫= row_at df1, match_f !! k ≫= row_at df2).
Proof.
  intros Hz Hf.
  destruct (iloc_in_bounds df1 _ Hz) as (r1 & Hr1 & F1).
  destruct (iloc_in_bounds df2 _ Hf) as (r2 & Hr2 & F2).
  assert (make_final_dfs iloc_wide df1 df2 match_z match_f = Ok (concat_columns r1 r2))
    as ->.
  { destruct (decide (match_z = [] ∧ match_f = [])) as [[-> ->]|Hne].
    - apply Forall2_nil_inv_l in F1 as ->.
      by apply Forall2_nil_inv_l in F2 as ->.
    - rewrite make_final_dfs_not_empty,
        (iloc_list_Ok _ _ _ Hr1), (iloc_list_Ok _ _ _ Hr2); [done|].
      destruct match_z, match_f; auto; by destruct Hne. }
  pose proof (Forall2_length _ _ _ F1) as L1.
  pose proof (Forall2_length _ _ _ F2) as L2.
  eexists. split; [done|]. rewrite concat_columns_length, <- L1, <- L2.
  split; [done|]. intros k Hk. rewrite concat_columns_lookup.
  rewrite decide_True by lia. f_equal. f_equal.
  - destruct (match_z !! k) as [i|] eqn:Hi; simpl.
    + destruct (Forall2_lookup_l _ _ _ _ _ F1 Hi) as (d & -> & Hd). done.
    + apply lookup_ge_None. apply lookup_ge_None in Hi. lia.
  - destruct (match_f !! k) as [i|] eqn:Hi; simpl.
    + destruct (Forall2_lookup_l _ _ _ _ _ F2 Hi) as (d & -> & Hd). done.
    + apply lookup_ge_None. apply lookup_ge_None in Hi. lia.
Qed.
End SelectionFacts.

Lemma links_sample_in_bounds :
  Forall (λ link, in_bounds zagat_sample link.1 ∧ in_bounds fodors_sample link.2)
    links_sample.
Proof. repeat constructor; unfold in_bounds; simpl; lia. Qed.

Lemma create_matches_rows_witness :
  Forall (λ link, in_bounds zagat_sample link.1 ∧ in_bounds fodors_sample link.2)
    links_sample
  ∧ ∃ matches : list pair_row,
      create_matches zagat_sample fodors_sample links_sample = Ok matches
      ∧ Forall2 (λ link row,
           ∃ data_z data_f,
             row_at zagat_sample link.1 = Some data_z
             ∧ row_at fodors_sample link.2 = Some data_f
             ∧ row = joined_row data_z data_f)
          links_sample matches.
Proof.
  split; [exact links_sample_in_bounds|].
  exact (create_matches_rows zagat_sample fodors_sample links_sample
    links_sample_in_bounds).
Defined.

Lemma create_matches_out_of_bounds_witness :
  Exists (λ link, ¬ in_bounds zagat_sample link.1
                  ∨ ¬ in_bounds fodors_sample link.2) [(0, 5)%Z]
  ∧ create_matches zagat_sample fodors_sample [(0, 5)%Z] = Raise IndexError.
Proof.
  assert (Exists (λ link, ¬ in_bounds zagat_sample link.1
                          ∨ ¬ in_bounds fodors_sample link.2) [(0, 5)%Z])
    as Hex.
  { left. right. unfold in_bounds. simpl. lia. }
  split; [exact Hex|].
  exact (create_matches_out_of_bounds zagat_sample fodors_sample
    [(0, 5)%Z] Hex).
Defined.

Lemma make_final_dfs_out_of_bounds_witness :
  Forall fits_long [7%Z] ∧ Forall fits_long [0%Z]
  ∧ (Exists (λ i, ¬ in_bounds zagat_sample i) [7%Z]
     ∨ Exists (λ i, ¬ in_bounds fodors_sample i) [0%Z])
  ∧ make_final_dfs iloc zagat_sample fodors_sample [7%Z] [0%Z]
    = Raise IndexError.
Proof.
  assert (Forall fits_long [7%Z]) as Fz
    by (repeat constructor; unfold fits_long; lia).
  assert (Forall fits_long [0%Z]) as Ff
    by (repeat constructor; unfold fits_long; lia).
  assert (Exists (λ i, ¬ in_bounds zagat_sample i) [7%Z]) as Hex.
  { left. unfold in_bounds. simpl. lia. }
  split; [exact Fz|]. split; [exact Ff|]. split; [by left|].
  exact (make_final_dfs_out_of_bounds iloc zagat_sample fodors_sample
    [7%Z] [0%Z] Fz Ff (or_introl Hex)).
Defined.

Lemma make_final_dfs_overflow_witness :
  (Z.of_nat (length zagat_sample) ≤ 2 ^ 63)%Z
  ∧ (Z.of_nat (length fodors_sample) ≤ 2 ^ 63)%Z
  ∧ (Exists (λ i, ¬ fits_64_bits i) [(2 ^ 64)%Z]
     ∨ (Forall (in_bounds zagat_sample) [(2 ^ 64)%Z]
        ∧ Exists (λ i, ¬ fits_64_bits i) []))
  ∧ make_final_dfs iloc zagat_sample fodors_sample [(2 ^ 64)%Z] []
    = Raise OverflowError.
Proof.
  assert (Z.of_nat (length zagat_sample) ≤ 2 ^ 63)%Z as L1 by (simpl; lia).
  assert (Z.of_nat (length fodors_sample) ≤ 2 ^ 63)%Z as L2 by (simpl; lia).
  assert (Exists (λ i, ¬ fits_64_bits i) [(2 ^ 64)%Z]) as Hex.
  { left. unfold fits_64_bits. lia. }
  split; [exact L1|]. split; [exact L2|]. split; [by left|].
  exact (make_final_dfs_overflow iloc zagat_sample fodors_sample
    [(2 ^ 64)%Z] [] L1 L2 (or_introl Hex)).
Defined.

Lemma make_final_dfs_pads_witness :
  Forall (in_bounds zagat_sample) [0%Z; 1%Z]
  ∧ Forall (in_bounds fodors_sample) [0%Z]
  ∧ ∃ rows : list (option restaurant * option restaurant),
      make_final_dfs iloc zagat_sample fodors_sample [0%Z; 1%Z] [0%Z] = Ok rows
      ∧ length rows = length [0%Z; 1%Z] `max` length [0%Z]
      ∧ ∀ k, k < length rows →
          rows !! k
          = Some ([0%Z; 1%Z] !! k ≫= row_at zagat_sample,
                  [0%Z] !! k ≫= row_at fodors_sample).
Proof.
  assert (Forall (in_bounds zagat_sample) [0%Z; 1%Z]) as Hz.
  { repeat constructor; unfold in_bounds; simpl; lia. }
  assert (Forall (in_bounds fodors_sample) [0%Z]) as Hf.
  { repeat constructor; unfold in_bounds; simpl; lia. }
  split; [exact Hz|]. split; [exact Hf|].
  exact (make_final_dfs_pads iloc zagat_sample fodors_sample [0%Z; 1%Z] [0%Z]
    Hz Hf).
Defined.

(** ** The loop of [find_matches] and its output frames *)

Lemma candidates_length (zagat fodors : dataframe) :
  length (candidates false zagat fodors) = length zagat * length fodors.
Proof.
  unfold candidates. induction zagat as [|row_z zagat IH]; [done|].
  rewrite bind_cons, length_app, IH, length_fmap. simpl. lia.
Qed.

Section LoopExtras.
Variable iloc_wide : dataframe → list Z → result (list restaurant).
Variable jaro_winkler : string → string → Q.
Variable get_jw_category : Q → category.
Variables possible_tuples match_tuples unmatch_tuples : gset pattern.

Abbreviation label_of :=
  (pair_label jaro_winkler get_jw_category
     possible_tuples match_tuples unmatch_tuples).
Abbreviation loop :=
  (find_matches_loop jaro_winkler get_jw_category
     possible_tuples match_tuples unmatch_tuples).

Lemma loop_lists (c : label) (block : bool) (zagat fodors : dataframe) :
  zs_of c (loop block zagat fodors)
  = (λ rp, rp.1.1) <$> filter (λ rp, label_of rp = Some c)
                         (candidates block zagat fodors)
  ∧ fs_of c (loop block zagat fodors)
  = (λ rp, rp.2.1) <$> filter (λ rp, label_of rp = Some c)
                         (candidates block zagat fodors).
Proof.
  rewrite find_matches_loop_candidates.
  destruct (classify_fold_lists jaro_winkler get_jw_category
    possible_tuples match_tuples unmatch_tuples c
    (candidates block zagat fodors) lists_init) as [-> ->].
  by destruct c.
Qed.

Lemma label_filters_length (l : list ((Z * restaurant) * (Z * restaurant))) :
  length (filter (λ rp, label_of rp = Some Match) l)
  + length (filter (λ rp, label_of rp = Some Unmatch) l)
  + length (filter (λ rp, label_of rp = Some Possible) l)
  ≤ length l
  ∧ ((∀ rp, is_Some (label_of rp)) →
     length (filter (λ rp, label_of rp = Some Match) l)
     + length (filter (λ rp, label_of rp = Some Unmatch) l)
     + length (filter (λ rp, label_of rp = Some Possible) l)
     = length l).
Proof.
  induction l as [|rp l [IH1 IH2]]; [done|].
  rewrite !filter_cons. split.
  - destruct (label_of rp) as [[]|]; repeat case_decide; try done;
      cbn [length]; lia.
  - intros Hall. specialize (IH2 Hall). destruct (Hall rp) as [c Hc].
    rewrite Hc. destruct c; repeat case_decide; try done; cbn [length]; lia.
Qed.

Lemma label_filters_Permutation
    (l : list ((Z * restaurant) * (Z * restaurant))) :
  (∀ rp, is_Some (label_of rp)) →
  filter (λ rp, label_of rp = Some Match) l
  ++ filter (λ rp, label_of rp = Some Possible) l
  ++ filter (λ rp, label_of rp = Some Unmatch) l
  ≡ₚ l.
Proof.
  intros Hall. induction l as [|rp l IH]; [done|].
  rewrite !filter_cons. destruct (Hall rp) as [c Hc]. rewrite Hc.
  destruct c; repeat case_decide; try done.
  - simpl. by rewrite IH.
  - rewrite (assoc_L (++)), <- Permutation_middle, <- (assoc_L (++)).
    by rewrite IH.
  - cbn [app]. rewrite <- Permutation_middle. by rewrite IH.
Qed.

(** X15.  The loop keeps its lists in pairs: the z and f list of each
    classification have the same length.  A visited pair enters at most one
    classification, so the three lengths add up to at most the number of
    visited pairs, and to exactly that number when the three sets cover the
    domain; without blocking the visited pairs are the whole cross
    product. *)
Theorem find_matches_loop_lists (block_on_city : bool)
    (zagat fodors : dataframe) :
  length (match_z (loop block_on_city zagat fodors))
  = length (match_f (loop block_on_city zagat fodors))
  ∧ length (unmatch_z (loop block_on_city zagat fodors))
    = length (unmatch_f (loop block_on_city zagat fodors))
  ∧ length (poss_z (loop block_on_city zagat fodors))
    = length (poss_f (loop block_on_city zagat fodors))
  ∧ length (match_z (loop block_on_city zagat fodors))
    + length (unmatch_z (loop block_on_city zagat fodors))
    + length (poss_z (loop block_on_city zagat fodors))
    ≤ length (candidates block_on_city zagat fodors)
  ∧ (possible_tuples ∪ match_tuples ∪ unmatch_tuples = domain_set →
     length (match_z (loop block_on_city zagat fodors))
     + length (unmatch_z (loop block_on_city zagat fodors))
     + length (poss_z (loop block_on_city zagat fodors))
     = length (candidates block_on_city zagat fodors))
  ∧ length (candidates false zagat fodors) = length zagat * length fodors.
Proof.
  destruct (loop_lists Match block_on_city zagat fodors) as [Hmz Hmf].
  destruct (loop_lists Unmatch block_on_city zagat fodors) as [Huz Huf].
  destruct (loop_lists Possible block_on_city zagat fodors) as [Hpz Hpf].
  cbn [zs_of fs_of] in *.
  rewrite Hmz, Hmf, Huz, Huf, Hpz, Hpf, !length_fmap.
  destruct (label_filters_length (candidates block_on_city zagat fodors))
    as [Hle Heq].
  repeat split; [done| |apply candidates_length].
  intros Hcover. apply Heq. intros rp. by apply pair_label_on_partition.
Qed.

(** X16.  Blocking only removes: each list of index pairs built with
    blocking is a sublist, in the same order, of the list built without
    blocking, for any data frames and any three sets. *)
Theorem blocking_sublist (c : label) (zagat fodors : dataframe) :
  index_pairs c (loop true zagat fodors)
  `sublist_of` index_pairs c (loop false zagat fodors).
Proof.
  rewrite !index_pairs_loop, candidates_blocking.
  apply fmap_sublist.
  set (cands := candidates false zagat fodors).
  assert (filter (λ rp, label_of rp = Some c)
            (filter (λ rp, row_city rp.2 = row_city rp.1) cands)
          = filter (λ rp, row_city rp.2 = row_city rp.1)
              (filter (λ rp, label_of rp = Some c) cands)) as ->.
  { rewrite !list_filter_filter. apply filter_ext_elem. tauto. }
  apply sublist_filter.
Qed.

Lemma make_final_dfs_loop (c : label) (block : bool)
    (zagat fodors : dataframe) :
  positional zagat → positional fodors →
  make_final_dfs iloc_wide zagat fodors
    (zs_of c (loop block zagat fodors)) (fs_of c (loop block zagat fodors))
  = Ok (frame_rows (filter (λ rp, label_of rp = Some c)
                      (candidates block zagat fodors))).
Proof.
  intros Hz Hf. destruct (loop_lists c block zagat fodors) as [-> ->].
  set (L := filter _ _).
  assert (∀ rp, rp ∈ L → rp.1 ∈ zagat ∧ rp.2 ∈ fodors) as Hin.
  { intros rp [_ Hrp]%list_elem_of_filter.
    by eapply elem_of_candidates. }
  destruct (decide (L = [])) as [->|HL]; [done|].
  rewrite make_final_dfs_not_empty by (left; by destruct L).
  rewrite (iloc_list_Ok iloc_wide zagat _ _ (iloc_fmap_positional zagat L fst Hz
    ltac:(intros ? ?; by apply Hin))).
  rewrite (iloc_list_Ok iloc_wide fodors _ _ (iloc_fmap_positional fodors L snd Hf
    ltac:(intros ? ?; by apply Hin))).
  cbn [bind]. by rewrite concat_columns_fmap.
Qed.

(** X17.  When the index labels of both frames are their positions,
    [make_final_dfs] applied to the two lists the loop built for a
    classification returns, in the order visited, the pairs of rows that
    received the classification, each row complete. *)
Theorem make_final_dfs_returns_classified_rows (c : label)
    (block_on_city : bool) (zagat fodors : dataframe) :
  positional zagat → positional fodors →
  make_final_dfs iloc_wide zagat fodors
    (zs_of c (loop block_on_city zagat fodors))
    (fs_of c (loop block_on_city zagat fodors))
  = Ok (frame_rows (filter (λ rp, label_of rp = Some c)
                      (candidates block_on_city zagat fodors))).
Proof. apply make_final_dfs_loop. Qed.
End LoopExtras.

Section PipelineExtras.
Variable iloc_wide : dataframe → list Z → result (list restaurant).
Variable argsort : list Q → list nat.
Variable fl : Q → Q.
Variable jaro_winkler : string → string → Q.
Variable get_jw_category : Q → category.

Lemma find_matches_no_sample (zagat fodors : dataframe)
    (matches unmatches : list pair_row) (mu lambda_ : Q) (block : bool) :
  matches = [] ∨ unmatches = [] →
  find_matches argsort fl jaro_winkler get_jw_category
    zagat fodors matches unmatches mu lambda_ block
  = Raise ZeroDivisionError.
Proof.
  intros Hempty. unfold find_matches.
  destruct (decide (matches = [])) as [->|Hm]; [done|].
  destruct Hempty as [? | ->]; [done|].
  by destruct (tuple_probs_Ok jaro_winkler get_jw_category fl matches Hm)
    as (counts & -> & _).
Qed.

(** X18.  When either training sample is empty, [find_matches] fails with
    ZeroDivisionError, whatever the data frames and the bounds. *)
Theorem find_matches_empty_sample (zagat fodors : dataframe)
    (matches unmatches : list pair_row) (mu lambda_ : Q)
    (block_on_city : bool) :
  matches = [] ∨ unmatches = [] →
  find_matches argsort fl jaro_winkler get_jw_category
    zagat fodors matches unmatches mu lambda_ block_on_city
  = Raise ZeroDivisionError.
Proof. apply find_matches_no_sample. Qed.

(** X19.  With an empty list of known links the whole run fails with
    ZeroDivisionError: [create_matches] returns an empty sample without
    complaint and the failure comes from [tuple_probs]. *)
Theorem find_matches_tables_no_links (zagat fodors : dataframe)
    (unmatches : list pair_row) (mu lambda_ : Q) (block_on_city : bool) :
  find_matches_tables iloc_wide argsort fl jaro_winkler get_jw_category
    zagat fodors [] unmatches mu lambda_ block_on_city
  = Raise ZeroDivisionError.
Proof.
  unfold find_matches_tables. cbn [create_matches fmap list_fmap iloc mapM
    bind zip_with].
  rewrite find_matches_no_sample; [done|by left].
Qed.

(** X20.  With position labels, links inside the frames, at least one
    link and a non-empty second sample, the whole run returns three output
    frames, and together their rows are the pairs of rows the loop visited,
    each pair once: every candidate pair lands in exactly one frame. *)
Theorem find_matches_tables_cover_candidates (zagat fodors : dataframe)
    (known_links : list (Z * Z)) (unmatches : list pair_row)
    (mu lambda_ : Q) (block_on_city : bool) :
  argsort_spec argsort →
  positional zagat → positional fodors →
  known_links ≠ [] →
  Forall (λ link, in_bounds zagat link.1 ∧ in_bounds fodors link.2)
    known_links →
  unmatches ≠ [] →
  ∃ matches_out possible_matches_out unmatches_out,
    find_matches_tables iloc_wide argsort fl jaro_winkler get_jw_category
      zagat fodors known_links unmatches mu lambda_ block_on_city
    = Ok (matches_out, possible_matches_out, unmatches_out)
    ∧ matches_out ++ possible_matches_out ++ unmatches_out
      ≡ₚ frame_rows (candidates block_on_city zagat fodors).
Proof.
  intros Hsort Hz Hf Hlinks Hb Hu.
  destruct (create_matches_spec zagat fodors known_links Hb)
    as (matches & Hcm & _).
  assert (matches ≠ []) as Hm.
  { apply create_matches_length in Hcm. intros ->.
    destruct known_links; [done|]. simpl in Hcm. lia. }
  destruct (find_matches_classifies_every_pair argsort fl jaro_winkler
    get_jw_category zagat fodors matches unmatches mu lambda_ block_on_city
    Hsort Hm Hu) as (p & m & u & Hfm & Hall).
  unfold find_matches_tables. rewrite Hcm. cbn [bind]. rewrite Hfm.
  cbn [bind].
  pose proof (λ c, make_final_dfs_loop iloc_wide jaro_winkler get_jw_category p m u c
    block_on_city zagat fodors Hz Hf) as Hrows.
  pose proof (Hrows Match) as HM. pose proof (Hrows Unmatch) as HU.
  pose proof (Hrows Possible) as HP. cbn [zs_of fs_of] in HM, HU, HP.
  rewrite HM. cbn [bind]. rewrite HU. cbn [bind]. rewrite HP.
  cbn [bind]. eexists _, _, _. split; [done|].
  unfold frame_rows. rewrite <- !fmap_app.
  by rewrite (label_filters_Permutation jaro_winkler get_jw_category p m u
    _ Hall).
Qed.
End PipelineExtras.

Lemma zagat_sample_positional : positional zagat_sample.
Proof. reflexivity. Qed.

Lemma fodors_sample_positional : positional fodors_sample.
Proof. reflexivity. Qed.

Lemma find_matches_loop_lists_witness :
  (domain_set ∪ ∅ ∪ ∅ : gset pattern) = domain_set
  ∧ length (match_z (find_matches_loop jw_one cat_high domain_set ∅ ∅
                       true zagat_sample fodors_sample))
    + length (unmatch_z (find_matches_loop jw_one cat_high domain_set ∅ ∅
                           true zagat_sample fodors_sample))
    + length (poss_z (find_matches_loop jw_one cat_high domain_set ∅ ∅
                        true zagat_sample fodors_sample))
    = length (candidates true zagat_sample fodors_sample).
Proof.
  assert ((domain_set ∪ ∅ ∪ ∅ : gset pattern) = domain_set) as Hcover
    by set_solver.
  split; [exact Hcover|].
  exact (proj1 (proj2 (proj2 (proj2 (proj2
    (find_matches_loop_lists jw_one cat_high domain_set ∅ ∅
       true zagat_sample fodors_sample))))) Hcover).
Defined.

Lemma make_final_dfs_returns_classified_rows_witness :
  positional zagat_sample ∧ positional fodors_sample
  ∧ make_final_dfs iloc zagat_sample fodors_sample
      (zs_of Match (find_matches_loop jw_one cat_high ∅ {[t_hhh]} ∅
                      true zagat_sample fodors_sample))
      (fs_of Match (find_matches_loop jw_one cat_high ∅ {[t_hhh]} ∅
                      true zagat_sample fodors_sample))
    = Ok (frame_rows
            (filter (λ rp, pair_label jw_one cat_high ∅ {[t_hhh]} ∅ rp
                           = Some Match)
               (candidates true zagat_sample fodors_sample))).
Proof.
  split; [exact zagat_sample_positional|].
  split; [exact fodors_sample_positional|].
  exact (make_final_dfs_returns_classified_rows iloc jw_one cat_high
    ∅ {[t_hhh]} ∅ Match true zagat_sample fodors_sample
    zagat_sample_positional fodors_sample_positional).
Defined.

Lemma find_matches_empty_sample_witness :
  (([] : list pair_row) = [] ∨ [sample_row] = [])
  ∧ find_matches np_argsort id jw_one cat_high zagat_sample fodors_sample
      [] [sample_row] (1 # 10) (1 # 10) false
    = Raise ZeroDivisionError.
Proof.
  split; [by left|].
  exact (find_matches_empty_sample np_argsort id jw_one cat_high
    zagat_sample fodors_sample [] [sample_row] (1 # 10) (1 # 10) false
    (or_introl eq_refl)).
Defined.

Lemma find_matches_tables_cover_candidates_witness :
  argsort_spec np_argsort
  ∧ positional zagat_sample ∧ positional fodors_sample
  ∧ links_sample ≠ []
  ∧ [sample_row] ≠ []
  ∧ ∃ matches_out possible_matches_out unmatches_out,
      find_matches_tables iloc np_argsort id jw_one cat_high
        zagat_sample fodors_sample links_sample [sample_row]
        (1 # 10) (1 # 10) false
      = Ok (matches_out, possible_matches_out, unmatches_out)
      ∧ matches_out ++ possible_matches_out ++ unmatches_out
        ≡ₚ frame_rows (candidates false zagat_sample fodors_sample).
Proof.
  split; [exact np_argsort_spec|].
  split; [exact zagat_sample_positional|].
  split; [exact fodors_sample_positional|].
  split; [done|]. split; [done|].
  exact (find_matches_tables_cover_candidates iloc np_argsort id jw_one cat_high
    zagat_sample fodors_sample links_sample [sample_row]
    (1 # 10) (1 # 10) false np_argsort_spec
    zagat_sample_positional fodors_sample_positional
    ltac:(done) links_sample_in_bounds ltac:(done)).
Defined.

(** * Binary64 rounding and the cutoffs of [create_sets] *)

(** ** [binary64] rounds to nearest *)

Lemma round_half_even_floor (y : Q) :
  round_half_even y = Qfloor y ∨ round_half_even y = (Qfloor y + 1)%Z.
Proof.
  unfold round_half_even. cbv zeta.
  destruct (y - inject_Z (Qfloor y) ?= 1 # 2)%Q; [|by left|by right].
  destruct (Z.even (Qfloor y)); [by left|by right].
Qed.

Lemma round_half_even_error (y : Q) :
  (Qabs (inject_Z (round_half_even y) - y) <= 1 # 2)%Q.
Proof.
  pose proof (Qfloor_le y) as Hlo. pose proof (Qlt_floor y) as Hhi.
  rewrite inject_Z_plus in Hhi. change (inject_Z 1) with 1%Q in Hhi.
  unfold round_half_even. cbv zeta.
  destruct (y - inject_Z (Qfloor y) ?= 1 # 2)%Q eqn:Hc.
  - apply Qeq_alt in Hc.
    destruct (Z.even (Qfloor y)); rewrite ?inject_Z_plus;
      change (inject_Z 1) with 1%Q;
      apply Qabs_Qle_condition; split; lra.
  - apply Qlt_alt in Hc. apply Qabs_Qle_condition. split; lra.
  - apply Qgt_alt in Hc. rewrite inject_Z_plus.
    change (inject_Z 1) with 1%Q.
    apply Qabs_Qle_condition. split; lra.
Qed.

Lemma round_half_even_nonneg (y : Q) :
  (0 <= y)%Q → (0 <= round_half_even y)%Z.
Proof.
  intros Hy. assert (0 <= Qfloor y)%Z as Hf.
  { change 0%Z with (Qfloor 0). by apply Qfloor_resp_le. }
  destruct (round_half_even_floor y) as [-> | ->]; lia.
Qed.

Lemma two_neq_0 : ¬ (2 == 0)%Q.
Proof. intros H. by vm_compute in H. Qed.

Lemma binade_le (y : Q) : (0 < y)%Q → (2 ^ binade y <= y)%Q.
Proof.
  intros Hy. unfold binade. cbv zeta.
  destruct (Qle_bool _ _) eqn:Hle; [by apply Qle_bool_iff|].
  destruct y as [n d]. cbn [Qnum Qden] in *.
  assert (0 < n)%Z as Hn.
  { unfold Qlt in Hy. simpl in Hy. lia. }
  pose proof (Z.log2_spec n Hn) as [Ha _].
  pose proof (Z.log2_spec (Z.pos d) ltac:(lia)) as [_ Hb].
  pose proof (Z.log2_nonneg n) as Ha0.
  pose proof (Z.log2_nonneg (Z.pos d)) as Hb0.
  set (a := Z.log2 n) in *. set (b := Z.log2 (Z.pos d)) in *.
  replace (a - b - 1)%Z with (a - Z.succ b)%Z by lia.
  rewrite (Qpower_minus 2 a (Z.succ b) two_neq_0).
  rewrite <- (Zpower_Qpower 2 a Ha0), <- (Zpower_Qpower 2 (Z.succ b)) by lia.
  rewrite (Qmake_Qdiv n d).
  assert (0 < inject_Z (2 ^ Z.succ b))%Q as HB.
  { rewrite <- (Zlt_Qlt 0). lia. }
  assert (0 < inject_Z (Z.pos d))%Q as HD.
  { rewrite <- (Zlt_Qlt 0). lia. }
  apply Qle_shift_div_l; [done|].
  unfold Qdiv. rewrite <- Qmult_assoc, (Qmult_comm (/ _)), Qmult_assoc.
  apply Qle_shift_div_r; [done|].
  rewrite <- !inject_Z_mult. rewrite <- Zle_Qle.
  apply Z.mul_le_mono_nonneg; lia.
Qed.

Lemma binade_lt (y : Q) : (0 < y)%Q → (y < 2 ^ (binade y + 1))%Q.
Proof.
  intros Hy. unfold binade. cbv zeta.
  destruct (Qle_bool _ _) eqn:Hle.
  - destruct y as [n d]. cbn [Qnum Qden] in *.
    assert (0 < n)%Z as Hn.
    { unfold Qlt in Hy. simpl in Hy. lia. }
    pose proof (Z.log2_spec n Hn) as [_ Ha].
    pose proof (Z.log2_spec (Z.pos d) ltac:(lia)) as [Hb _].
    pose proof (Z.log2_nonneg n) as Ha0.
    pose proof (Z.log2_nonneg (Z.pos d)) as Hb0.
    set (a := Z.log2 n) in *. set (b := Z.log2 (Z.pos d)) in *.
    replace (a - b + 1)%Z with (Z.succ a - b)%Z by lia.
    rewrite (Qpower_minus 2 (Z.succ a) b two_neq_0).
    rewrite <- (Zpower_Qpower 2 b Hb0), <- (Zpower_Qpower 2 (Z.succ a)) by lia.
    rewrite (Qmake_Qdiv n d).
    assert (0 < inject_Z (2 ^ b))%Q as HB.
    { rewrite <- (Zlt_Qlt 0). lia. }
    assert (0 < inject_Z (Z.pos d))%Q as HD.
    { rewrite <- (Zlt_Qlt 0). lia. }
    apply Qlt_shift_div_r; [done|].
    unfold Qdiv. rewrite <- Qmult_assoc, (Qmult_comm (/ _)), Qmult_assoc.
    apply Qlt_shift_div_l; [done|].
    rewrite <- !inject_Z_mult. rewrite <- Zlt_Qlt.
    apply Z.le_lt_trans with (n * Z.pos d)%Z;
      [apply Z.mul_le_mono_nonneg_l; lia|apply Z.mul_lt_mono_pos_r; lia].
  - replace (Z.log2 (Qnum y) - Z.log2 (Z.pos (Qden y)) - 1 + 1)%Z
      with (Z.log2 (Qnum y) - Z.log2 (Z.pos (Qden y)))%Z by lia.
    apply Qnot_le_lt. intros H. apply Qle_bool_iff in H. congruence.
Qed.

Lemma binary64_quantum (e : Z) (x : Q) :
  (0 <= x)%Q → (2 ^ e <= x)%Q →
  ((1 # 2) * 2 ^ Z.max (e - 52) (-1074) <= eps64 * x + eta64)%Q.
Proof.
  intros Hx He.
  destruct (Z.max_spec (e - 52) (-1074)) as [[_ ->] | [_ ->]].
  - assert ((1 # 2) * 2 ^ (-1074) == eta64)%Q as -> by (by vm_compute).
    assert (0 <= eps64)%Q by (by vm_compute). nra.
  - replace (e - 52)%Z with (e + -52)%Z by lia.
    rewrite (Qpower_plus 2 e (-52) two_neq_0).
    assert ((2 ^ (-52) == 2 * eps64)%Q) as -> by (by vm_compute).
    assert (0 <= eta64)%Q by (by vm_compute).
    assert (0 <= eps64)%Q by (by vm_compute). nra.
Qed.

Lemma binary64_rounds (x : Q) :
  (0 <= x)%Q →
  (0 <= binary64 x)%Q ∧ (Qabs (binary64 x - x) <= eps64 * x + eta64)%Q.
Proof.
  intros Hx. unfold binary64.
  destruct (Qeq_bool x 0) eqn:Hz.
  { apply Qeq_bool_iff in Hz. split; [lra|].
    assert (0 <= eta64)%Q by (by vm_compute).
    assert (0 <= eps64)%Q by (by vm_compute).
    apply Qabs_Qle_condition. split; nra. }
  assert (0 < x)%Q as Hpos.
  { apply Qeq_bool_false in Hz. lra. }
  cbv zeta.
  pose proof (Qabs_pos x Hx) as Habs.
  assert (2 ^ binade (Qabs x) <= x)%Q as He.
  { rewrite <- Habs at 2. apply binade_le. by rewrite Habs. }
  set (e := binade (Qabs x)) in *.
  pose proof (binary64_quantum e x Hx He) as Hq.
  set (q := Z.max (e - 52) (-1074)) in *.
  assert (0 < 2 ^ q)%Q as Hpow by (apply Qpower_0_lt; lra).
  set (y := (x / 2 ^ q)%Q).
  assert (x == y * 2 ^ q)%Q as Hxy.
  { unfold y. field. lra. }
  assert (0 <= y)%Q as Hy.
  { unfold y. apply Qle_shift_div_l; [done|]. lra. }
  pose proof (round_half_even_nonneg y Hy) as Hm.
  pose proof (round_half_even_error y) as Herr.
  set (m := round_half_even y) in *.
  assert (0 <= inject_Z m)%Q as Hm' by (by rewrite <- (Zle_Qle 0)).
  split; [nra|].
  apply Qabs_Qle_condition in Herr as [Hlo Hhi].
  apply Qabs_Qle_condition. split.
  - assert (- ((1 # 2) * 2 ^ q) <= inject_Z m * 2 ^ q - x)%Q; [|lra].
    rewrite Hxy at 1. simpl in Hlo. nra.
  - assert (inject_Z m * 2 ^ q - x <= (1 # 2) * 2 ^ q)%Q; [|lra].
    rewrite Hxy at 1. nra.
Qed.

Lemma binary64_sum_rounding_binary64 : binary64_sum_rounding binary64.
Proof. intros q [Hq _]. by apply binary64_rounds. Qed.

(** The values of some decimal literals, as [float.as_integer_ratio] gives
    them; a tie goes to the even neighbour; below the normal range the step
    is 2^-1074. *)
Example binary64_values :
  Qred (binary64 (1 # 10)) = 3602879701896397 # 36028797018963968
  ∧ Qred (binary64 (3 # 10)) = 5404319552844595 # 18014398509481984
  ∧ Qred (binary64 (6 # 10)) = 5404319552844595 # 9007199254740992
  ∧ Qred (binary64 (1 # 2)) = 1 # 2
  ∧ Qred (binary64 (-1 # 3)) = -6004799503160661 # 18014398509481984
  ∧ Qred (binary64 (inject_Z (2 ^ 53 + 1))) = inject_Z (2 ^ 53)
  ∧ Qred (binary64 (inject_Z (2 ^ 53 + 3))) = inject_Z (2 ^ 53 + 4)
  ∧ (binary64 (3 # 2 ^ 1076) == 1 # 2 ^ 1074)%Q
  ∧ (binary64 (1 # 2 ^ 1075) == 0)%Q.
Proof. repeat split; by vm_compute. Qed.

(** ** Rounding error of the running sums *)

Lemma Qsum_snoc (l : list Q) (x : Q) : (Qsum (l ++ [x]) == Qsum l + x)%Q.
Proof.
  induction l as [|y l IH]; cbn [app]; rewrite ?Qsum_cons; [|rewrite IH];
    unfold Qsum; simpl; lra.
Qed.

Lemma step_slack_nonneg : (0 <= step_slack)%Q.
Proof. by vm_compute. Qed.

Lemma NoDup_length_domain (l : list pattern) : NoDup l → length l ≤ 27.
Proof.
  intros Hnd. rewrite <- domain_length. apply submseteq_length.
  apply NoDup_submseteq; [done|]. intros t _. apply domain_complete.
Qed.

Lemma length_slack (n : nat) :
  n ≤ 27 → (inject_Z (Z.of_nat n) * step_slack <= rounding_slack)%Q.
Proof.
  intros Hn. unfold rounding_slack.
  pose proof step_slack_nonneg as Hs.
  assert (inject_Z (Z.of_nat n) <= 27)%Q as Hle.
  { change 27%Q with (inject_Z 27). rewrite <- Zle_Qle. lia. }
  nra.
Qed.

Section RoundingFacts.
Variable fl : Q → Q.
Hypothesis fl_rounds : binary64_sum_rounding fl.

Lemma running_snoc (freqs : dict Q) (c : Q) (l : list pattern) (t : pattern) :
  running fl freqs c (l ++ [t])
  = fadd fl (running fl freqs c l) (freq_of freqs t).
Proof. unfold running. by rewrite foldl_app. Qed.

Lemma fadd_error (a b : Q) :
  (0 <= a + b <= 2)%Q →
  (0 <= fadd fl a b)%Q
  ∧ (a + b - step_slack <= fadd fl a b <= a + b + step_slack)%Q.
Proof.
  intros Hx. destruct (fl_rounds (a + b)%Q Hx) as [Hnn Herr].
  unfold fadd. split; [done|].
  apply Qabs_Qle_condition in Herr as [Hlo Hhi].
  assert (0 <= eps64)%Q by (by vm_compute).
  unfold step_slack. split; nra.
Qed.

(** A walk whose running sums stay at most [level]: the exact sum is above
    the running sum by at most one step of slack per addition. *)
Lemma running_shortfall (level : Q) (freqs : dict Q) (l : list pattern) :
  (level <= 1)%Q →
  Forall (λ t, (0 <= freq_of freqs t <= 1)%Q) l →
  (∀ k, 0 < k ≤ length l → (running fl freqs 0 (take k l) <= level)%Q) →
  (0 <= running fl freqs 0 l)%Q
  ∧ (Qsum (freq_of freqs <$> l)
     <= running fl freqs 0 l + inject_Z (Z.of_nat (length l)) * step_slack)%Q.
Proof.
  intros Hlevel. induction l as [|t l IH] using rev_ind; intros Hunit Hpre.
  - unfold running, Qsum. cbn [foldl fmap list_fmap foldr length].
    change (inject_Z (Z.of_nat 0)) with 0%Q. split; lra.
  - apply Forall_app in Hunit as [Hunit Ht].
    rewrite Forall_singleton in Ht.
    destruct IH as [Hnn Hsum]; [done| |].
    { intros k Hk. specialize (Hpre k). rewrite take_app_le in Hpre by lia.
      apply Hpre. rewrite length_app. simpl. lia. }
    assert (running fl freqs 0 l <= 1)%Q as Hr.
    { destruct (decide (l = [])) as [->|Hne].
      - unfold running. cbn [foldl]. lra.
      - specialize (Hpre (length l)). rewrite take_app_length in Hpre.
        eapply Qle_trans; [apply Hpre|done].
        rewrite length_app. destruct l; [done|]. simpl. lia. }
    rewrite running_snoc.
    destruct Ht as [Ht0 Ht1].
    destruct (fadd_error (running fl freqs 0 l) (freq_of freqs t))
      as [Hnn' [Hlo Hhi]]; [split; lra|].
    split; [done|].
    rewrite fmap_app, fmap_cons, fmap_nil, Qsum_snoc.
    rewrite length_app, Nat2Z.inj_add, inject_Z_plus.
    change (inject_Z (Z.of_nat (length [t]))) with 1%Q. lra.
Qed.

(** A walk over entries that are not negative: the running sum is above the
    exact sum by at most one step of slack per addition, as long as the sums
    stay at most 2. *)
Lemma running_excess (freqs : dict Q) (l : list pattern) :
  Forall (λ t, (0 <= freq_of freqs t)%Q) l →
  (Qsum (freq_of freqs <$> l) + inject_Z (Z.of_nat (length l)) * step_slack
   <= 2)%Q →
  (0 <= Qsum (freq_of freqs <$> l))%Q
  ∧ (0 <= running fl freqs 0 l)%Q
  ∧ (running fl freqs 0 l
     <= Qsum (freq_of freqs <$> l)
        + inject_Z (Z.of_nat (length l)) * step_slack)%Q.
Proof.
  pose proof step_slack_nonneg as Hs.
  induction l as [|t l IH] using rev_ind; intros Hnn Hle.
  - unfold running, Qsum. cbn [foldl fmap list_fmap foldr length].
    change (inject_Z (Z.of_nat 0)) with 0%Q. repeat split; lra.
  - apply Forall_app in Hnn as [Hnn Ht]. rewrite Forall_singleton in Ht.
    rewrite fmap_app, fmap_cons, fmap_nil, Qsum_snoc in *.
    rewrite length_app, Nat2Z.inj_add, inject_Z_plus in *.
    change (inject_Z (Z.of_nat (length [t]))) with 1%Q in *.
    assert (0 <= inject_Z (Z.of_nat (length l)))%Q as Hlen.
    { rewrite <- (Zle_Qle 0). lia. }
    destruct IH as (Hs0 & Hr0 & Hr); [done|nra|].
    rewrite running_snoc.
    destruct (fadd_error (running fl freqs 0 l) (freq_of freqs t))
      as [Hnn' [Hlo Hhi]]; [split; nra|].
    repeat split; [lra|done|lra].
Qed.
End RoundingFacts.

(** ** The cutoff sets under rounding *)

Lemma unit_freq_of (freqs : dict Q) (t : pattern) :
  unit_table freqs → (0 <= freq_of freqs t <= 1)%Q.
Proof.
  intros Hunit. destruct (decide (t ∈ keys freqs)) as [Hin|Hout].
  - apply (Hunit t). by apply freq_of_elem.
  - apply dict_lookup_None in Hout. unfold freq_of. rewrite Hout. simpl.
    split; lra.
Qed.

Lemma nonneg_freq_of (freqs : dict Q) (t : pattern) :
  nonneg_table freqs → (0 <= freq_of freqs t)%Q.
Proof.
  intros Hnn. destruct (decide (t ∈ keys freqs)) as [Hin|Hout].
  - apply (Hnn t). by apply freq_of_elem.
  - apply dict_lookup_None in Hout. unfold freq_of. rewrite Hout. simpl. lra.
Qed.

Section CutoffRounding.
Variable fl : Q → Q.
Hypothesis fl_rounds : binary64_sum_rounding fl.

(** The set of a run whose running sums stay at most [level]: its exact
    sum is at most [level] plus the slack. *)
Lemma cutoff_sum_slack (level : Q) (freqs : dict Q) (pre : list pattern) :
  unit_table freqs → NoDup (keys freqs) → (level <= 1)%Q →
  NoDup pre → Forall (λ t, t ∈ keys freqs) pre →
  (∀ k, 0 < k ≤ length pre →
     (running fl freqs 0 (take k pre) <= level)%Q) →
  (sum_over freqs (list_to_set pre)
   <= running fl freqs 0 pre + rounding_slack)%Q.
Proof.
  intros Hunit Hnd Hlevel Hpre Hk Hrun.
  rewrite (sum_over_list freqs pre Hnd Hpre Hk).
  destruct (running_shortfall fl fl_rounds level freqs pre Hlevel) as [_ Hs];
    [|done|].
  { apply Forall_forall. intros t _. by apply unit_freq_of. }
  pose proof (length_slack (length pre) (NoDup_length_domain pre Hpre)). lra.
Qed.

(** The running sums of a walk over a table without negative entries stay
    at most the sum of the table plus the slack. *)
Lemma running_le_total (freqs : dict Q) (ranked : list pattern) (k : nat) :
  nonneg_table freqs → NoDup (keys freqs) →
  NoDup ranked → Forall (λ t, t ∈ keys freqs) ranked →
  (Qsum (values freqs) + rounding_slack <= 2)%Q →
  (running fl freqs 0 (take k ranked)
   <= Qsum (values freqs) + rounding_slack)%Q.
Proof.
  intros Hnn Hnd Hr Hk Hle.
  assert (NoDup (take k ranked)) as Hr'.
  { rewrite <- (take_drop k ranked) in Hr. by apply NoDup_app in Hr as [? _]. }
  assert (Qsum (freq_of freqs <$> take k ranked) <= Qsum (values freqs))%Q
    as Hsum.
  { rewrite <- sum_over_list; [by apply Qsum_filter_le|done|done|].
    by apply Forall_take. }
  pose proof (length_slack _ (NoDup_length_domain _ Hr')) as Hlen.
  destruct (running_excess fl fl_rounds freqs (take k ranked))
    as (_ & _ & Hrun); [|lra|lra].
  apply Forall_forall. intros t _. by apply nonneg_freq_of.
Qed.
End CutoffRounding.

Section CreateSetsRounding.
Variable argsort : list Q → list nat.
Variable fl : Q → Q.
Variables freqs_m freqs_u : dict Q.
Variables mu lmbda : Q.

(** C2, amended.  On valid input (tables over the full domain with entries
    in [0, 1], bounds in [0, 1]) and with binary64 rounding, [match_tuples]
    is the set of a prefix of the ranked list on which the running sum of
    u-table frequencies, accumulated in ranked order as [sort_by_cum_pr]
    does, is at most [mu]; the exact sum of the u-table frequencies over
    [match_tuples] is at most [mu] plus the rounding slack, 27 additions
    with an error of at most 2^-52 + 2^-1075 each.  Likewise for
    [unmatch_tuples_full], the bottom cutoff before the subtraction, with
    the reversed list, the m-table and [lmbda].  In arithmetic without
    rounding error the exact sums are at most the bounds. *)
Theorem create_sets_cumulative_bounds :
  argsort_spec argsort → binary64_sum_rounding fl →
  full_domain freqs_m → full_domain freqs_u →
  unit_table freqs_m → unit_table freqs_u →
  (0 <= mu <= 1)%Q → (0 <= lmbda <= 1)%Q →
  ∃ (e : create_sets_locals) (pre_m pre_u : list pattern),
    create_sets_body argsort fl freqs_m freqs_u mu lmbda = Ok e
    ∧ create_sets argsort fl freqs_m freqs_u mu lmbda
      = Ok (cs_possible_tuples e, cs_match_tuples e, cs_unmatch_tuples e)
    ∧ cs_unmatch_tuples e = cs_unmatch_tuples_full e ∖ cs_match_tuples e
    ∧ pre_m `prefix_of` cs_ranked_built e
    ∧ cs_match_tuples e = list_to_set pre_m
    ∧ (running fl freqs_u 0 pre_m <= mu)%Q
    ∧ (sum_over freqs_u (cs_match_tuples e) <= mu + rounding_slack)%Q
    ∧ pre_u `prefix_of` reverse (cs_ranked_built e)
    ∧ cs_unmatch_tuples_full e = list_to_set pre_u
    ∧ (running fl freqs_m 0 pre_u <= lmbda)%Q
    ∧ (sum_over freqs_m (cs_unmatch_tuples_full e) <= lmbda + rounding_slack)%Q
    ∧ (fl_exact fl →
       (sum_over freqs_u (cs_match_tuples e) <= mu)%Q
       ∧ (sum_over freqs_m (cs_unmatch_tuples_full e) <= lmbda)%Q).
Proof.
  intros Hsort Hfl Hm Hu Um Uu [Hmu0 Hmu1] [Hlm0 Hlm1].
  pose proof (full_domain_NoDup _ Hm) as Hndm.
  pose proof (full_domain_NoDup _ Hu) as Hndu.
  assert (∀ t, t ∈ keys freqs_u → t ∈ keys freqs_m) as Hkeys
    by (intros t _; by apply full_domain_keys).
  destruct (create_sets_body_spec argsort fl freqs_m freqs_u mu lmbda
    Hsort Hkeys)
    as (sorted & p1 & q1 & p2 & q2 & Hperm & _ & _ & _ & _ & _ & Hc1 & Hc2
        & Hrun).
  pose proof (ranked_NoDup fl freqs_m freqs_u sorted Hndu Hperm) as Hnd.
  set (ranked := front (triage_of fl freqs_m triage_init freqs_u) ++ sorted)
    in *.
  assert (Forall (λ t, t ∈ keys freqs_u) ranked) as Hku.
  { apply Forall_forall. intros t _. by apply full_domain_keys. }
  assert (Forall (λ t, t ∈ keys freqs_m) (reverse ranked)) as Hkm.
  { apply Forall_forall. intros t _. by apply full_domain_keys. }
  destruct (cum_loop_greedy fl mu freqs_u ranked 0%Q ∅ Hku)
    as (pre1 & post1 & Heq1 & Hg1 & Hpre1 & _).
  destruct (cum_loop_greedy fl lmbda freqs_m (reverse ranked) 0%Q ∅ Hkm)
    as (pre2 & post2 & Heq2 & Hg2 & Hpre2 & _).
  rewrite Hc1, union_empty_l_L in Hg1. injection Hg1 as Hg1.
  rewrite Hc2, union_empty_l_L in Hg2. injection Hg2 as Hg2.
  rewrite Hg1, Hg2 in Hrun.
  assert (NoDup pre1) as Hnd1.
  { rewrite Heq1 in Hnd. by apply NoDup_app in Hnd as [? _]. }
  assert (NoDup pre2) as Hnd2.
  { rewrite <- reverse_Permutation, Heq2 in Hnd.
    by apply NoDup_app in Hnd as [? _]. }
  assert (Forall (λ t, t ∈ keys freqs_u) pre1) as Hk1.
  { apply Forall_forall. intros t _. by apply full_domain_keys. }
  assert (Forall (λ t, t ∈ keys freqs_m) pre2) as Hk2.
  { apply Forall_forall. intros t _. by apply full_domain_keys. }
  assert (running fl freqs_u 0 pre1 <= mu)%Q as Hr1.
  { destruct (decide (pre1 = [])) as [->|Hne]; [done|].
    specialize (Hpre1 (length pre1)). rewrite firstn_all in Hpre1.
    apply Hpre1. destruct pre1; [done|]. simpl. lia. }
  assert (running fl freqs_m 0 pre2 <= lmbda)%Q as Hr2.
  { destruct (decide (pre2 = [])) as [->|Hne]; [done|].
    specialize (Hpre2 (length pre2)). rewrite firstn_all in Hpre2.
    apply Hpre2. destruct pre2; [done|]. simpl. lia. }
  pose proof (cutoff_sum_slack fl Hfl mu freqs_u pre1 Uu Hndu Hmu1 Hnd1 Hk1
    Hpre1) as Hs1.
  pose proof (cutoff_sum_slack fl Hfl lmbda freqs_m pre2 Um Hndm Hlm1 Hnd2
    Hk2 Hpre2) as Hs2.
  exists (locals_of (triage_of fl freqs_m triage_init freqs_u) ranked
            (list_to_set pre1) (list_to_set pre2)), pre1, pre2.
  unfold locals_of.
  cbn [cs_match_tuples cs_unmatch_tuples_full cs_unmatch_tuples
       cs_ranked_built].
  split; [exact Hrun|].
  split; [by apply (create_sets_of_body argsort fl freqs_m freqs_u mu lmbda)|].
  split; [done|].
  split; [by exists post1|]. split; [done|]. split; [done|].
  split; [lra|].
  split; [by exists post2|]. split; [done|]. split; [done|].
  split; [lra|].
  intros Hex. split.
  - rewrite (sum_over_list freqs_u pre1 Hndu Hnd1 Hk1).
    by rewrite (running_exact fl freqs_u pre1 0 Hex), Qplus_0_l in Hr1.
  - rewrite (sum_over_list freqs_m pre2 Hndm Hnd2 Hk2).
    by rewrite (running_exact fl freqs_m pre2 0 Hex), Qplus_0_l in Hr2.
Qed.

(** X10.  With binary64 rounding, on a u-table without negative entries
    whose entries sum to at most [mu] less the rounding slack (and [mu] at
    most 2), every ranked tuple is in [match_tuples], [unmatch_tuples] is
    empty whatever [lmbda] is, and [possible_tuples] holds the tuples of
    frequency 0 in both tables only. *)
Theorem create_sets_mu_covers_all :
  argsort_spec argsort → binary64_sum_rounding fl →
  NoDup (keys freqs_u) → (∀ t, t ∈ keys freqs_u → t ∈ keys freqs_m) →
  nonneg_table freqs_u →
  (Qsum (values freqs_u) + rounding_slack <= mu)%Q → (mu <= 2)%Q →
  ∃ e : create_sets_locals,
    create_sets_body argsort fl freqs_m freqs_u mu lmbda = Ok e
    ∧ create_sets argsort fl freqs_m freqs_u mu lmbda
      = Ok (cs_possible_tuples e, cs_match_tuples e, cs_unmatch_tuples e)
    ∧ cs_match_tuples e = list_to_set (cs_ranked_built e)
    ∧ cs_unmatch_tuples e = ∅
    ∧ cs_possible_tuples e = possible_tuples (cs_triage e).
Proof.
  intros Hsort Hfl Hnd Hkeys Hnn Hmu Hmu2.
  destruct (create_sets_body_spec argsort fl freqs_m freqs_u mu lmbda
    Hsort Hkeys)
    as (sorted & p1 & q1 & p2 & q2 & Hperm & _ & Hs2 & _ & _ & _ & Hm & _
        & Hrun).
  pose proof (ranked_NoDup fl freqs_m freqs_u sorted Hnd Hperm) as Hndr.
  set (ranked := front (triage_of fl freqs_m triage_init freqs_u) ++ sorted)
    in *.
  assert (Forall (λ t, t ∈ keys freqs_u) ranked) as Hku.
  { apply Forall_forall. intros t Ht.
    apply (triage_keys fl freqs_m freqs_u). by rewrite <- Hperm. }
  rewrite (cum_loop_all fl mu freqs_u _ ∅ Hku) in Hm.
  2:{ intros k _. eapply Qle_trans; [|exact Hmu].
      apply running_le_total; [done..|lra]. }
  rewrite union_empty_l_L in Hm. injection Hm as Hm.
  eexists. split; [exact Hrun|].
  split; [by apply (create_sets_of_body argsort fl freqs_m freqs_u mu lmbda)|].
  unfold locals_of.
  cbn [cs_match_tuples cs_ranked_built cs_unmatch_tuples cs_possible_tuples
       cs_triage].
  rewrite <- Hm.
  assert ((list_to_set p2 : gset pattern) ⊆ list_to_set ranked) as Hsub.
  { rewrite <- (list_to_set_reverse ranked), Hs2, list_to_set_app_L.
    set_solver. }
  rewrite list_to_set_reverse.
  split; [done|]. split; set_solver.
Qed.
End CreateSetsRounding.

Lemma point_table_unit (p : pattern) : unit_table (point_table p).
Proof.
  intros t v [t' [[= -> ->] _]]%list_elem_of_fmap.
  case_decide; split; lra.
Qed.

Lemma create_sets_cumulative_bounds_witness :
  argsort_spec np_argsort ∧ binary64_sum_rounding binary64
  ∧ full_domain (point_table t_hhh) ∧ full_domain (point_table t_lll)
  ∧ unit_table (point_table t_hhh) ∧ unit_table (point_table t_lll)
  ∧ (0 <= 1 # 10 <= 1)%Q
  ∧ ∃ (e : create_sets_locals) (pre_m pre_u : list pattern),
      create_sets_body np_argsort binary64 (point_table t_hhh)
        (point_table t_lll) (1 # 10) (1 # 10) = Ok e
      ∧ create_sets np_argsort binary64 (point_table t_hhh)
          (point_table t_lll) (1 # 10) (1 # 10)
        = Ok (cs_possible_tuples e, cs_match_tuples e, cs_unmatch_tuples e)
      ∧ cs_unmatch_tuples e = cs_unmatch_tuples_full e ∖ cs_match_tuples e
      ∧ pre_m `prefix_of` cs_ranked_built e
      ∧ cs_match_tuples e = list_to_set pre_m
      ∧ (running binary64 (point_table t_lll) 0 pre_m <= 1 # 10)%Q
      ∧ (sum_over (point_table t_lll) (cs_match_tuples e)
         <= (1 # 10) + rounding_slack)%Q
      ∧ pre_u `prefix_of` reverse (cs_ranked_built e)
      ∧ cs_unmatch_tuples_full e = list_to_set pre_u
      ∧ (running binary64 (point_table t_hhh) 0 pre_u <= 1 # 10)%Q
      ∧ (sum_over (point_table t_hhh) (cs_unmatch_tuples_full e)
         <= (1 # 10) + rounding_slack)%Q
      ∧ (fl_exact binary64 →
         (sum_over (point_table t_lll) (cs_match_tuples e) <= 1 # 10)%Q
         ∧ (sum_over (point_table t_hhh) (cs_unmatch_tuples_full e)
            <= 1 # 10)%Q).
Proof.
  assert (0 <= 1 # 10 <= 1)%Q as Hb by (split; by vm_compute).
  split; [exact np_argsort_spec|].
  split; [exact binary64_sum_rounding_binary64|].
  split; [exact (point_table_full_domain t_hhh)|].
  split; [exact (point_table_full_domain t_lll)|].
  split; [exact (point_table_unit t_hhh)|].
  split; [exact (point_table_unit t_lll)|].
  split; [exact Hb|].
  exact (create_sets_cumulative_bounds np_argsort binary64
    (point_table t_hhh) (point_table t_lll) (1 # 10) (1 # 10)
    np_argsort_spec binary64_sum_rounding_binary64
    (point_table_full_domain t_hhh) (point_table_full_domain t_lll)
    (point_table_unit t_hhh) (point_table_unit t_lll) Hb Hb).
Defined.

(** C2, as claimed, fails in binary64: for the tables of two samples of ten
    rows and [mu = 0.6], [match_tuples] holds three tuples whose
    u-frequencies 0.3, 0.2 and 0.1 have the running sum 0.6 in binary64 and
    an exact sum above [mu] by 2^-55. *)
Lemma create_sets_exact_sum_exceeds_mu :
  tuple_probs jw_equal cat_equal binary64 matches_ten = Ok freqs_m_ten
  ∧ tuple_probs jw_equal cat_equal binary64 unmatches_ten = Ok freqs_u_ten
  ∧ (0 <= binary64 (6 # 10) <= 1)%Q ∧ (0 <= binary64 (1 # 10) <= 1)%Q
  ∧ create_sets np_argsort binary64 freqs_m_ten freqs_u_ten
      (binary64 (6 # 10)) (binary64 (1 # 10))
    = Ok (domain_set ∖ {[t_hhh; t_hhl; t_hlh; t_lll]},
          {[t_hhh; t_hhl; t_hlh]}, {[t_lll]})
  ∧ (running binary64 freqs_u_ten 0 [t_hhh; t_hhl; t_hlh]
     == binary64 (6 # 10))%Q
  ∧ (sum_over freqs_u_ten {[t_hhh; t_hhl; t_hlh]}
     == binary64 (6 # 10) + (1 # 2 ^ 55))%Q
  ∧ ¬ (sum_over freqs_u_ten {[t_hhh; t_hhl; t_hlh]} <= binary64 (6 # 10))%Q.
Proof.
  split; [by vm_compute|]. split; [by vm_compute|].
  split; [split; by vm_compute|]. split; [split; by vm_compute|].
  split; [by vm_compute|]. split; [by vm_compute|]. split; [by vm_compute|].
  intros H. by vm_compute in H.
Qed.

Lemma create_sets_mu_covers_all_witness :
  argsort_spec np_argsort ∧ binary64_sum_rounding binary64
  ∧ NoDup (keys (point_table t_lll))
  ∧ nonneg_table (point_table t_lll)
  ∧ (Qsum (values (point_table t_lll)) + rounding_slack <= 2)%Q
  ∧ ∃ e : create_sets_locals,
      create_sets_body np_argsort binary64 (point_table t_hhh)
        (point_table t_lll) 2 (1 # 10) = Ok e
      ∧ create_sets np_argsort binary64 (point_table t_hhh)
          (point_table t_lll) 2 (1 # 10)
        = Ok (cs_possible_tuples e, cs_match_tuples e, cs_unmatch_tuples e)
      ∧ cs_match_tuples e = list_to_set (cs_ranked_built e)
      ∧ cs_unmatch_tuples e = ∅
      ∧ cs_possible_tuples e = possible_tuples (cs_triage e).
Proof.
  assert (Qsum (values (point_table t_lll)) + rounding_slack <= 2)%Q as Hsum
    by (by vm_compute).
  assert (2 <= 2)%Q as Hmu by (by vm_compute).
  split; [exact np_argsort_spec|].
  split; [exact binary64_sum_rounding_binary64|].
  split; [exact (point_table_NoDup t_lll)|].
  split; [exact (point_table_nonneg t_lll)|]. split; [exact Hsum|].
  exact (create_sets_mu_covers_all np_argsort binary64 (point_table t_hhh)
    (point_table t_lll) 2 (1 # 10) np_argsort_spec
    binary64_sum_rounding_binary64
    (point_table_NoDup t_lll) (point_table_keys t_lll t_hhh)
    (point_table_nonneg t_lll) Hsum Hmu).
Defined.

(** * No pair is dropped *)

Section NoPairDropped.
Variable argsort : list Q → list nat.
Variable fl : Q → Q.
Variable jaro_winkler : string → string → Q.
Variable get_jw_category : Q → category.


End NoPairDropped.


(** The run of the witness: the four pairs of the two sample frames land in
    the three pairs of lists, none is left out. *)
Example find_matches_sample_run :
  find_matches np_argsort binary64 jw_equal cat_equal
    zagat_sample fodors_sample matches_ten unmatches_ten
    (binary64 (6 # 10)) (binary64 (1 # 10)) false
  = Ok {| match_z := [0]%Z; match_f := [0]%Z;
          unmatch_z := [0; 1]%Z; unmatch_f := [1; 0]%Z;
          poss_z := [1]%Z; poss_f := [1]%Z |}.
Proof. by vm_compute. Qed.

